(** * GDGAjuBot: resource cache, page extractor and reply deduplication

    A shallow embedding of [gdgajubot/gdgajubot.py].  Python values are
    modelled by the Rocq types closest to them, effects by an explicit
    state-and-exception monad over a [world] that holds the process-wide
    Beaker cache, the heap of mutable event dictionaries, the clock, and
    the logs of the HTTP requests and Telegram sends performed so far. *)

From Stdlib Require Import ZArith QArith Qround Lqa Lia String Ascii List DecimalString.
From Stdlib Require DecimalPos DecimalZ.
From Stdlib.Strings Require Import Byte.
From stdpp Require Import base option gmap strings list.
Import ListNotations.

Local Open Scope Z_scope.
Local Open Scope string_scope.
Local Open Scope list_scope.

(** ** Python values *)

Module Py.

(** An exception object: its class and, when it was raised [from] another
    one, that cause. *)
Inductive exn : Type :=
| Raise (cls : string)
| RaiseFrom (cls : string) (cause : exn).

Definition exc_class (e : exn) : string :=
  match e with Raise c | RaiseFrom c _ => c end.

Definition exc_cause (e : exn) : option exn :=
  match e with Raise _ => None | RaiseFrom _ c => Some c end.

(** The outcome of evaluating an expression: the exception it raised, or
    its value. *)
Definition result (A : Type) : Type := (exn + A)%type.

Definition AttributeError : exn := Raise "AttributeError".
Definition KeyError : exn := Raise "KeyError".
Definition TypeError : exn := Raise "TypeError".
Definition ValueError : exn := Raise "ValueError".
Definition OverflowError : exn := Raise "OverflowError".

(** A [str] is a [string] with one [ascii] per code point, so the model
    covers the texts whose code points are below 256. *)
Definition LF : ascii := "010"%char.
Definition DQUOTE : ascii := "034"%char.

(** [str.isspace] on one code point below 256. *)
Definition isspace (c : ascii) : bool :=
  let n := nat_of_ascii c in
  ((9 <=? n) && (n <=? 13) || (28 <=? n) && (n <=? 32)
   || (n =? 133) || (n =? 160))%nat.

Definition isdigit (c : ascii) : bool :=
  let n := nat_of_ascii c in ((48 <=? n) && (n <=? 57))%nat.

(** [s] without the characters of class [p] at its left end, at its
    right end, and at both. *)
Fixpoint lstrip_of (p : ascii -> bool) (s : string) : string :=
  match s with
  | String c s' => if p c then lstrip_of p s' else s
  | EmptyString => EmptyString
  end.

Fixpoint rstrip_of (p : ascii -> bool) (s : string) : string :=
  match s with
  | String c s' =>
      match rstrip_of p s' with
      | EmptyString => if p c then EmptyString else String c EmptyString
      | t => String c t
      end
  | EmptyString => EmptyString
  end.

Definition strip_of (p : ascii -> bool) (s : string) : string :=
  rstrip_of p (lstrip_of p s).

(** [s.lstrip()] and [s.strip()] *)
Definition lstrip : string -> string := lstrip_of isspace.
Definition strip : string -> string := strip_of isspace.

(** [sep.join(l)] *)
Fixpoint join (sep : string) (l : list string) : string :=
  match l with
  | [] => EmptyString
  | [x] => x
  | x :: rest => x +:+ sep +:+ join sep rest
  end.

(** [str(n)] for an [int]. *)
Definition str_of_int (n : Z) : string :=
  NilZero.string_of_int (Z.to_int n).

(** ["%s" % x] for [x] a string or [None]. *)
Definition percent_s (x : option string) : string :=
  match x with Some s => s | None => "None" end.

Definition digit_value (c : ascii) : Z := Z.of_nat (nat_of_ascii c) - 48.

(** The digits of a decimal literal, most significant first; a single
    underscore may separate two digits. [acc] is the value read so far and
    [sep] tells whether the character before was an underscore. *)
Fixpoint int_digits (s : string) (acc : Z) (sep : bool) : option Z :=
  match s with
  | EmptyString => if sep then None else Some acc
  | String c s' =>
      if isdigit c then int_digits s' (10 * acc + digit_value c) false
      else if Ascii.eqb c "_" then
             if sep then None else int_digits s' acc true
           else None
  end.

(** A decimal literal without sign: it starts with a digit. *)
Definition int_unsigned (t : string) : option Z :=
  match t with
  | String c _ => if isdigit c then int_digits t 0 false else None
  | EmptyString => None
  end.

(** The blanks [int] skips around a literal: the ASCII ones from tab to
    carriage return and the space, and beyond ASCII the characters of
    [str.isspace]; the separators 28 to 31 are not among them. *)
Definition int_isspace (c : ascii) : bool :=
  let n := nat_of_ascii c in
  ((9 <=? n) && (n <=? 13) || (n =? 32) || (n =? 133) || (n =? 160))%nat.

(** A decimal literal with its optional sign, between blanks. *)
Definition int_literal (s : string) : option Z :=
  match strip_of int_isspace s with
  | String c t =>
      if Ascii.eqb c "-" then Z.opp <$> int_unsigned t
      else if Ascii.eqb c "+" then int_unsigned t
      else int_unsigned (String c t)
  | EmptyString => None
  end.

(** [int(s)] for a [str]: surrounding whitespace is dropped, a sign is
    allowed, and at least one digit is required. The number of digits
    is not limited, as in the interpreters of the time of the source
    (from 3.11 on a literal of more than 4300 digits raises
    [ValueError]). *)
Definition int (s : string) : result Z :=
  match int_literal s with
  | Some n => inr n
  | None => inl ValueError
  end.

End Py.
Import Py.

(** ** [datetime] *)

Module Datetime.

(** An aware [datetime] is the instant it denotes, in microseconds since
    the epoch; its zone only matters for rendering. A [timedelta] is a
    number of microseconds. *)
Definition datetime : Type := Z.
Definition timedelta : Type := Z.

(** [datetime.min] and [datetime.max] read as instants of UTC. *)
Definition MIN_US : Z := -62135596800 * 1000000.
Definition MAX_US : Z := 253402300799 * 1000000 + 999999.

Definition in_range (us : Z) : bool := ((MIN_US <=? us) && (us <=? MAX_US))%Z.

(** [datetime.fromtimestamp(t, tz)] for [t] given in microseconds and
    [tz] a fixed offset in seconds. The call raises when the instant, or
    its wall-clock reading in the zone, leaves years 1 to 9999 (which
    class is raised there depends on the platform). The source passes
    [t] as a number of seconds: an [int], converted exactly, or
    [ms / 1000], a float whose rounding stays far below one minute, the
    resolution at which event times are rendered. *)
Definition fromtimestamp (tz : Z) (us : Z) : result datetime :=
  if negb (in_range us) then inl ValueError
  else if negb (in_range (us + tz * 1000000)) then inl OverflowError
  else inr us.

(** [a - b] on two aware datetimes. *)
Definition sub (a b : datetime) : timedelta := a - b.

(** [delta.total_seconds()], as the exact quotient. The float Python
    returns is that quotient rounded, and compares with each bound of
    [timeleft] as the quotient does: the bounds are integers below 2^53,
    which rounding neither reaches from above nor crosses. *)
Definition total_seconds (d : timedelta) : Q := d # 1000000.

(** Days since the epoch to the civil date [(year, month, day)] of the
    proleptic Gregorian calendar. *)
Definition civil_from_days (days : Z) : Z * Z * Z :=
  let z := days + 719468 in
  let era := z / 146097 in
  let doe := z - era * 146097 in
  let yoe := (doe - doe / 1460 + doe / 36524 - doe / 146096) / 365 in
  let doy := doe - (365 * yoe + yoe / 4 - yoe / 100) in
  let mp := (5 * doy + 2) / 153 in
  let d := doy - (153 * mp + 2) / 5 + 1 in
  let m := if (mp <? 10)%Z then mp + 3 else mp - 9 in
  let y := yoe + era * 400 + (if (m <=? 2)%Z then 1 else 0) in
  (y, m, d).

Definition digit (n : Z) : ascii := ascii_of_nat (Z.to_nat (48 + n)).

(** A number from 0 to 99 on two digits, as [%d], [%m], [%H] and [%M] do. *)
Definition two_digits (n : Z) : string :=
  String (digit (n / 10)) (String (digit (n mod 10)) EmptyString).

(** [dt.strftime('%d/%m %H:%M')] in the zone at offset [tz]. *)
Definition strftime_dm_HM (tz : Z) (dt : datetime) : string :=
  let secs := dt / 1000000 + tz in
  let '(_, m, d) := civil_from_days (secs / 86400) in
  let sod := secs mod 86400 in
  two_digits d +:+ "/" +:+ two_digits m +:+ " "
    +:+ two_digits (sod / 3600) +:+ ":" +:+ two_digits (sod mod 3600 / 60).

End Datetime.
Import Datetime.

(** ** The modules of the package that the bot imports *)

(** [gdgajubot.util]: the command extractor and the bot's fixed time
    zone, given as its UTC offset in seconds. *)
Class Util := {
  extract_command : string -> option string;
  AJU_TZ : Z;
}.

(** ** The book response *)

Section BookResponse.
Context `{Util}.

Definition timeleft : list (Z * string) :=
  [ (30, "30 segundos");
    (60, "1 minuto");
    (600, "10 minutos");
    (1800, "meia hora");
    (3600, "1 hora") ].

Definition book_intro (book : string) : string :=
  "O livro de hoje " +:+ String "233" (": [" +:+ book
    +:+ "](https://www.packtpub.com/packt/offers/free-learning)").

Definition warning (in_words : string) : string :=
  String LF (String LF ("Faltam menos de " +:+ in_words +:+ "!")).

(** The loop over [timeleft]: the first tier whose bound is not below
    [seconds] appends its warning and returns. *)
Fixpoint book_warning (response : string) (seconds : Q)
    (tiers : list (Z * string)) : string :=
  match tiers with
  | [] => response
  | (num, in_words) :: rest =>
      if Qle_bool seconds (inject_Z num) then response +:+ warning in_words
      else book_warning response seconds rest
  end.

(** [_book_response(book, expires, now)]; [today] is what
    [datetime.now(tz=AJU_TZ)] returns when [now] is [None]. *)
Definition _book_response (today : datetime) (book : string) (expires : Z)
    (now : option datetime) : result string :=
  let now := match now with Some n => n | None => today end in
  match fromtimestamp AJU_TZ (expires * 1000000) with
  | inl e => inl e
  | inr at_ =>
      let delta := sub at_ now in
      let seconds := total_seconds delta in
      inr (book_warning (book_intro book) seconds timeleft)
  end.

End BookResponse.

(** ** Regular expressions *)

Module Re.

(** The nodes a compiled pattern is a sequence of: a literal text, one
    character of a class, a lazy or a greedy repetition of a class, and
    the marks that open and close the capturing groups (group [i] lies
    between marks [2 * i - 2] and [2 * i - 1]). *)
Inductive node : Type :=
| Literal (s : string)
| In (p : ascii -> bool)
| MinRepeat (p : ascii -> bool)
| MaxRepeat (p : ascii -> bool)
| Mark (i : nat).

Definition pattern : Type := list node.

(** A match object: the subject, where the match ends, and the marks. *)
Record match_obj : Type := MatchObj {
  subject : string;
  match_end : nat;
  marks : gmap nat nat;
}.

(** [s] without its prefix [l], when it starts with it. *)
Fixpoint strip_prefix (l s : string) : option string :=
  match l, s with
  | EmptyString, _ => Some s
  | String a l', String b s' => if Ascii.eqb a b then strip_prefix l' s' else None
  | String _ _, EmptyString => None
  end.

(** The backtracking matcher: [match_here pat s pos mk] matches [pat]
    against [s], the text at offset [pos] of the subject, and returns the
    end offset and marks of the first match in backtracking order. A lazy
    repetition first tries the rest of the pattern and takes one more
    character when that fails; a greedy one takes all it can and gives
    characters back one at a time. *)
Fixpoint match_here (pat : pattern) : string -> nat -> gmap nat nat -> option (nat * gmap nat nat) :=
  match pat with
  | [] => fun _ pos mk => Some (pos, mk)
  | Literal l :: rest => fun s pos mk =>
      match strip_prefix l s with
      | Some s' => match_here rest s' (pos + String.length l)%nat mk
      | None => None
      end
  | In p :: rest => fun s pos mk =>
      match s with
      | String c s' => if p c then match_here rest s' (S pos) mk else None
      | EmptyString => None
      end
  | MinRepeat p :: rest =>
      let k := match_here rest in
      fix lazy (s : string) (pos : nat) (mk : gmap nat nat) :=
        match k s pos mk with
        | Some r => Some r
        | None =>
            match s with
            | String c s' => if p c then lazy s' (S pos) mk else None
            | EmptyString => None
            end
        end
  | MaxRepeat p :: rest =>
      let k := match_here rest in
      fix greedy (s : string) (pos : nat) (mk : gmap nat nat) :=
        match s with
        | String c s' =>
            if p c then
              match greedy s' (S pos) mk with
              | Some r => Some r
              | None => k s pos mk
              end
            else k s pos mk
        | EmptyString => k s pos mk
        end
  | Mark i :: rest => fun s pos mk => match_here rest s pos (<[i:=pos]> mk)
  end.

(** The scan of [pattern.search]: the match at the leftmost offset of
    [s] (the text from offset [pos] on) where there is one. *)
Fixpoint search_from (pat : pattern) (s : string) (pos : nat) : option (nat * gmap nat nat) :=
  match match_here pat s pos ∅ with
  | Some r => Some r
  | None =>
      match s with
      | String _ s' => search_from pat s' (S pos)
      | EmptyString => None
      end
  end.

(** [pattern.search(s)] *)
Definition search (pat : pattern) (s : string) : option match_obj :=
  match search_from pat s 0 with
  | Some (e, mk) => Some (MatchObj s e mk)
  | None => None
  end.

(** Whether [l] occurs somewhere in [s]. *)
Fixpoint occurs (l s : string) : bool :=
  match strip_prefix l s with
  | Some _ => true
  | None =>
      match s with
      | String _ s' => occurs l s'
      | EmptyString => false
      end
  end.

(** [m.group(i)] for [i >= 1]: [None] when the group took no part. *)
Definition group (m : match_obj) (i : nat) : option string :=
  match marks m !! (2 * i - 2)%nat, marks m !! (2 * i - 1)%nat with
  | Some a, Some b => Some (substring a (b - a) (subject m))
  | _, _ => None
  end.

End Re.

(** [.] under [re.DOTALL] *)
Definition any_char (c : ascii) : bool := true.

(** [[ >]] *)
Definition space_or_gt (c : ascii) : bool :=
  Ascii.eqb c " " || Ascii.eqb c ">".

Definition quoted (s : string) : string :=
  String DQUOTE (s +:+ String DQUOTE EmptyString).

Definition book_re : Re.pattern :=
  [ Re.Literal (quoted "deal-of-the-day"); Re.MinRepeat any_char;
    Re.Literal "<div"; Re.In space_or_gt; Re.MinRepeat any_char;
    Re.Literal "<div"; Re.In space_or_gt; Re.MinRepeat any_char;
    Re.Literal "<div"; Re.In space_or_gt; Re.MinRepeat any_char;
    Re.Literal "</div>"; Re.MinRepeat any_char;
    Re.Literal "<div"; Re.In space_or_gt; Re.MinRepeat any_char;
    Re.Literal ("<span class=" +:+ quoted "packt-js-countdown"
                +:+ " data-countdown-to=" +:+ String DQUOTE EmptyString);
    Re.Mark 0; Re.In isdigit; Re.MaxRepeat isdigit; Re.Mark 1;
    Re.Literal (String DQUOTE "></span>"); Re.MinRepeat any_char;
    Re.Literal "<h2"; Re.In space_or_gt; Re.MaxRepeat isspace;
    Re.Mark 2; Re.MinRepeat any_char; Re.Mark 3;
    Re.MaxRepeat isspace; Re.Literal "</h2>" ].

(** ** The libraries behind the extractor *)

(** [bs4]: the tree [BeautifulSoup(content, 'html.parser')] builds, and
    on a tag [select_one], [attrs] and [text]. *)
Class Bs4 := {
  Tag : Type;
  BeautifulSoup : string -> Tag;
  select_one : Tag -> string -> option Tag;
  attrs : Tag -> gmap string string;
  text : Tag -> string;
}.

(** [bytes.decode(encoding)] *)
Class Codecs := {
  decode : list Byte.byte -> string -> result string;
}.

(** What [extract_packt_free_book] is given: a [str], [bytes], or a
    file object whose [read()] gives one of the two. *)
Inductive page_content : Type :=
| PStr (s : string)
| PBytes (b : list Byte.byte)
| PFile (data : string + list Byte.byte).

(** ** [Resources.extract_packt_free_book] *)

Section Extract.
Context `{Bs4} `{Codecs}.

(** The body of the [try]: the pattern strategy. *)
Definition extract_with_re (content : string) : result (string * Z) :=
  match Re.search book_re content with
  | None => inl AttributeError
  | Some m =>
      match Re.group m 2, Re.group m 1 with
      | Some book, Some expires =>
          match int expires with
          | inl e => inl e
          | inr n => inr (book, n)
          end
      | _, _ => inl TypeError
      end
  end.

(** The fallback: the structural strategy over the parsed page. *)
Definition extract_with_parser (content : string) : result (string * Z) :=
  let page := BeautifulSoup content in
  match select_one page "#deal-of-the-day" with
  | None => inl AttributeError
  | Some dealoftheday =>
      let book :=
        select_one dealoftheday
          "div div div:nth-of-type(2) div:nth-of-type(2) h2" in
      match select_one dealoftheday "span.packt-js-countdown" with
      | None => inl AttributeError
      | Some span =>
          match attrs span !! "data-countdown-to" with
          | None => inl KeyError
          | Some expires =>
              match book with
              | None => inl AttributeError
              | Some h2 =>
                  match int expires with
                  | inl e => inl e
                  | inr n => inr (strip (text h2), n)
                  end
              end
          end
      end
  end.

(** The head of [extract_packt_free_book]: a file is read, and bytes
    are decoded. [encoding] is the value passed, [None] included; the
    default is ['utf-8']. *)
Definition page_text (content : page_content) (encoding : option string) : result string :=
  let content :=
    match content with
    | PFile (inl s) => PStr s
    | PFile (inr b) => PBytes b
    | c => c
    end in
  match content with
  | PBytes b =>
      match encoding with
      | Some enc => decode b enc
      | None => inl TypeError
      end
  | PStr s => inr s
  | PFile _ => inl TypeError
  end.

(** [extract_packt_free_book(content, encoding)]: the exceptions handed
    to [logging.exception], and the outcome. *)
Definition extract_packt_free_book (content : page_content)
    (encoding : option string) : list exn * result (string * Z) :=
  match page_text content encoding with
  | inl e => ([], inl e)
  | inr content =>
      match extract_with_re content with
      | inr r => ([], inr r)
      | inl e => ([e], extract_with_parser content)
      end
  end.

End Extract.

(** ** The world the bot runs in *)

(** The values the bot keeps in dictionaries and keyword arguments. *)
Inductive pyval : Type :=
| VStr (s : string)
| VInt (n : Z)
| VBool (b : bool).

Global Instance pyval_eq_dec : EqDecision pyval.
Proof. solve_decision. Defined.

(** The [time] entry of an event: the epoch milliseconds Meetup sent, or
    the text [_format_events] put in its place. *)
Inductive time_field : Type :=
| TInt (ms : Z)
| TStr (s : string).

(** An event dictionary with its keys [name], [link] and [time]. *)
Record event : Type := Event {
  ev_name : string;
  ev_link : string;
  ev_time : time_field;
}.

(** The objects the Beaker cache holds: the dictionary of the last
    reply, the list [get_events] returned (its items are references into
    the heap of event dictionaries), and the pair of
    [get_packt_free_book]. *)
Inductive pyobj : Type :=
| ODict (d : gmap string pyval)
| OList (items : list nat)
| OTuple (book : string) (expires : Z).

Record chat : Type := Chat {
  chat_id : Z;
  chat_type : string;
}.

Record message : Type := Message {
  message_id : Z;
  msg_chat : chat;
  msg_text : string;
  from_username : option string;
}.

Definition kwargs : Type := list (string * pyval).

(** A call of [bot.send_message]. *)
Record send : Type := SendMessage {
  send_chat_id : Z;
  send_text : string;
  reply_to_message_id : option pyval;
  send_kwargs : kwargs;
}.

Record http_request : Type := Get {
  url : string;
  params : list (string * string);
}.

(** What the bot reads of an HTTP response: [r.content], [r.encoding]
    and [r.json()], an array of event objects. *)
Record response : Type := Response {
  content : list Byte.byte;
  encoding : option string;
  json : result (list event);
}.

(** The network. The [n]-th HTTP request and the [n]-th Telegram send of
    the process each take some time and then fail or answer: a response,
    or the id of the message Telegram accepted. *)
Class Net := {
  requests_get : nat -> http_request -> Q * result response;
  telegram : nat -> send -> Q * result Z;
}.

(** The configuration [main] builds, and the path of the module's
    source file, which Beaker puts in front of the name of a cached
    function. *)
Class Config := {
  group_name : string;
  meetup_key : string;
  sourcefile : string;
}.

Inductive log_record : Type :=
| LogInfo (msg : string)
| LogException (e : exn).

Definition cache_key : Type := (Z + string)%type.

(** A stored value with the time it was stored at. *)
Definition cache_entry : Type := (Q * pyobj)%type.

Record world : Type := World {
  clock : Q;
  cache : gmap string (gmap cache_key cache_entry);
  heap : list event;
  requests : list http_request;
  outbox : list (send * result Z);
  log : list log_record;
}.

Definition set_clock (t : Q) (w : world) : world :=
  World t (cache w) (heap w) (requests w) (outbox w) (log w).
Definition set_cache (c : gmap string (gmap cache_key cache_entry)) (w : world) : world :=
  World (clock w) c (heap w) (requests w) (outbox w) (log w).
Definition set_heap (h : list event) (w : world) : world :=
  World (clock w) (cache w) h (requests w) (outbox w) (log w).
Definition set_requests (r : list http_request) (w : world) : world :=
  World (clock w) (cache w) (heap w) r (outbox w) (log w).
Definition set_outbox (o : list (send * result Z)) (w : world) : world :=
  World (clock w) (cache w) (heap w) (requests w) o (log w).
Definition set_log (l : list log_record) (w : world) : world :=
  World (clock w) (cache w) (heap w) (requests w) (outbox w) l.

(** Time passing between two calls. *)
Definition advance (d : Q) (w : world) : world := set_clock (clock w + d)%Q w.

(** A computation: from a world to the world it leaves and the
    exception it raised or the value it returned. *)
Definition M (A : Type) : Type := world -> world * result A.

Global Instance M_ret : MRet M := fun A a w => (w, inr a).
Global Instance M_bind : MBind M := fun A B k c w =>
  match c w with
  | (w', inl e) => (w', inl e)
  | (w', inr a) => k a w'
  end.

Definition lift {A : Type} (r : result A) : M A := fun w => (w, r).

(** [try: c except Exception as e: h e] *)
Definition try_except {A : Type} (c : M A) (h : exn -> M A) : M A := fun w =>
  match c w with
  | (w', inl e) => h e w'
  | (w', inr a) => (w', inr a)
  end.

Definition logging_info (msg : string) : M unit := fun w =>
  (set_log (log w ++ [LogInfo msg]) w, inr tt).

Definition logging_exception (e : exn) : M unit := fun w =>
  (set_log (log w ++ [LogException e]) w, inr tt).

(** ** The Beaker cache *)

Module Beaker.

(** [expire=600] *)
Definition expire : Q := 600.

(** A value stored at [stored] has expired once the clock reaches
    [stored + expire]. *)
Definition is_expired (now stored : Q) : bool := Qle_bool (stored + expire) now.

(** What namespace [ns] holds under [key], expired or not. *)
Definition stored (ns : string) (key : cache_key) (w : world) : option cache_entry :=
  cache w !! ns ≫= (.!! key).

(** The value under [key] of namespace [ns], when it has one that has
    not expired. *)
Definition current_value (ns : string) (key : cache_key) (w : world) : option pyobj :=
  match stored ns key w with
  | Some (stored, v) => if is_expired (clock w) stored then None else Some v
  | None => None
  end.

(** [cache[key] = v]: the value is stored with the time of the call. *)
Definition put (ns : string) (key : cache_key) (v : pyobj) : M unit := fun w =>
  (set_cache (<[ns := <[key := (clock w, v)]> (default ∅ (cache w !! ns))]> (cache w)) w,
   inr tt).

(** [cache.get(key, createfunc=f)]: the current value, or else the value
    [f] creates, stored on the way; nothing is stored when [f] raises. *)
Definition get (ns : string) (key : cache_key) (createfunc : M pyobj) : M pyobj := fun w =>
  match current_value ns key w with
  | Some v => (w, inr v)
  | None => (v ← createfunc; put ns key v;; mret v) w
  end.

(** The namespace of a function decorated with [cache.cache]. *)
Definition func_namespace `{Config} (name : string) : string :=
  sourcefile +:+ "|" +:+ name.

End Beaker.

(** ** [Resources] *)

Section Resources.
Context `{Util} `{Bs4} `{Codecs} `{Net} `{Config}.

(** [requests.get(url, params=params)] *)
Definition http_get (req : http_request) : M response := fun w =>
  let '(d, r) := requests_get (length (requests w)) req in
  (set_clock (clock w + d)%Q (set_requests (requests w ++ [req]) w), r).

(** The request of [generate_events(n)]. *)
Definition events_request (n : Z) : http_request :=
  Get ("https://api.meetup.com/" +:+ group_name +:+ "/events")
      [ ("key", meetup_key);
        ("status", "upcoming");
        ("only", "name,time,link");
        ("page", str_of_int n) ].

(** [generate_events(n)] *)
Definition generate_events (n : Z) : M (list event) :=
  r ← http_get (events_request n);
  lift (json r).

(** [list(events)]: the event dictionaries enter the heap and the list
    holds their references. *)
Definition new_list (events : list event) : M pyobj := fun w =>
  (set_heap (heap w ++ events) w,
   inr (OList (seq (length (heap w)) (length events)))).

(** The key Beaker files a call of [get_events] under: the name and the
    arguments of the call. *)
Definition events_key (list_size : option Z) : cache_key :=
  inr (join " " ("get_events" ::
                 match list_size with Some n => [str_of_int n] | None => [] end)).

(** [get_events(list_size)], cached for 600 seconds under the
    arguments of the call; [None] is a call that leaves [list_size] to
    its default. *)
Definition get_events (list_size : option Z) : M pyobj :=
  Beaker.get (Beaker.func_namespace "get_events") (events_key list_size)
    (events ← generate_events (default 5 list_size); new_list events).

(** The extractor run on a response; what it hands to
    [logging.exception] enters the log. *)
Definition extract_response (r : response) : M pyobj := fun w =>
  let '(logged, res) := extract_packt_free_book (PBytes (content r)) (encoding r) in
  (set_log (log w ++ (LogException <$> logged)) w,
   match res with
   | inl e => inl e
   | inr (book, expires) => inr (OTuple book expires)
   end).

Definition book_request : http_request :=
  Get "https://www.packtpub.com/packt/offers/free-learning" [].

(** [get_packt_free_book()], cached for 600 seconds. *)
Definition get_packt_free_book : M pyobj :=
  Beaker.get (Beaker.func_namespace "get_packt_free_book") (inr "get_packt_free_book")
    (r ← http_get book_request; extract_response r).

(** The two cached fetch operations, the request each one makes on a
    miss, and the place of the cache it keeps its value in. *)
Inductive fetch : Type :=
| GetEvents (list_size : option Z)
| GetPacktFreeBook.

Definition run_fetch (f : fetch) : M pyobj :=
  match f with
  | GetEvents list_size => get_events list_size
  | GetPacktFreeBook => get_packt_free_book
  end.

Definition fetch_request (f : fetch) : http_request :=
  match f with
  | GetEvents list_size => events_request (default 5 list_size)
  | GetPacktFreeBook => book_request
  end.

Definition fetch_value (f : fetch) (w : world) : option pyobj :=
  match f with
  | GetEvents list_size =>
      Beaker.current_value (Beaker.func_namespace "get_events") (events_key list_size) w
  | GetPacktFreeBook =>
      Beaker.current_value (Beaker.func_namespace "get_packt_free_book")
        (inr "get_packt_free_book") w
  end.

End Resources.

(** ** [GDGAjuBot] *)

Section GDGAjuBot.
Context `{Util} `{Bs4} `{Codecs} `{Net} `{Config}.

(** The world once send [s] took [d] seconds and ended in [r]. *)
Definition sent (s : send) (d : Q) (r : result Z) (w : world) : world :=
  set_clock (clock w + d)%Q (set_outbox (outbox w ++ [(s, r)]) w).

(** [bot.send_message(chat_id, text, reply_to_message_id=..., **kwargs)]:
    the call and its outcome enter the outbox. *)
Definition send_message (s : send) : M Z := fun w =>
  let '(d, r) := telegram (length (outbox w)) s in
  (sent s d r w, r).

(** [bot.reply_to(message, text, **kwargs)] *)
Definition reply_to (m : message) (text : string) (kw : kwargs) : M Z :=
  send_message (SendMessage (chat_id (msg_chat m)) text (Some (VInt (message_id m))) kw).

(** ["[%(name)s](%(link)s): %(time)s" % event], [time] being a text. *)
Definition event_line (ev : event) (time : string) : string :=
  "[" +:+ ev_name ev +:+ "](" +:+ ev_link ev +:+ "): " +:+ time.

(** The loop of [_format_events] over the references of the list. An
    integer [time] is rendered and written back into the dictionary. (A
    reference is always in the heap: lists come from [new_list].) *)
Fixpoint format_loop (events : list nat) (response : list string) : M (list string) := fun w =>
  match events with
  | [] => (w, inr response)
  | r :: rest =>
      match heap w !! r with
      | None => (w, inl (Raise "ReferenceError"))
      | Some ev =>
          match ev_time ev with
          | TInt ms =>
              match fromtimestamp AJU_TZ (ms * 1000) with
              | inl e => (w, inl e)
              | inr event_dt =>
                  let time := strftime_dm_HM AJU_TZ event_dt in
                  let ev' := Event (ev_name ev) (ev_link ev) (TStr time) in
                  format_loop rest (response ++ [event_line ev' time])
                    (set_heap (<[r := ev']> (heap w)) w)
              end
          | TStr time => format_loop rest (response ++ [event_line ev time]) w
          end
      end
  end.

(** [_format_events(events)]. Iterating over a dictionary or a pair
    gives texts, which have no ['time'] entry. *)
Definition _format_events (events : pyobj) : M string :=
  match events with
  | OList items =>
      response ← format_loop items [];
      mret (join (String LF EmptyString) response)
  | ODict d => if decide (d = ∅) then mret EmptyString else lift (inl TypeError)
  | OTuple _ _ => lift (inl TypeError)
  end.

Definition see_last_reply : string :=
  "Clique para ver a " +:+ String "250" "ltima resposta".

(** The name of the cache [_smart_reply] keeps the last reply in. *)
Definition reply_cache (text : string) : string :=
  "p" +:+ percent_s (extract_command text).

(** [previous.update({'text': text, 'message_id': id})] *)
Definition update_record (text : string) (id : Z) (previous : gmap string pyval) :
    gmap string pyval :=
  <["message_id" := VInt id]> (<["text" := VStr text]> previous).

(** [_smart_reply(message, text, **kwargs)] *)
Definition _smart_reply (m : message) (text : string) (kw : kwargs) : M unit :=
  if decide (chat_type (msg_chat m) ∈ ["group"; "supergroup"]) then
    let key := reply_cache text in
    previous ← Beaker.get key (inl (chat_id (msg_chat m))) (mret (ODict ∅));
    match previous with
    | ODict previous =>
        if decide (previous !! "text" = Some (VStr text)) then
          match previous !! "message_id" with
          | Some id =>
              send_message (SendMessage (chat_id (msg_chat m)) see_last_reply (Some id) []);;
              mret tt
          | None => lift (inl KeyError)
          end
        else
          sent ← reply_to m text kw;
          let previous := update_record text sent previous in
          Beaker.put key (inl (chat_id (msg_chat m))) (ODict previous)
    | _ => lift (inl AttributeError)
    end
  else
    reply_to m text kw;; mret tt.

(** A result with its value dropped. *)
Definition discard {A : Type} (r : result A) : result unit :=
  match r with inl e => inl e | inr _ => inr tt end.

(** The two kinds of message [_smart_reply] sends: the reply itself, and
    the pointer to the message that carried it before. *)
Definition real_send (m : message) (text : string) (kw : kwargs) : send :=
  SendMessage (chat_id (msg_chat m)) text (Some (VInt (message_id m))) kw.

Definition pointer_send (m : message) (id : pyval) : send :=
  SendMessage (chat_id (msg_chat m)) see_last_reply (Some id) [].

(** The record of the last reply that [_smart_reply] looks [text] up in. *)
Definition reply_record (m : message) (text : string) (w : world) : option pyobj :=
  Beaker.current_value (reply_cache text) (inl (chat_id (msg_chat m))) w.

(** No current record holds [text]: there is none, or its text differs. *)
Definition reply_is_new (m : message) (text : string) (w : world) : Prop :=
  match reply_record m text w with
  | None => True
  | Some (ODict d) => d !! "text" <> Some (VStr text)
  | Some _ => False
  end.

Definition in_group (m : message) : Prop :=
  chat_type (msg_chat m) ∈ ["group"; "supergroup"].

Definition markdown : kwargs :=
  [ ("parse_mode", VStr "Markdown"); ("disable_web_page_preview", VBool true) ].

(** [list_upcoming_events(message)], the handler of [/events]. *)
Definition list_upcoming_events (m : message) : M unit :=
  logging_info (percent_s (from_username m) +:+ ": " +:+ "/events");;
  try_except
    (next_events ← get_events (Some 5);
     response ← _format_events next_events;
     _smart_reply m response markdown)
    logging_exception.

(** [datetime.datetime.now(tz=AJU_TZ)] *)
Definition datetime_now : M datetime := fun w =>
  (w, inr (Qfloor (clock w * 1000000))).

(** [packtpub_free_learning(message, now)], the handler of [/book]. *)
Definition packtpub_free_learning (m : message) (now : option datetime) : M unit :=
  logging_info (percent_s (from_username m) +:+ ": " +:+ "/book");;
  offer ← get_packt_free_book;
  match offer with
  | OTuple book expires =>
      today ← datetime_now;
      response ← lift (_book_response today book expires now);
      _smart_reply m response markdown
  | _ => lift (inl ValueError)   (* [book, expires = offer] on another object *)
  end.

End GDGAjuBot.

(** ** The text of [/events] as a function of the events *)

Section EventsText.
Context `{Util}.

(** The text [_format_events] shows for the time of an event: the
    rendering of an integer, or the text that is there already. *)
Definition rendered_time (ev : event) : result string :=
  match ev_time ev with
  | TInt ms =>
      match fromtimestamp AJU_TZ (ms * 1000) with
      | inl e => inl e
      | inr event_dt => inr (strftime_dm_HM AJU_TZ event_dt)
      end
  | TStr time => inr time
  end.

(** The event once [_format_events] has gone over it. *)
Definition rendered (ev : event) : event :=
  match rendered_time ev with
  | inr time => Event (ev_name ev) (ev_link ev) (TStr time)
  | inl _ => ev
  end.

(** One line per event, in the order of the list; the first time that
    cannot be rendered fails the whole. *)
Fixpoint events_lines (events : list event) : result (list string) :=
  match events with
  | [] => inr []
  | ev :: rest =>
      match rendered_time ev with
      | inl e => inl e
      | inr time =>
          match events_lines rest with
          | inl e => inl e
          | inr lines => inr (event_line ev time :: lines)
          end
      end
  end.

Definition events_text (events : list event) : result string :=
  match events_lines events with
  | inl e => inl e
  | inr lines => inr (join (String LF EmptyString) lines)
  end.

(** [ev'] is [ev] with, at most, its integer time replaced by its
    rendering. *)
Definition rendering_of (ev ev' : event) : Prop :=
  ev_name ev' = ev_name ev
  /\ ev_link ev' = ev_link ev
  /\ (ev_time ev' = ev_time ev
      \/ exists ms, ev_time ev = TInt ms /\ ev' = rendered ev).

(** The heap [h] is [h0] with some of its events rendered. *)
Definition renders_heap (h0 h : list event) : Prop :=
  forall r ev, h0 !! r = Some ev -> h !! r = Some ev \/ h !! r = Some (rendered ev).

End EventsText.

(** [w'] has the heap of events and the list of requests of [w]. *)
Definition same_heap_and_requests (w w' : world) : Prop :=
  heap w' = heap w /\ requests w' = requests w.

(** ** Vocabulary for the texts the pattern captures *)

(** Every character of [s] is of class [p]. *)
Fixpoint all_of (p : ascii -> bool) (s : string) : bool :=
  match s with
  | EmptyString => true
  | String c s' => p c && all_of p s'
  end.

(** The last character of [s] is of class [p]. *)
Fixpoint ends_in (p : ascii -> bool) (s : string) : bool :=
  match s with
  | EmptyString => false
  | String c EmptyString => p c
  | String _ s' => ends_in p s'
  end.

(** The first character of [s] is of class [p]. *)
Definition starts_in (p : ascii -> bool) (s : string) : bool :=
  match s with
  | EmptyString => false
  | String c _ => p c
  end.

(** [s] has no character of class [p] at either end. *)
Definition trimmed_of (p : ascii -> bool) (s : string) : Prop :=
  starts_in p s = false /\ ends_in p s = false.

(** ** The parts of [book_re] *)

(** From the marker to the opening quote of the countdown. *)
Definition book_re_head : Re.pattern := take 17 book_re.

(** From the closing quote of the countdown to the opening tag of the
    heading. *)
Definition book_re_middle : Re.pattern := take 4 (drop 21 book_re).

(** The marks a pattern sets. *)
Fixpoint marks_of (pat : Re.pattern) : list nat :=
  match pat with
  | [] => []
  | Re.Mark i :: rest => i :: marks_of rest
  | _ :: rest => marks_of rest
  end.

(** ** Pages with the widget *)

(** The countdown element up to the quote that opens its value, and
    from the quote that closes it: two literals of [book_re]. *)
Definition countdown_open : string :=
  "<span class=" +:+ quoted "packt-js-countdown"
  +:+ " data-countdown-to=" +:+ String DQUOTE EmptyString.

Definition countdown_close : string := String DQUOTE "></span>".

(** The pattern up to the countdown element. *)
Definition book_re_to_countdown : Re.pattern := take 16 book_re.

(** The end of the pattern, part by part from the last: the blanks and
    the closing tag; the mark that ends the title; the title; the mark
    that starts it; the blanks before it; the opening tag. *)
Definition re_closing : Re.pattern := [Re.MaxRepeat isspace; Re.Literal "</h2>"].
Definition re_text_end : Re.pattern := Re.Mark 3 :: re_closing.
Definition re_text : Re.pattern := Re.MinRepeat any_char :: re_text_end.
Definition re_text_start : Re.pattern := Re.Mark 2 :: re_text.
Definition re_title : Re.pattern := Re.MaxRepeat isspace :: re_text_start.
Definition re_heading : Re.pattern := Re.Literal "<h2" :: Re.In space_or_gt :: re_title.

(** A page with the widget, cut where the pattern looks: the quoted
    marker; three opening [div] tags and the end of the third [div]; a
    fourth opening [div] tag; the countdown element; the [h2] heading.
    Of an opening tag the page gives the character after its name; of
    the heading, that character, the blanks that follow it, the text up
    to the blanks before the closing tag, and those blanks. The other
    fields are the text in between. *)
Record offer_page : Type := OfferPage {
  op_before : string;
  op_in_widget : string;
  op_div1 : ascii;
  op_in_div1 : string;
  op_div2 : ascii;
  op_in_div2 : string;
  op_div3 : ascii;
  op_in_div3 : string;
  op_after_div3 : string;
  op_div4 : ascii;
  op_in_div4 : string;
  op_countdown : string;
  op_to_heading : string;
  op_h2 : ascii;
  op_blank : string;
  op_text : string;
  op_trail : string;
  op_after : string;
}.

Definition heading_rest (p : offer_page) : string :=
  op_text p +:+ op_trail p +:+ "</h2>" +:+ op_after p.

Definition heading (p : offer_page) : string :=
  "<h2" +:+ String (op_h2 p) (op_blank p +:+ heading_rest p).

Definition after_countdown (p : offer_page) : string :=
  op_to_heading p +:+ heading p.

Definition from_countdown (p : offer_page) : string :=
  countdown_open +:+ op_countdown p +:+ countdown_close +:+ after_countdown p.

Definition from_marker (p : offer_page) : string :=
  quoted "deal-of-the-day" +:+ op_in_widget p
  +:+ "<div" +:+ String (op_div1 p) (op_in_div1 p
  +:+ "<div" +:+ String (op_div2 p) (op_in_div2 p
  +:+ "<div" +:+ String (op_div3 p) (op_in_div3 p
  +:+ "</div>" +:+ op_after_div3 p
  +:+ "<div" +:+ String (op_div4 p) (op_in_div4 p
  +:+ from_countdown p)))).

(** The text of the page. *)
Definition markup (p : offer_page) : string := op_before p +:+ from_marker p.

(** The page up to its countdown element. *)
Definition up_to_countdown (p : offer_page) : string :=
  op_before p +:+ quoted "deal-of-the-day" +:+ op_in_widget p
  +:+ "<div" +:+ String (op_div1 p) (op_in_div1 p
  +:+ "<div" +:+ String (op_div2 p) (op_in_div2 p
  +:+ "<div" +:+ String (op_div3 p) (op_in_div3 p
  +:+ "</div>" +:+ op_after_div3 p
  +:+ "<div" +:+ String (op_div4 p) (op_in_div4 p)))).

(** The offset of the first [l] in [s]. *)
Fixpoint index_of (l s : string) : option nat :=
  match Re.strip_prefix l s with
  | Some _ => Some O
  | None =>
      match s with
      | String _ s' => S <$> index_of l s'
      | EmptyString => None
      end
  end.

(** How many times [l] occurs in [s]. *)
Fixpoint count_of (l s : string) : nat :=
  (match Re.strip_prefix l s with Some _ => 1 | None => 0 end
   + match s with
     | String _ s' => count_of l s'
     | EmptyString => 0
     end)%nat.

(** The page is cut as described: every tag name ends with a blank or
    [>]; the countdown is a run of digits and the page has no other
    countdown element; the heading is the first [<h2] after it; its
    text is not empty, has no blank at either end, and the first [</h2>]
    after it starts is the one that closes it. *)
Definition well_cut (p : offer_page) : Prop :=
  space_or_gt (op_div1 p) = true /\ space_or_gt (op_div2 p) = true
  /\ space_or_gt (op_div3 p) = true /\ space_or_gt (op_div4 p) = true
  /\ space_or_gt (op_h2 p) = true
  /\ op_countdown p <> EmptyString /\ all_of isdigit (op_countdown p) = true
  /\ count_of countdown_open (markup p) = 1%nat
  /\ index_of "<h2" (after_countdown p) = Some (String.length (op_to_heading p))
  /\ all_of isspace (op_blank p) = true /\ all_of isspace (op_trail p) = true
  /\ op_text p <> EmptyString /\ trimmed_of isspace (op_text p)
  /\ index_of "</h2>" (heading_rest p)
     = Some (String.length (op_text p) + String.length (op_trail p))%nat.

(** There is a match of [pat] at the start of [s]. *)
Definition accepts (pat : Re.pattern) (s : string) : Prop :=
  Re.match_here pat s 0 ∅ <> None.

(** ** The easter-egg searches *)

(** [\w] of a [str] pattern, on the code points below 256: the letters,
    the digits and the underscore. *)
Definition is_word (c : ascii) : bool :=
  let n := nat_of_ascii c in
  ((48 <=? n) && (n <=? 57) || (65 <=? n) && (n <=? 90) || (n =? 95)
   || (97 <=? n) && (n <=? 122)
   || (n =? 170) || (n =? 178) || (n =? 179) || (n =? 181) || (n =? 185) || (n =? 186)
   || (188 <=? n) && (n <=? 190)
   || (192 <=? n) && (n <=? 214) || (216 <=? n) && (n <=? 246) || (248 <=? n))%nat.

(** The small form of an ASCII letter. *)
Definition ascii_lower (c : ascii) : ascii :=
  let n := nat_of_ascii c in
  if ((65 <=? n) && (n <=? 90))%nat then ascii_of_nat (n + 32) else c.

(** One letter of a pattern under [(?i)] against a character of the
    text; the patterns here are words of ASCII letters, which have no
    other case variant. *)
Definition same_letter (a b : ascii) : bool :=
  Ascii.eqb (ascii_lower a) (ascii_lower b).

(** [w] is [word] up to the case of its letters. *)
Fixpoint same_letters (word w : string) : bool :=
  match word, w with
  | EmptyString, EmptyString => true
  | String a word', String b w' => same_letter a b && same_letters word' w'
  | _, _ => false
  end.

Definition is_word_at (c : option ascii) : bool :=
  match c with Some c => is_word c | None => false end.

(** [\b] between the characters [prev] and [next], either of which is
    missing at an end of the text. *)
Definition boundary (prev next : option ascii) : bool :=
  xorb (is_word_at prev) (is_word_at next).

Definition first_char (s : string) : option ascii :=
  match s with String c _ => Some c | EmptyString => None end.

(** The last character of [w], or [prev] when [w] is empty. *)
Fixpoint last_or (prev : option ascii) (w : string) : option ascii :=
  match w with
  | EmptyString => prev
  | String c w' => last_or (Some c) w'
  end.

(** The letters of [word] at the start of [s], whatever their case: the
    last character taken ([prev] if none was) and the rest of [s]. *)
Fixpoint literal_ignorecase (word s : string) (prev : option ascii) :
    option (option ascii * string) :=
  match word with
  | EmptyString => Some (prev, s)
  | String a word' =>
      match s with
      | String b s' =>
          if same_letter a b then literal_ignorecase word' s' (Some b) else None
      | EmptyString => None
      end
  end.

(** [\bWORD\b] at the start of [s], which [prev] precedes. *)
Definition word_here (word : string) (prev : option ascii) (s : string) : bool :=
  boundary prev (first_char s)
  && match literal_ignorecase word s prev with
     | Some (last, rest) => boundary last (first_char rest)
     | None => false
     end.

Fixpoint find_word_from (word : string) (prev : option ascii) (s : string) : bool :=
  word_here word prev s
  || match s with
     | String c s' => find_word_from word (Some c) s'
     | EmptyString => false
     end.

(** [re.compile(r"(?i)\bWORD\b").search(s)], as the condition of an
    [if]: whether there is a match. *)
Definition find_word (word s : string) : bool := find_word_from word None s.

(** [s] names [word]: it has the letters of [word], whatever their
    case, with no character of [\w] right before or right after them. *)
Definition named (word s : string) : Prop :=
  exists a w b,
    s = a +:+ w +:+ b /\ same_letters word w = true
    /\ ends_in is_word a = false /\ starts_in is_word b = false.

Definition find_ruby : string -> bool := find_word "RUBY".
Definition find_java : string -> bool := find_word "JAVA".
Definition find_python : string -> bool := find_word "PYTHON".

(** ** The other handlers and the dispatch *)

(** [gdgajubot.util.HandlerHelper]: the call of the handler that was
    registered for a command. *)
Class HandlerHelper := {
  handle_command : string -> message -> M unit;
}.

(** A message as the update listener gets it: what it carries, and the
    fields the handlers read. *)
Record incoming : Type := Incoming {
  content_type : string;
  inc_message : message;
}.

Section Handlers.
Context `{Util} `{Net} `{Config} `{HandlerHelper}.

(** [bot.send_message(chat_id, text)] *)
Definition plain_send (m : message) (text : string) : send :=
  SendMessage (chat_id (msg_chat m)) text None [].

(** [send_welcome(message)], the handler of [/start] and [/help]. *)
Definition send_welcome (m : message) : M unit :=
  logging_info "/start";;
  reply_to m ("Este bot faz buscas no Meetup do " +:+ group_name) [];;
  mret tt.

(** [changelog(message)], the handler of [/changelog]. *)
Definition changelog (m : message) : M unit :=
  logging_info (percent_s (from_username m) +:+ ": " +:+ "/changelog");;
  send_message
    (plain_send m "https://github.com/GDGAracaju/GDGAjuBot/blob/master/CHANGELOG.md");;
  mret tt.

(** [love_ruby(message)]: the user name is joined to the text with [+],
    which raises when there is none. *)
Definition love_ruby (m : message) : M unit :=
  logging_info (percent_s (from_username m) +:+ ": " +:+ "ruby");;
  match from_username m with
  | Some username => send_message (plain_send m (username +:+ " ama Ruby <3"));; mret tt
  | None => lift (inl TypeError)
  end.

(** [memory_java(message)] *)
Definition memory_java (m : message) : M unit :=
  logging_info (percent_s (from_username m) +:+ ": " +:+ "java");;
  send_message (plain_send m "Ihh... acabou a RAM");;
  mret tt.

(** [easter_python(message)] *)
Definition easter_python (m : message) : M unit :=
  logging_info (percent_s (from_username m) +:+ ": " +:+ "python");;
  send_message (plain_send m "import antigravity");;
  mret tt.

(** [if command:] on what [extract_command] returned. *)
Definition is_command (command : option string) : bool :=
  match command with
  | Some (String _ _) => true
  | _ => false
  end.

(** The easter egg a text without command sets off, if any. *)
Definition easter_egg (m : message) : M unit :=
  if find_ruby (msg_text m) then love_ruby m
  else if find_java (msg_text m) then memory_java m
  else if find_python (msg_text m) then easter_python m
  else mret tt.

(** The body of the loop of [handle_messages]. *)
Definition handle_message (u : incoming) : M unit :=
  if String.eqb (content_type u) "text" then
    let command := extract_command (msg_text (inc_message u)) in
    if is_command command then handle_command (default EmptyString command) (inc_message u)
    else easter_egg (inc_message u)
  else mret tt.

(** [handle_messages(messages)] *)
Fixpoint handle_messages (messages : list incoming) : M unit :=
  match messages with
  | [] => mret tt
  | u :: rest => handle_message u;; handle_messages rest
  end.

(** A message that sets off no command. *)
Definition no_command (u : incoming) : Prop :=
  is_command (extract_command (msg_text (inc_message u))) = false.

(** What a handler may do that only answers: the clock moves, the log
    grows and [n] more messages at most are sent; the cache, the heap
    and the requests stay as they are. *)
Definition only_sent (n : nat) (w w' : world) : Prop :=
  cache w' = cache w /\ heap w' = heap w /\ requests w' = requests w
  /\ exists sends, outbox w' = outbox w ++ sends /\ (length sends <= n)%nat.

End Handlers.

(** ** [main]: the configuration *)

(** What [parser.parse_args()] returns for the parser of [main]. *)
Record namespace : Type := Namespace {
  ns_telegram_token : option string;
  ns_meetup_key : option string;
  ns_group_name : option string;
  ns_dev : bool;
}.

(** [vars(namespace).items()] *)
Definition vars (ns : namespace) : list (string * option pyval) :=
  [ ("telegram_token", VStr <$> ns_telegram_token ns);
    ("meetup_key", VStr <$> ns_meetup_key ns);
    ("group_name", VStr <$> ns_group_name ns);
    ("dev", Some (VBool (ns_dev ns))) ].

(** The capital form of an ASCII letter, and [str.upper] on a text of
    ASCII characters. *)
Definition ascii_upper (c : ascii) : ascii :=
  let n := nat_of_ascii c in
  if ((97 <=? n) && (n <=? 122))%nat then ascii_of_nat (n - 32) else c.

Fixpoint upper (s : string) : string :=
  match s with
  | EmptyString => EmptyString
  | String c s' => String (ascii_upper c) (upper s')
  end.

(** The truth value of an object. *)
Definition truth (v : option pyval) : bool :=
  match v with
  | None => false
  | Some (VStr s) => negb (String.eqb s EmptyString)
  | Some (VInt n) => negb (n =? 0)%Z
  | Some (VBool b) => b
  end.

(** [v or os.environ.get(k.upper(), '')] *)
Definition or_environ (environ : gmap string string) (k : string) (v : option pyval) : pyval :=
  match v with
  | Some x => if truth v then x else VStr (default EmptyString (environ !! upper k))
  | None => VStr (default EmptyString (environ !! upper k))
  end.

(** The dictionary [_config]. *)
Definition mount_config (ns : namespace) (environ : gmap string string) : gmap string pyval :=
  list_to_map ((fun kv => (kv.1, or_environ environ kv.1 kv.2)) <$> vars ns).

(** The required actions of the parser: the [dest] of each and the name
    [argparse._get_action_name] gives it. *)
Definition required_actions : list (string * string) :=
  [ ("telegram_token", "-t/--telegram_token");
    ("meetup_key", "-m/--meetup_key");
    ("group_name", "-g/--group_name") ].

Definition missing_args (_config : gmap string pyval) : list string :=
  snd <$> filter (fun a => truth (_config !! a.1) = false) required_actions.

(** ["...%s" % v] for the values of the configuration. *)
Definition percent_s_val (v : option pyval) : string :=
  match v with
  | Some (VStr s) => s
  | Some (VInt n) => str_of_int n
  | Some (VBool true) => "True"
  | Some (VBool false) => "False"
  | None => "None"
  end.

(** The value of a required argument on the command line. *)
Definition argument (ns : namespace) (dest : string) : option string :=
  if String.eqb dest "telegram_token" then ns_telegram_token ns
  else if String.eqb dest "meetup_key" then ns_meetup_key ns
  else if String.eqb dest "group_name" then ns_group_name ns
  else None.

(** A required argument is given: on the command line, or else in the
    environment, and not as an empty text. *)
Definition given (ns : namespace) (environ : gmap string string) (dest : string) : Prop :=
  (exists v, argument ns dest = Some v /\ v <> EmptyString)
  \/ (exists v, environ !! upper dest = Some v /\ v <> EmptyString).

(** How [main] goes on once the arguments are parsed: [parser.error]
    ends the process with status 2 and its message, or the bot is
    started with the configuration. *)
Inductive main_outcome : Type :=
| ParserError (message : string)
| Started (_config : gmap string pyval).

(** [main()] from [# Mounting config] on: what it logs and how it goes
    on. (The first entry of the log was written before the arguments were
    parsed.) *)
Definition main (ns : namespace) (environ : gmap string string) :
    list string * main_outcome :=
  let configuring := "Configurando par" +:+ String "226" "metros" in
  let _config := mount_config ns environ in
  match missing_args _config with
  | [] =>
      ([configuring; "Iniciando bot"]
       ++ (if truth (_config !! "dev") then
             [ "Dev mode activated.";
               "Usando telegram_token=" +:+ percent_s_val (_config !! "telegram_token");
               "Usando meetup_key=" +:+ percent_s_val (_config !! "meetup_key") ]
           else []),
       Started _config)
  | missing => ([configuring], ParserError ("missing arguments: " +:+ join ", " missing))
  end.

(** ** Sample instances

    One concrete choice for each interface, on which the statements
    below are instantiated: a command extractor, a small HTML parser
    with the selectors the extractor uses, a codec, a network, and the
    pages, chats and messages of the examples. *)

Module Sample.

(** *** [util] *)

(** The text up to the first blank or [@]. *)
Fixpoint first_token (s : string) : string :=
  match s with
  | String c s' =>
      if isspace c || Ascii.eqb c "@" then EmptyString else String c (first_token s')
  | EmptyString => EmptyString
  end.

(** A command extractor: the command a text starts with, without its
    slash; [None] for a text that is not a command. The zone is UTC-3. *)
Definition util : Util := {|
  extract_command := fun text =>
    match text with
    | String "/" rest => Some (first_token rest)
    | _ => None
    end;
  AJU_TZ := -10800;
|}.

(** *** A parser for well-formed markup *)

#[warnings="-register-all"]
Inductive node : Type :=
| Text (s : string)
| Element (name : string) (attributes : list (string * string)) (children : list node).

Inductive token : Type :=
| TOpen (name : string) (attributes : list (string * string)) (closed : bool)
| TClose (name : string)
| TData (s : string).

(** [s] cut in front of its first character that satisfies [p]. *)
Fixpoint break (p : ascii -> bool) (s : string) : string * string :=
  match s with
  | EmptyString => (EmptyString, EmptyString)
  | String c s' =>
      if p c then (EmptyString, s)
      else let (a, b) := break p s' in (String c a, b)
  end.

Definition tail (s : string) : string :=
  match s with String _ s' => s' | EmptyString => EmptyString end.

Fixpoint last_is (c : ascii) (s : string) : bool :=
  match s with
  | EmptyString => false
  | String a EmptyString => Ascii.eqb a c
  | String _ s' => last_is c s'
  end.

(** The [name="value"] pairs of a start tag. *)
Fixpoint tag_attributes (fuel : nat) (s : string) : list (string * string) :=
  match fuel with
  | O => []
  | S fuel =>
      match lstrip s with
      | EmptyString => []
      | String "/" _ => []
      | t =>
          let (name, rest) := break (Ascii.eqb "=") t in
          let (value, rest) := break (Ascii.eqb DQUOTE) (tail (tail rest)) in
          (name, value) :: tag_attributes fuel (tail rest)
      end
  end.

(** The token for the text between [<] and [>]. *)
Definition tag_token (inside : string) : token :=
  match inside with
  | String "/" name => TClose (strip name)
  | _ =>
      let (name, rest) := break (fun c => isspace c || Ascii.eqb c "/") inside in
      TOpen name (tag_attributes (String.length rest) rest) (last_is "/" rest)
  end.

Fixpoint tokens (fuel : nat) (s : string) : list token :=
  match fuel with
  | O => []
  | S fuel =>
      match s with
      | EmptyString => []
      | String "<" rest =>
          let (inside, after) := break (Ascii.eqb ">") rest in
          tag_token inside :: tokens fuel (tail after)
      | _ =>
          let (data, after) := break (Ascii.eqb "<") s in
          TData data :: tokens fuel after
      end
  end.

(** An element that is still open, with the children it has so far,
    newest first. *)
Definition frame : Type := (string * list (string * string) * list node)%type.

Definition add_child (n : node) (stack : list frame) : list frame :=
  match stack with
  | (name, attributes, children) :: up => (name, attributes, n :: children) :: up
  | [] => []
  end.

Definition close (stack : list frame) : list frame :=
  match stack with
  | (name, attributes, children) :: (_ :: _) as up =>
      add_child (Element name attributes (rev children)) up
  | _ => stack
  end.

Fixpoint build (ts : list token) (stack : list frame) : list frame :=
  match ts with
  | [] => stack
  | TData s :: ts => build ts (add_child (Text s) stack)
  | TOpen name attributes true :: ts => build ts (add_child (Element name attributes []) stack)
  | TOpen name attributes false :: ts => build ts ((name, attributes, []) :: stack)
  | TClose _ :: ts => build ts (close stack)
  end.

Fixpoint close_all (fuel : nat) (stack : list frame) : list frame :=
  match fuel with
  | O => stack
  | S fuel => close_all fuel (close stack)
  end.

Definition parse (s : string) : node :=
  let stack := build (tokens (String.length s) s) [("[document]", [], [])] in
  match close_all (length stack) stack with
  | (name, attributes, children) :: _ => Element name attributes (rev children)
  | [] => Element "[document]" [] []
  end.

(** *** Selectors *)

(** What a selector looks at in an element: its name, its attributes and
    its rank among the siblings of the same name. *)
Definition info : Type := (string * list (string * string) * nat)%type.

(** A compound selector: [name#id.class:nth-of-type(n)], each part
    optional. *)
Record compound : Type := Compound {
  sel_name : option string;
  sel_id : option string;
  sel_class : option string;
  sel_nth : option nat;
}.

Definition is_delimiter (c : ascii) : bool :=
  Ascii.eqb c "#" || Ascii.eqb c "." || Ascii.eqb c ":".

Fixpoint compound_parts (fuel : nat) (s : string) (c : compound) : compound :=
  match fuel with
  | O => c
  | S fuel =>
      match s with
      | String "#" r =>
          let (v, rest) := break is_delimiter r in
          compound_parts fuel rest (Compound (sel_name c) (Some v) (sel_class c) (sel_nth c))
      | String "." r =>
          let (v, rest) := break is_delimiter r in
          compound_parts fuel rest (Compound (sel_name c) (sel_id c) (Some v) (sel_nth c))
      | String ":" r =>
          let (v, rest) := break is_delimiter r in
          let nth :=
            match Re.strip_prefix "nth-of-type(" v with
            | Some arg =>
                match int (fst (break (Ascii.eqb ")") arg)) with
                | inr n => Some (Z.to_nat n)
                | inl _ => None
                end
            | None => None
            end in
          compound_parts fuel rest (Compound (sel_name c) (sel_id c) (sel_class c) nth)
      | _ => c
      end
  end.

Definition parse_compound (s : string) : compound :=
  let (name, rest) := break is_delimiter s in
  compound_parts (String.length rest) rest
    (Compound (if String.eqb name EmptyString then None else Some name) None None None).

(** The words of [s], which blanks separate. *)
Fixpoint words (fuel : nat) (s : string) : list string :=
  match fuel with
  | O => []
  | S fuel =>
      match lstrip s with
      | EmptyString => []
      | t => let (word, rest) := break isspace t in word :: words fuel rest
      end
  end.

(** A selector: compound selectors with the descendant combinator
    between them, outermost first. *)
Definition parse_selector (s : string) : list compound :=
  parse_compound <$> words (String.length s) s.

Definition attribute (name : string) (attributes : list (string * string)) : option string :=
  snd <$> find (fun kv => String.eqb (fst kv) name) attributes.

Definition agrees {A : Type} (eqb : A -> A -> bool) (wanted : option A) (found : A) : bool :=
  match wanted with Some x => eqb x found | None => true end.

Definition matches (c : compound) (i : info) : bool :=
  let '(name, attributes, rank) := i in
  agrees String.eqb (sel_name c) name
  && match sel_id c with
     | Some id => bool_decide (attribute "id" attributes = Some id)
     | None => true
     end
  && match sel_class c with
     | Some cls =>
         match attribute "class" attributes with
         | Some v => existsb (String.eqb cls) (words (String.length v) v)
         | None => false
         end
     | None => true
     end
  && agrees Nat.eqb (sel_nth c) rank.

(** Whether the compounds [cs] match, in order, some of the ancestors
    [chain], outermost first. *)
Fixpoint ancestors_match (chain : list info) (cs : list compound) : bool :=
  match cs with
  | [] => true
  | c :: cs' =>
      match chain with
      | [] => false
      | a :: chain' =>
          if matches c a then ancestors_match chain' cs' else ancestors_match chain' cs
      end
  end.

(** A tag: an element of the tree with its ancestors, outermost first. *)
Record tag : Type := Tag_ {
  tag_chain : list info;
  tag_info : info;
  tag_node : node;
}.

Definition node_name (n : node) : string :=
  match n with Element name _ _ => name | Text _ => EmptyString end.

(** The first element, in document order, among [n] (when [self] is
    set) and its descendants, that the selector matches; [chain] are the
    ancestors of [n] and [rank] its rank among its siblings. *)
Fixpoint first_match (outer : list compound) (last : compound) (self : bool)
    (chain : list info) (rank : nat) (n : node) : option tag :=
  match n with
  | Text _ => None
  | Element name attributes children =>
      let me : info := (name, attributes, rank) in
      if self && matches last me && ancestors_match chain outer
      then Some (Tag_ chain me n)
      else
        (fix among (children : list node) (seen : list string) : option tag :=
           match children with
           | [] => None
           | c :: children' =>
               let rank := S (count_occ string_dec seen (node_name c)) in
               match first_match outer last true (chain ++ [me]) rank c with
               | Some t => Some t
               | None => among children' (node_name c :: seen)
               end
           end) children []
  end.

Definition tag_select_one (t : tag) (selector : string) : option tag :=
  match rev (parse_selector selector) with
  | last :: outer =>
      first_match (rev outer) last false (tag_chain t) (snd (tag_info t)) (tag_node t)
  | [] => None
  end.

(** The text inside a node. *)
Fixpoint node_text (n : node) : string :=
  match n with
  | Text s => s
  | Element _ _ children =>
      (fix all (children : list node) : string :=
         match children with
         | [] => EmptyString
         | c :: children' => node_text c +:+ all children'
         end) children
  end.

Definition bs4 : Bs4 := {|
  Tag := tag;
  BeautifulSoup := fun content => Tag_ [] ("[document]", [], 1%nat) (parse content);
  select_one := tag_select_one;
  attrs := fun t => list_to_map (snd (fst (tag_info t)));
  text := fun t => node_text (tag_node t);
|}.

(** *** Codec, network, configuration *)

(** ASCII data decode to themselves under UTF-8. *)
Definition codecs : Codecs := {|
  decode := fun b enc =>
    if String.eqb enc "utf-8" && forallb (fun x => Byte.to_nat x <? 128)%nat b
    then inr (string_of_list_byte b)
    else inl (Raise "UnicodeDecodeError");
|}.

Definition config : Config := {|
  group_name := "GDG-Aracaju";
  meetup_key := "0123456789abcdef";
  sourcefile := "/srv/gdgajubot/gdgajubot.py";
|}.

(** The page of the offer: the widget with its countdown and title. *)
Definition example_page : string :=
  "<html><body><div id=" +:+ quoted "deal-of-the-day" +:+ " class=" +:+ quoted "cf" +:+ ">"
  +:+ "<div class=" +:+ quoted "dotd-main-book cf" +:+ ">"
  +:+ "<div class=" +:+ quoted "section-inner" +:+ ">"
  +:+ "<div class=" +:+ quoted "dotd-main-book-image float-left" +:+ ">"
  +:+ "<a href=" +:+ quoted "/book" +:+ "><img src=" +:+ quoted "cover.jpg" +:+ "/></a></div>"
  +:+ "<div class=" +:+ quoted "dotd-main-book-summary float-left" +:+ ">"
  +:+ "<div class=" +:+ quoted "eighteen-days-countdown-bar" +:+ ">Time is running out"
  +:+ "<span class=" +:+ quoted "packt-js-countdown"
  +:+ " data-countdown-to=" +:+ quoted "1700000000" +:+ "></span></div>"
  +:+ "<div class=" +:+ quoted "dotd-title" +:+ "><h2>"
  +:+ String LF "   Example Book  " +:+ String LF "</h2></div>"
  +:+ "</div></div></div></div></body></html>".

(** The same widget inside one more wrapper and with the attributes of
    the countdown in the other order: the pattern does not match, the
    structural path is still there. *)
Definition wrapped_page : string :=
  "<html><body><section class=" +:+ quoted "offer" +:+ ">"
  +:+ "<div id=" +:+ quoted "deal-of-the-day" +:+ " class=" +:+ quoted "cf" +:+ ">"
  +:+ "<div class=" +:+ quoted "dotd-main-book cf" +:+ ">"
  +:+ "<div class=" +:+ quoted "section-inner" +:+ ">"
  +:+ "<div class=" +:+ quoted "dotd-main-book-image float-left" +:+ ">"
  +:+ "<a href=" +:+ quoted "/book" +:+ "><img src=" +:+ quoted "cover.jpg" +:+ "/></a></div>"
  +:+ "<div class=" +:+ quoted "dotd-main-book-summary float-left" +:+ ">"
  +:+ "<div class=" +:+ quoted "eighteen-days-countdown-bar" +:+ ">Time is running out"
  +:+ "<span data-countdown-to=" +:+ quoted "1700000000"
  +:+ " class=" +:+ quoted "packt-js-countdown" +:+ "></span></div>"
  +:+ "<div class=" +:+ quoted "dotd-title" +:+ "><h2>"
  +:+ String LF "   Example Book  " +:+ String LF "</h2></div>"
  +:+ "</div></div></div></div></section></body></html>".

(** A page without the widget. *)
Definition plain_page : string :=
  "<html><body><h1>Free Learning</h1><p>Come back tomorrow.</p></body></html>".

Definition sample_events : list event :=
  [ Event "Android Study Jam" "https://www.meetup.com/GDG-Aracaju/events/1/"
          (TInt 1700000000000);
    Event "DevFest" "https://www.meetup.com/GDG-Aracaju/events/2/"
          (TInt 1702000000000) ].

(** A network that answers every request in half a second: Meetup with
    two events, Packt with the page of the offer, and Telegram with
    message ids counted from 1000. *)
Definition net : Net := {|
  requests_get := fun n req =>
    (1 # 2,
     if String.eqb (url req) "https://www.packtpub.com/packt/offers/free-learning"
     then inr (Response (list_byte_of_string example_page) (Some "utf-8") (inl ValueError))
     else inr (Response [] (Some "utf-8") (inr sample_events)));
  telegram := fun n s => (1 # 2, inr (1000 + Z.of_nat n));
|}.

(** The same network when Telegram refuses the first message. *)
Definition flaky_net : Net := {|
  requests_get := @requests_get net;
  telegram := fun n s =>
    match n with
    | O => (1 # 2, inl (Raise "ApiException"))
    | S _ => (1 # 2, inr (1000 + Z.of_nat n))
    end;
|}.

(** A network without a route to Meetup and Packt. *)
Definition offline_net : Net := {|
  requests_get := fun n req => (3 # 1, inl (Raise "ConnectionError"));
  telegram := @telegram net;
|}.

(** The world at start-up. *)
Definition fresh : world := World 0 ∅ [] [] [] [].

Definition group_chat : chat := Chat (-1001) "group".
Definition private_chat : chat := Chat 42 "private".

Definition ask (id : Z) (c : chat) (text : string) : message :=
  Message id c text (Some "ana").


(** A second group. *)
Definition other_group : chat := Chat (-1002) "supergroup".

(** A message from a user without a user name. *)
Definition anonymous (id : Z) (c : chat) (text : string) : message :=
  Message id c text None.

(** The widget with a countdown in milliseconds. *)
Definition late_page : string :=
  "<div id=" +:+ quoted "deal-of-the-day" +:+ "><div><div><div></div><div>"
  +:+ "<span class=" +:+ quoted "packt-js-countdown"
  +:+ " data-countdown-to=" +:+ quoted "1700000000000" +:+ "></span>"
  +:+ "<h2> Example Book </h2></div></div></div></div>".

(** The sample network when Packt serves that page. *)
Definition late_net : Net := {|
  requests_get := fun n req =>
    (1 # 2, inr (Response (list_byte_of_string late_page) (Some "utf-8") (inl ValueError)));
  telegram := @telegram net;
|}.

(** The handlers by the command each one was registered for. *)
Definition handler : HandlerHelper := {|
  handle_command := fun command m =>
    if String.eqb command "start" || String.eqb command "help"
    then @send_welcome net config m
    else if String.eqb command "events" then @list_upcoming_events util net config m
    else if String.eqb command "book"
    then @packtpub_free_learning util bs4 codecs net config m None
    else if String.eqb command "changelog" then @changelog net m
    else mret tt;
|}.

(** A batch without commands: a picture, a text that names two of the
    languages, and a text that names none. *)
Definition chatter : list incoming :=
  [ Incoming "photo" (ask 81 group_chat EmptyString);
    Incoming "text" (ask 82 group_chat "Java or Python?");
    Incoming "text" (ask 83 group_chat "rubyists unite") ].

(** A command line with the three arguments and [--no-dev], and an
    environment with [DEV=0]. *)
Definition command_line : namespace :=
  Namespace (Some "123456:ABC-DEF") (Some "0a1b2c3d") (Some "GDG-Aracaju") false.

Definition environment : gmap string string := {[ "DEV" := "0" ]}.

(** The sample network when Telegram refuses every message. *)
Definition refusing_net : Net := {|
  requests_get := @requests_get net;
  telegram := fun n s => (1 # 2, inl (Raise "ApiException"));
|}.

(** The page of the example, cut where the pattern looks. *)
Definition example_offer : offer_page := {|
  op_before := "<html><body><div id=";
  op_in_widget := " class=" +:+ quoted "cf" +:+ ">";
  op_div1 := " ";
  op_in_div1 := "class=" +:+ quoted "dotd-main-book cf" +:+ ">";
  op_div2 := " ";
  op_in_div2 := "class=" +:+ quoted "section-inner" +:+ ">";
  op_div3 := " ";
  op_in_div3 := "class=" +:+ quoted "dotd-main-book-image float-left" +:+ ">"
                +:+ "<a href=" +:+ quoted "/book" +:+ "><img src=" +:+ quoted "cover.jpg"
                +:+ "/></a>";
  op_after_div3 := EmptyString;
  op_div4 := " ";
  op_in_div4 := "class=" +:+ quoted "dotd-main-book-summary float-left" +:+ ">"
                +:+ "<div class=" +:+ quoted "eighteen-days-countdown-bar"
                +:+ ">Time is running out";
  op_countdown := "1700000000";
  op_to_heading := "</div><div class=" +:+ quoted "dotd-title" +:+ ">";
  op_h2 := ">";
  op_blank := String LF "   ";
  op_text := "Example Book";
  op_trail := "  " +:+ String LF EmptyString;
  op_after := "</div></div></div></div></div></body></html>";
|}.

(** The same page when the heading has a class: what follows [<h2] and
    its blank is then the attribute. *)
Definition attribute_offer : offer_page := {|
  op_before := op_before example_offer;
  op_in_widget := op_in_widget example_offer;
  op_div1 := op_div1 example_offer;
  op_in_div1 := op_in_div1 example_offer;
  op_div2 := op_div2 example_offer;
  op_in_div2 := op_in_div2 example_offer;
  op_div3 := op_div3 example_offer;
  op_in_div3 := op_in_div3 example_offer;
  op_after_div3 := op_after_div3 example_offer;
  op_div4 := op_div4 example_offer;
  op_in_div4 := op_in_div4 example_offer;
  op_countdown := op_countdown example_offer;
  op_to_heading := op_to_heading example_offer;
  op_h2 := " ";
  op_blank := EmptyString;
  op_text := "class=" +:+ quoted "title" +:+ ">" +:+ String LF "   Example Book";
  op_trail := op_trail example_offer;
  op_after := op_after example_offer;
|}.

(** The text of that page. *)
Definition attribute_page : string := markup attribute_offer.
End Sample.

(** * Properties *)

(** ** The countdown warning of [_book_response] *)

Section BookResponseFacts.
Context `{Util}.

Lemma Qle_bool_false (x y : Q) : Qle_bool x y = false <-> (y < x)%Q.
Proof.
  split.
  - intros E. apply Qnot_le_lt. intros L. apply Qle_bool_iff in L. congruence.
  - intros L. destruct (Qle_bool x y) eqn:E; [|reflexivity].
    apply Qle_bool_iff in E. exfalso. apply (Qlt_not_le _ _ L E).
Qed.

Ltac in_timeleft :=
  unfold timeleft; cbn [In]; repeat (first [left; reflexivity | right]).

(** The warning names the smallest configured bound that is not below
    the seconds left. *)
Lemma book_warning_smallest response seconds num in_words :
  In (num, in_words) timeleft ->
  (seconds <= inject_Z num)%Q ->
  (forall n w, In (n, w) timeleft -> (seconds <= inject_Z n)%Q -> (num <= n)%Z) ->
  book_warning response seconds timeleft = response +:+ warning in_words.
Proof.
  intros Hin Hle Hmin.
  assert (Hmin' : forall n w, In (n, w) timeleft ->
                              Qle_bool seconds (inject_Z n) = true -> (num <= n)%Z).
  { intros n w Hn E. apply (Hmin n w Hn). now apply Qle_bool_iff. }
  apply Qle_bool_iff in Hle. clear Hmin.
  unfold timeleft in *. cbn [In] in Hin. cbn [book_warning].
  destruct Hin as [E|[E|[E|[E|[E|[]]]]]]; inversion E; subst; clear E;
    repeat match goal with
    | |- context [Qle_bool seconds (inject_Z ?n)] =>
        let E := fresh "E" in
        destruct (Qle_bool seconds (inject_Z n)) eqn:E;
        [ first [ reflexivity
                | exfalso;
                  assert (_ <= n)%Z by (eapply Hmin'; [in_timeleft | exact E]);
                  lia ]
        | ]
    end; congruence.
Qed.

(** Past the last bound there is no warning. *)
Lemma book_warning_none response seconds :
  (3600 < seconds)%Q ->
  book_warning response seconds timeleft = response.
Proof.
  intros Hlt. unfold timeleft. cbn [book_warning].
  repeat match goal with
  | |- context [Qle_bool seconds (inject_Z ?n)] =>
      let E := fresh "E" in
      destruct (Qle_bool seconds (inject_Z n)) eqn:E;
      [ exfalso; apply Qle_bool_iff in E; unfold inject_Z in E; lra | ]
  end.
  reflexivity.
Qed.

Lemma fromtimestamp_inr tz us dt : fromtimestamp tz us = inr dt -> dt = us.
Proof.
  unfold fromtimestamp. intros E.
  destruct (negb (in_range us)); [discriminate|].
  destruct (negb (in_range (us + tz * 1000000))); [discriminate|].
  congruence.
Qed.

(** C1, as the code has it: the warning of [_book_response] names the
    smallest bound of [timeleft] that is not below the seconds left. With
    45 seconds left that is "1 minuto" (30 is below 45); for an offer
    that has expired it is "30 segundos"; with more than an hour left
    there is no warning. *)
Theorem book_response_countdown_tier
    (today : datetime) (book : string) (expires : Z) (now : option datetime) :
  (exists dt, fromtimestamp AJU_TZ (expires * 1000000) = inr dt) ->
  let seconds := total_seconds (sub (expires * 1000000) (default today now)) in
  let response := _book_response today book expires now in
  (forall num in_words,
      In (num, in_words) timeleft ->
      (seconds <= inject_Z num)%Q ->
      (forall n w, In (n, w) timeleft -> (seconds <= inject_Z n)%Q -> (num <= n)%Z) ->
      response = inr (book_intro book +:+ warning in_words))
  /\ (seconds == 45 -> response = inr (book_intro book +:+ warning "1 minuto"))%Q
  /\ (seconds < 0 -> response = inr (book_intro book +:+ warning "30 segundos"))%Q
  /\ (3600 < seconds -> response = inr (book_intro book))%Q.
Proof.
  intros [dt Hdt] seconds response.
  assert (Hresp : response
                  = inr (book_warning (book_intro book) seconds timeleft)).
  { unfold response, _book_response. rewrite Hdt.
    apply fromtimestamp_inr in Hdt. subst dt.
    unfold seconds. destruct now; reflexivity. }
  rewrite Hresp. clear Hresp response.
  assert (Hsmall : forall num in_words,
             In (num, in_words) timeleft ->
             (seconds <= inject_Z num)%Q ->
             (forall n w, In (n, w) timeleft -> (seconds <= inject_Z n)%Q -> (num <= n)%Z) ->
             inr (B:=string) (A:=exn) (book_warning (book_intro book) seconds timeleft)
             = inr (book_intro book +:+ warning in_words)).
  { intros num in_words Hin Hle Hmin. f_equal.
    now apply (book_warning_smallest _ _ num). }
  split; [exact Hsmall|]. split; [|split].
  - intros E. apply (Hsmall 60%Z "1 minuto"); [in_timeleft | rewrite E; unfold inject_Z; lra |].
    intros n w Hin Hle. rewrite E in Hle.
    unfold timeleft in Hin. cbn [In] in Hin.
    destruct Hin as [X|[X|[X|[X|[X|[]]]]]]; inversion X; subst; try lia.
    exfalso. unfold inject_Z in Hle. lra.
  - intros Hneg. apply (Hsmall 30%Z "30 segundos"); [in_timeleft | unfold inject_Z; lra |].
    intros n w Hin _.
    unfold timeleft in Hin. cbn [In] in Hin.
    destruct Hin as [X|[X|[X|[X|[X|[]]]]]]; inversion X; subst; lia.
  - intros Hgt. f_equal. now apply book_warning_none.
Qed.

End BookResponseFacts.

(** C1, as the claim words it, fails: with 45 seconds left the warning
    is not the one of the "30 segundos" tier. *)
Lemma book_response_45_seconds_not_30_segundos :
  @_book_response Sample.util 0 "Example Book" 1700000045
      (Some (1700000000 * 1000000))
  <> inr (book_intro "Example Book" +:+ warning "30 segundos").
Proof. vm_compute. intros E. discriminate E. Qed.

Lemma book_response_countdown_tier_witness :
  (exists dt, fromtimestamp (@AJU_TZ Sample.util) (1700000045 * 1000000) = inr dt)
  /\ Qeq (total_seconds (sub (1700000045 * 1000000) (1700000000 * 1000000))) 45%Q
  /\ @_book_response Sample.util 0 "Example Book" 1700000045
        (Some (1700000000 * 1000000))
     = inr (book_intro "Example Book" +:+ warning "1 minuto").
Proof.
  assert (Hdt : exists dt,
             fromtimestamp (@AJU_TZ Sample.util) (1700000045 * 1000000) = inr dt).
  { eexists. vm_compute. reflexivity. }
  assert (H45 : Qeq (total_seconds (sub (1700000045 * 1000000) (1700000000 * 1000000))) 45%Q).
  { vm_compute. reflexivity. }
  split; [exact Hdt|]. split; [exact H45|].
  exact (proj1 (proj2 (@book_response_countdown_tier Sample.util 0 "Example Book"
                         1700000045 (Some (1700000000 * 1000000)) Hdt)) H45).
Defined.

(** ** The Beaker cache *)

Section BeakerFacts.

Lemma is_expired_after (t d : Q) :
  Beaker.is_expired (t + d) t = false <-> (d < 600)%Q.
Proof.
  unfold Beaker.is_expired, Beaker.expire. rewrite Qle_bool_false. split; intros; lra.
Qed.

Lemma is_expired_now (t : Q) : Beaker.is_expired t t = false.
Proof.
  unfold Beaker.is_expired, Beaker.expire. apply Qle_bool_false. lra.
Qed.

Lemma stored_put ns key v w :
  Beaker.stored ns key (Beaker.put ns key v w).1 = Some (clock w, v).
Proof.
  unfold Beaker.stored, Beaker.put. cbn.
  rewrite lookup_insert_eq. cbn. apply lookup_insert_eq.
Qed.

Lemma stored_put_other ns key v w ns' key' :
  (ns, key) <> (ns', key') ->
  Beaker.stored ns' key' (Beaker.put ns key v w).1 = Beaker.stored ns' key' w.
Proof.
  intros Hne. unfold Beaker.stored, Beaker.put. cbn.
  destruct (decide (ns = ns')) as [->|Hns].
  - rewrite lookup_insert_eq. cbn.
    rewrite lookup_insert_ne by congruence.
    destruct (cache w !! ns'); reflexivity.
  - rewrite lookup_insert_ne by exact Hns. reflexivity.
Qed.

Lemma current_value_stored ns key w v :
  Beaker.current_value ns key w = Some v <->
  exists t, Beaker.stored ns key w = Some (t, v) /\ Beaker.is_expired (clock w) t = false.
Proof.
  unfold Beaker.current_value. destruct (Beaker.stored ns key w) as [[t v']|].
  - destruct (Beaker.is_expired (clock w) t) eqn:E; split.
    + discriminate.
    + intros (t' & [= -> ->] & E'). congruence.
    + intros [= ->]. eauto.
    + intros (t' & [= -> ->] & _). reflexivity.
  - split; [discriminate|]. intros (t & [=] & _).
Qed.

Lemma current_value_put ns key v w :
  Beaker.current_value ns key (Beaker.put ns key v w).1 = Some v.
Proof.
  apply current_value_stored. exists (clock w). split; [apply stored_put|].
  apply is_expired_now.
Qed.

(** A hit leaves the world as it is. *)
Lemma get_hit ns key createfunc w v :
  Beaker.current_value ns key w = Some v ->
  Beaker.get ns key createfunc w = (w, inr v).
Proof. unfold Beaker.get. now intros ->. Qed.

(** A miss runs [createfunc] and stores what it returns. *)
Lemma get_miss ns key createfunc w :
  Beaker.current_value ns key w = None ->
  Beaker.get ns key createfunc w =
  match createfunc w with
  | (w', inl e) => (w', inl e)
  | (w', inr v) => ((Beaker.put ns key v w').1, inr v)
  end.
Proof.
  unfold Beaker.get. intros ->. unfold mbind, M_bind, mret, M_ret.
  destruct (createfunc w) as [w' [e|v]]; reflexivity.
Qed.

End BeakerFacts.

(** ** The cases of [_smart_reply] *)

Section SmartReplyCases.
Context `{Util} `{Net}.

Lemma send_message_outcome s w t r :
  telegram (length (outbox w)) s = (t, r) ->
  send_message s w = (sent s t r w, r).
Proof. unfold send_message. now intros ->. Qed.

(** Outside groups the reply is sent and nothing else happens. *)
Lemma smart_reply_elsewhere m text kw w t r :
  ~ in_group m ->
  telegram (length (outbox w)) (real_send m text kw) = (t, r) ->
  _smart_reply m text kw w = (sent (real_send m text kw) t r w, discard r).
Proof.
  intros Hg Ht. unfold _smart_reply.
  destruct (decide _) as [Hin|_]; [contradiction|].
  unfold mbind, M_bind, reply_to. fold (real_send m text kw).
  rewrite (send_message_outcome _ _ _ _ Ht). destruct r; reflexivity.
Qed.

(** In a group, a current record with the same text: only the pointer
    is sent. *)
Lemma smart_reply_duplicate m text kw w d id t r :
  in_group m ->
  reply_record m text w = Some (ODict d) ->
  d !! "text" = Some (VStr text) ->
  d !! "message_id" = Some id ->
  telegram (length (outbox w)) (pointer_send m id) = (t, r) ->
  _smart_reply m text kw w = (sent (pointer_send m id) t r w, discard r).
Proof.
  intros Hg Hrec Htext Hid Ht. unfold _smart_reply.
  destruct (decide _) as [_|Hn]; [|contradiction].
  unfold mbind at 1. unfold M_bind at 1.
  rewrite (get_hit _ _ _ _ _ Hrec).
  destruct (decide _) as [_|Hn]; [|contradiction].
  rewrite Hid. unfold mbind, M_bind. fold (pointer_send m id).
  rewrite (send_message_outcome _ _ _ _ Ht). destruct r; reflexivity.
Qed.

Lemma smart_reply_duplicate_no_id m text kw w d :
  in_group m ->
  reply_record m text w = Some (ODict d) ->
  d !! "text" = Some (VStr text) ->
  d !! "message_id" = None ->
  _smart_reply m text kw w = (w, inl KeyError).
Proof.
  intros Hg Hrec Htext Hid. unfold _smart_reply.
  destruct (decide _) as [_|Hn]; [|contradiction].
  unfold mbind at 1. unfold M_bind at 1.
  rewrite (get_hit _ _ _ _ _ Hrec).
  destruct (decide _) as [_|Hn]; [|contradiction].
  rewrite Hid. reflexivity.
Qed.

(** In a group, a current record with another text: the reply is sent
    and, if Telegram took it, recorded. *)
Lemma smart_reply_replaces m text kw w d t r :
  in_group m ->
  reply_record m text w = Some (ODict d) ->
  d !! "text" <> Some (VStr text) ->
  telegram (length (outbox w)) (real_send m text kw) = (t, r) ->
  _smart_reply m text kw w =
  match r with
  | inl e => (sent (real_send m text kw) t r w, inl e)
  | inr id =>
      ((Beaker.put (reply_cache text) (inl (chat_id (msg_chat m)))
          (ODict (update_record text id d)) (sent (real_send m text kw) t r w)).1,
       inr tt)
  end.
Proof.
  intros Hg Hrec Htext Ht. unfold _smart_reply.
  destruct (decide _) as [_|Hn]; [|contradiction].
  unfold mbind at 1. unfold M_bind at 1.
  rewrite (get_hit _ _ _ _ _ Hrec).
  destruct (decide _) as [Heq|_]; [contradiction|].
  unfold mbind, M_bind, reply_to. fold (real_send m text kw).
  rewrite (send_message_outcome _ _ _ _ Ht). destruct r; reflexivity.
Qed.

(** In a group, no current record: an empty one is stored, then the
    reply is sent and, if Telegram took it, recorded. *)
Lemma smart_reply_first m text kw w t r :
  in_group m ->
  reply_record m text w = None ->
  telegram (length (outbox w)) (real_send m text kw) = (t, r) ->
  let w0 := (Beaker.put (reply_cache text) (inl (chat_id (msg_chat m))) (ODict ∅) w).1 in
  _smart_reply m text kw w =
  match r with
  | inl e => (sent (real_send m text kw) t r w0, inl e)
  | inr id =>
      ((Beaker.put (reply_cache text) (inl (chat_id (msg_chat m)))
          (ODict (update_record text id ∅)) (sent (real_send m text kw) t r w0)).1,
       inr tt)
  end.
Proof.
  intros Hg Hrec Ht w0. unfold _smart_reply.
  destruct (decide _) as [_|Hn]; [|contradiction].
  unfold mbind at 1. unfold M_bind at 1.
  rewrite (get_miss _ _ _ _ Hrec). cbn [mret M_ret]. fold w0.
  destruct (decide _) as [Heq|_]; [rewrite lookup_empty in Heq; discriminate|].
  unfold mbind, M_bind, reply_to. fold (real_send m text kw).
  assert (Ht0 : telegram (length (outbox w0)) (real_send m text kw) = (t, r)) by exact Ht.
  rewrite (send_message_outcome _ _ _ _ Ht0). destruct r; reflexivity.
Qed.

(** A new reply that Telegram accepts: one send, and the record holds
    the text and the id of the message that carries it. *)
Lemma smart_reply_new_accepted m text kw w t id :
  in_group m ->
  reply_is_new m text w ->
  telegram (length (outbox w)) (real_send m text kw) = (t, inr id) ->
  exists w' d0,
    _smart_reply m text kw w = (w', inr tt)
    /\ outbox w' = outbox w ++ [(real_send m text kw, inr id)]
    /\ clock w' = (clock w + t)%Q
    /\ Beaker.stored (reply_cache text) (inl (chat_id (msg_chat m))) w'
       = Some ((clock w + t)%Q, ODict (update_record text id d0)).
Proof.
  intros Hg Hnew Ht. unfold reply_is_new in Hnew.
  destruct (reply_record m text w) as [[d| |]|] eqn:Hrec; try contradiction.
  - eexists _, d. split; [apply (smart_reply_replaces _ _ _ _ _ _ _ Hg Hrec Hnew Ht)|].
    split; [reflexivity|]. split; [reflexivity|]. apply stored_put.
  - eexists _, ∅. split; [apply (smart_reply_first _ _ _ _ _ _ Hg Hrec Ht)|].
    split; [reflexivity|]. split; [reflexivity|]. apply stored_put.
Qed.

(** A new reply that Telegram refuses: the exception reaches the caller
    and the cache holds what it held, or an empty record where it held
    no current one. *)
Lemma smart_reply_new_refused m text kw w t e :
  in_group m ->
  reply_is_new m text w ->
  telegram (length (outbox w)) (real_send m text kw) = (t, inl e) ->
  exists w',
    _smart_reply m text kw w = (w', inl e)
    /\ outbox w' = outbox w ++ [(real_send m text kw, inl e)]
    /\ clock w' = (clock w + t)%Q
    /\ (cache w' = cache w
        \/ reply_record m text w = None
           /\ w' = sent (real_send m text kw) t (inl e)
                     (Beaker.put (reply_cache text) (inl (chat_id (msg_chat m)))
                        (ODict ∅) w).1).
Proof.
  intros Hg Hnew Ht. unfold reply_is_new in Hnew.
  destruct (reply_record m text w) as [[d| |]|] eqn:Hrec; try contradiction.
  - eexists. split; [apply (smart_reply_replaces _ _ _ _ _ _ _ Hg Hrec Hnew Ht)|].
    split; [reflexivity|]. split; [reflexivity|]. now left.
  - eexists. split; [apply (smart_reply_first _ _ _ _ _ _ Hg Hrec Ht)|].
    split; [reflexivity|]. split; [reflexivity|]. right. split; reflexivity.
Qed.

Lemma lookup_update_record_text text id d :
  update_record text id d !! "text" = Some (VStr text).
Proof.
  unfold update_record. rewrite lookup_insert_ne by discriminate.
  apply lookup_insert_eq.
Qed.

Lemma lookup_update_record_id text id d :
  update_record text id d !! "message_id" = Some (VInt id).
Proof. unfold update_record. apply lookup_insert_eq. Qed.

(** The record a message is looked up in depends on its chat only. *)
Lemma reply_record_chat m m' text w :
  msg_chat m' = msg_chat m -> reply_record m' text w = reply_record m text w.
Proof. unfold reply_record. now intros ->. Qed.

(** What is stored stays current for 600 seconds. *)
Lemma reply_record_after m text w t v d :
  Beaker.stored (reply_cache text) (inl (chat_id (msg_chat m))) w = Some (t, v) ->
  clock w = t ->
  (d < 600)%Q ->
  reply_record m text (advance d w) = Some v.
Proof.
  intros Hs Hc Hd. unfold reply_record. apply current_value_stored.
  exists t. split; [exact Hs|]. cbn. rewrite Hc. now apply is_expired_after.
Qed.

End SmartReplyCases.

(** ** Reply deduplication *)

Section SmartReply.
Context `{Util} `{Net}.

Lemma private_not_in_group m :
  chat_type (msg_chat m) = "private" -> ~ in_group m.
Proof.
  unfold in_group. intros -> Hin.
  apply elem_of_cons in Hin as [E|Hin]; [discriminate|].
  apply elem_of_cons in Hin as [E|Hin]; [discriminate|].
  now apply elem_of_nil in Hin.
Qed.

(** C7: in a private chat every call of [_smart_reply] is one real send
    and nothing else: the cache is neither read (the call does the same
    whatever the cache holds) nor written, and two identical calls in a
    row put two real sends, and no pointer, in the outbox. *)
Theorem smart_reply_private_always_sends
    (m : message) (text : string) (kw : kwargs) (w : world) :
  chat_type (msg_chat m) = "private" ->
  let real := real_send m text kw in
  let '(w1, r1) := _smart_reply m text kw w in
  outbox w1 = outbox w ++ [(real, (telegram (length (outbox w)) real).2)]
  /\ r1 = discard (telegram (length (outbox w)) real).2
  /\ cache w1 = cache w
  /\ (forall c, _smart_reply m text kw (set_cache c w) = (set_cache c w1, r1))
  /\ (forall d,
        outbox (_smart_reply m text kw (advance d w1)).1
        = outbox w ++ [(real, (telegram (length (outbox w)) real).2);
                       (real, (telegram (S (length (outbox w))) real).2)]).
Proof.
  intros Hp real. apply private_not_in_group in Hp.
  destruct (telegram (length (outbox w)) real) as [t r] eqn:Ht.
  rewrite (smart_reply_elsewhere _ _ _ _ _ _ Hp Ht). cbn [snd].
  split; [reflexivity|]. split; [reflexivity|]. split; [reflexivity|]. split.
  - intros c.
    assert (Ht' : telegram (length (outbox (set_cache c w))) real = (t, r)) by exact Ht.
    rewrite (smart_reply_elsewhere _ _ _ _ _ _ Hp Ht'). reflexivity.
  - intros d.
    destruct (telegram (S (length (outbox w))) real) as [t' r'] eqn:Ht'.
    assert (Ht2 : telegram (length (outbox (advance d (sent real t r w)))) real = (t', r')).
    { cbn. rewrite length_app. cbn. rewrite Nat.add_1_r. exact Ht'. }
    rewrite (smart_reply_elsewhere _ _ _ _ _ _ Hp Ht2). cbn.
    rewrite <- app_assoc. reflexivity.
Qed.

(** C8: in a group, when the current record holds the candidate text,
    the call writes nothing to the cache: text, message id and the time
    the record was stored at all stay; what it sends is the pointer to
    the recorded message. *)
Theorem smart_reply_duplicate_keeps_record
    (m : message) (text : string) (kw : kwargs) (w : world) (d : gmap string pyval) :
  in_group m ->
  reply_record m text w = Some (ODict d) ->
  d !! "text" = Some (VStr text) ->
  let w1 := (_smart_reply m text kw w).1 in
  cache w1 = cache w
  /\ (forall id, d !! "message_id" = Some id ->
        outbox w1
        = outbox w ++ [(pointer_send m id,
                        (telegram (length (outbox w)) (pointer_send m id)).2)]).
Proof.
  intros Hg Hrec Htext w1. subst w1.
  destruct (d !! "message_id") as [id|] eqn:Hid.
  - destruct (telegram (length (outbox w)) (pointer_send m id)) as [t r] eqn:Ht.
    rewrite (smart_reply_duplicate _ _ _ _ _ _ _ _ Hg Hrec Htext Hid Ht).
    split; [reflexivity|]. intros id' [= <-]. rewrite Ht. reflexivity.
  - rewrite (smart_reply_duplicate_no_id _ _ _ _ _ Hg Hrec Htext Hid).
    split; [reflexivity|]. intros id' [=].
Qed.

Lemma is_expired_mono (now now' t : Q) :
  (now <= now')%Q -> Beaker.is_expired now t = true -> Beaker.is_expired now' t = true.
Proof.
  unfold Beaker.is_expired. intros Hle E.
  apply Qle_bool_iff in E. apply Qle_bool_iff. lra.
Qed.

(** A reply that is new stays new as time passes, as long as the cache
    is not written. *)
Lemma reply_is_new_later m text w w' :
  reply_is_new m text w ->
  cache w' = cache w ->
  (clock w <= clock w')%Q ->
  reply_is_new m text w'.
Proof.
  unfold reply_is_new, reply_record, Beaker.current_value, Beaker.stored.
  intros Hnew -> Hle.
  destruct (cache w !! reply_cache text ≫= _) as [[t v]|]; [|exact I].
  destruct (Beaker.is_expired (clock w) t) eqn:E.
  - now rewrite (is_expired_mono _ _ _ Hle E).
  - destruct (Beaker.is_expired (clock w') t); [exact I|exact Hnew].
Qed.

(** A new reply is sent for real whether Telegram takes it or not. *)
Lemma smart_reply_new_outbox m text kw w :
  in_group m ->
  reply_is_new m text w ->
  outbox (_smart_reply m text kw w).1
  = outbox w ++ [(real_send m text kw,
                  (telegram (length (outbox w)) (real_send m text kw)).2)].
Proof.
  intros Hg Hnew.
  destruct (telegram (length (outbox w)) (real_send m text kw)) as [t [e|id]] eqn:Ht.
  - destruct (smart_reply_new_refused _ _ _ _ _ _ Hg Hnew Ht) as (w' & -> & Ho & _).
    exact Ho.
  - destruct (smart_reply_new_accepted _ _ _ _ _ _ Hg Hnew Ht) as (w' & d0 & -> & Ho & _).
    exact Ho.
Qed.

(** C2: in a group, from a state where no current record holds text
    [a], two calls in a row with [a] (the second less than 600 seconds
    after the first was sent) make one real send and one pointer reply
    to the message of that send; a call with another text [b] of the
    same category then makes a real send again and the record holds [b]
    and the id of its message. *)
Theorem smart_reply_twice_then_other
    (m1 m2 m3 : message) (a b : string) (kw1 kw2 kw3 : kwargs) (w : world)
    (t1 t2 t3 d1 d2 : Q) (id1 id2 id3 : Z) :
  in_group m1 -> msg_chat m2 = msg_chat m1 -> msg_chat m3 = msg_chat m1 ->
  reply_is_new m1 a w ->
  a <> b -> reply_cache b = reply_cache a ->
  telegram (length (outbox w)) (real_send m1 a kw1) = (t1, inr id1) ->
  telegram (S (length (outbox w))) (pointer_send m2 (VInt id1)) = (t2, inr id2) ->
  telegram (S (S (length (outbox w)))) (real_send m3 b kw3) = (t3, inr id3) ->
  (d1 < 600)%Q ->
  let '(w1, r1) := _smart_reply m1 a kw1 w in
  let '(w2, r2) := _smart_reply m2 a kw2 (advance d1 w1) in
  let '(w3, r3) := _smart_reply m3 b kw3 (advance d2 w2) in
  r1 = inr tt /\ r2 = inr tt /\ r3 = inr tt
  /\ outbox w3 = outbox w ++ [ (real_send m1 a kw1, inr id1);
                               (pointer_send m2 (VInt id1), inr id2);
                               (real_send m3 b kw3, inr id3) ]
  /\ (exists d, Beaker.stored (reply_cache a) (inl (chat_id (msg_chat m1))) w2
                = Some ((clock w + t1)%Q, ODict d)
                /\ d !! "text" = Some (VStr a)
                /\ d !! "message_id" = Some (VInt id1))
  /\ (exists d, reply_record m3 b w3 = Some (ODict d)
                /\ d !! "text" = Some (VStr b)
                /\ d !! "message_id" = Some (VInt id3)).
Proof.
  intros Hg Hc2 Hc3 Hnew Hab Hcat Ht1 Ht2 Ht3 Hd1.
  assert (Hg2 : in_group m2) by (unfold in_group; now rewrite Hc2).
  assert (Hg3 : in_group m3) by (unfold in_group; now rewrite Hc3).
  destruct (smart_reply_new_accepted _ _ kw1 _ _ _ Hg Hnew Ht1)
    as (w1 & d0 & -> & Ho1 & Hk1 & Hs1).
  assert (Hrec2 : reply_record m2 a (advance d1 w1)
                  = Some (ODict (update_record a id1 d0))).
  { rewrite (reply_record_chat _ _ _ _ Hc2).
    now apply (reply_record_after _ _ _ _ _ _ Hs1 Hk1). }
  assert (Ht2' : telegram (length (outbox (advance d1 w1))) (pointer_send m2 (VInt id1))
                 = (t2, inr id2)).
  { cbn. rewrite Ho1, length_app. cbn. rewrite Nat.add_1_r. exact Ht2. }
  rewrite (smart_reply_duplicate _ _ kw2 _ _ _ _ _ Hg2 Hrec2
             (lookup_update_record_text _ _ _) (lookup_update_record_id _ _ _) Ht2').
  set (w2 := sent (pointer_send m2 (VInt id1)) t2 (inr id2) (advance d1 w1)).
  assert (Hs2 : Beaker.stored (reply_cache b) (inl (chat_id (msg_chat m3))) (advance d2 w2)
                = Some ((clock w + t1)%Q, ODict (update_record a id1 d0))).
  { rewrite Hcat, Hc3. exact Hs1. }
  assert (Hnew3 : reply_is_new m3 b (advance d2 w2)).
  { unfold reply_is_new, reply_record, Beaker.current_value. rewrite Hs2.
    destruct (Beaker.is_expired _ _); [exact I|].
    rewrite lookup_update_record_text. congruence. }
  assert (Ht3' : telegram (length (outbox (advance d2 w2))) (real_send m3 b kw3)
                 = (t3, inr id3)).
  { cbn. rewrite Ho1, !length_app. cbn. rewrite !Nat.add_1_r. exact Ht3. }
  destruct (smart_reply_new_accepted _ _ kw3 _ _ _ Hg3 Hnew3 Ht3')
    as (w3 & d3 & -> & Ho3 & Hk3 & Hs3).
  split; [reflexivity|]. split; [reflexivity|]. split; [reflexivity|]. split; [|split].
  - rewrite Ho3. cbn. rewrite Ho1, <- !app_assoc. reflexivity.
  - exists (update_record a id1 d0).
    split; [exact Hs1|].
    split; [apply lookup_update_record_text|apply lookup_update_record_id].
  - exists (update_record b id3 d3).
    split; [|split; [apply lookup_update_record_text|apply lookup_update_record_id]].
    unfold reply_record. apply current_value_stored.
    eexists. split; [exact Hs3|]. rewrite Hk3. apply is_expired_now.
Qed.

(** C9, as the code has it: when Telegram refuses a new reply, the
    exception reaches the caller of [_smart_reply] and the refused text
    is not recorded. Where the chat had a current record the cache is as
    before; where it had none, or one that had expired, the empty record
    that [get] created before the send is stored in its place. Either
    way no current record holds the text, and the same text sent again
    later is new and goes to Telegram as a real send. *)
Theorem smart_reply_failed_send_not_recorded
    (m : message) (text : string) (kw : kwargs) (w : world) (t : Q) (e : exn) :
  in_group m ->
  reply_is_new m text w ->
  telegram (length (outbox w)) (real_send m text kw) = (t, inl e) ->
  (0 <= t)%Q ->
  let '(w1, r1) := _smart_reply m text kw w in
  r1 = inl e
  /\ (forall d0, reply_record m text w = Some (ODict d0) -> cache w1 = cache w)
  /\ (reply_record m text w = None ->
        Beaker.stored (reply_cache text) (inl (chat_id (msg_chat m))) w1
        = Some (clock w, ODict ∅))
  /\ (forall d, reply_record m text w1 = Some (ODict d) ->
                d !! "text" <> Some (VStr text))
  /\ (forall m' kw' d,
        msg_chat m' = msg_chat m -> (0 <= d)%Q ->
        outbox (_smart_reply m' text kw' (advance d w1)).1
        = outbox w ++ [ (real_send m text kw, inl e);
                        (real_send m' text kw',
                         (telegram (S (length (outbox w))) (real_send m' text kw')).2) ]).
Proof.
  intros Hg Hnew Ht Htpos.
  destruct (smart_reply_new_refused _ _ _ _ _ _ Hg Hnew Ht)
    as (w1 & Hrun & Ho & Hk & Hc).
  rewrite Hrun.
  assert (Hlater : forall w', cache w' = cache w1 -> (clock w1 <= clock w')%Q ->
                              reply_is_new m text w').
  { intros w' Hcw Hle. destruct Hc as [Hc|[Hnone ->]].
    - apply (reply_is_new_later _ _ w); [exact Hnew|congruence|]. rewrite Hk in Hle. lra.
    - unfold reply_is_new, reply_record, Beaker.current_value, Beaker.stored.
      rewrite Hcw. change (cache (sent ?s ?t ?r ?x)) with (cache x).
      fold (Beaker.stored (reply_cache text) (inl (chat_id (msg_chat m)))
              (Beaker.put (reply_cache text) (inl (chat_id (msg_chat m))) (ODict ∅) w).1).
      rewrite stored_put.
      destruct (Beaker.is_expired _ _); [exact I|]. now rewrite lookup_empty. }
  split; [reflexivity|]. split; [|split; [|split]].
  - intros d0 Hrec. destruct Hc as [Hc|[Hnone _]]; [exact Hc|congruence].
  - intros Hnone.
    pose proof (smart_reply_first _ _ kw _ _ _ Hg Hnone Ht) as Hfirst.
    cbv zeta in Hfirst. rewrite Hrun in Hfirst. inversion Hfirst as [Hw1].
    change (Beaker.stored ?n ?k (sent ?s ?d ?r ?x)) with (Beaker.stored n k x).
    apply stored_put.
  - intros d Hrec. specialize (Hlater w1 eq_refl ltac:(lra)).
    unfold reply_is_new in Hlater. now rewrite Hrec in Hlater.
  - intros m' kw' d Hchat Hd.
    assert (Hg' : in_group m') by (unfold in_group; now rewrite Hchat).
    assert (Hnew' : reply_is_new m' text (advance d w1)).
    { unfold reply_is_new. rewrite (reply_record_chat _ _ _ _ Hchat).
      apply (Hlater (advance d w1)); [reflexivity|]. cbn. lra. }
    rewrite (smart_reply_new_outbox _ _ kw' _ Hg' Hnew').
    cbn. rewrite Ho, length_app. cbn. rewrite Nat.add_1_r, <- app_assoc. reflexivity.
Qed.

(** C5, where the code departs from it: the cache [_smart_reply] looks
    a reply up in is named after [extract_command] of the reply text,
    and the command that asked for the reply plays no part. So (1) a
    reply with the text of the current record is answered by a pointer
    whichever message it answers; and (2) two reply texts on which
    [extract_command] agrees share one record: after [a], [b], the text
    [a] is no longer recorded and is sent in full again. *)
Theorem smart_reply_commands_share_record
    (m1 m2 m3 : message) (a b : string) (kw1 kw2 kw3 : kwargs) (w : world)
    (t1 t2 d1 d2 : Q) (id1 id2 : Z) :
  in_group m1 -> msg_chat m2 = msg_chat m1 -> msg_chat m3 = msg_chat m1 ->
  reply_is_new m1 a w ->
  telegram (length (outbox w)) (real_send m1 a kw1) = (t1, inr id1) ->
  (d1 < 600)%Q ->
  a <> b -> extract_command a = extract_command b ->
  telegram (S (length (outbox w))) (real_send m2 b kw2) = (t2, inr id2) ->
  let w1 := (_smart_reply m1 a kw1 w).1 in
  let w2 := (_smart_reply m2 b kw2 (advance d1 w1)).1 in
  outbox (_smart_reply m2 a kw2 (advance d1 w1)).1
  = outbox w ++ [ (real_send m1 a kw1, inr id1);
                  (pointer_send m2 (VInt id1),
                   (telegram (S (length (outbox w))) (pointer_send m2 (VInt id1))).2) ]
  /\ reply_cache a = reply_cache b
  /\ outbox (_smart_reply m3 a kw3 (advance d2 w2)).1
     = outbox w ++ [ (real_send m1 a kw1, inr id1);
                     (real_send m2 b kw2, inr id2);
                     (real_send m3 a kw3,
                      (telegram (S (S (length (outbox w)))) (real_send m3 a kw3)).2) ].
Proof.
  intros Hg Hc2 Hc3 Hnew Ht1 Hd1 Hab Hcmd Ht2 w1 w2. subst w1 w2.
  assert (Hg2 : in_group m2) by (unfold in_group; now rewrite Hc2).
  assert (Hg3 : in_group m3) by (unfold in_group; now rewrite Hc3).
  destruct (smart_reply_new_accepted _ _ kw1 _ _ _ Hg Hnew Ht1)
    as (w1 & d0 & -> & Ho1 & Hk1 & Hs1).
  cbn [fst].
  assert (Hrec2 : reply_record m2 a (advance d1 w1)
                  = Some (ODict (update_record a id1 d0))).
  { rewrite (reply_record_chat _ _ _ _ Hc2).
    now apply (reply_record_after _ _ _ _ _ _ Hs1 Hk1). }
  assert (Hlen : length (outbox (advance d1 w1)) = S (length (outbox w))).
  { cbn. rewrite Ho1, length_app. cbn. apply Nat.add_1_r. }
  assert (Hcat : reply_cache b = reply_cache a).
  { unfold reply_cache. now rewrite Hcmd. }
  split; [|split; [now symmetry|]].
  - destruct (telegram (S (length (outbox w))) (pointer_send m2 (VInt id1)))
      as [t r] eqn:Htp.
    rewrite <- Hlen in Htp.
    rewrite (smart_reply_duplicate _ _ kw2 _ _ _ _ _ Hg2 Hrec2
               (lookup_update_record_text _ _ _) (lookup_update_record_id _ _ _) Htp).
    cbn. rewrite Ho1, <- app_assoc. reflexivity.
  - assert (Hnew2 : reply_is_new m2 b (advance d1 w1)).
    { unfold reply_is_new, reply_record. rewrite Hcat.
      fold (reply_record m2 a (advance d1 w1)). rewrite Hrec2.
      rewrite lookup_update_record_text. congruence. }
    rewrite <- Hlen in Ht2.
    destruct (smart_reply_new_accepted _ _ kw2 _ _ _ Hg2 Hnew2 Ht2)
      as (w2 & d2' & -> & Ho2 & Hk2 & Hs2).
    cbn [fst].
    assert (Hnew3 : reply_is_new m3 a (advance d2 w2)).
    { unfold reply_is_new, reply_record, Beaker.current_value.
      rewrite <- Hcat, Hc3, <- Hc2.
      change (Beaker.stored ?n ?k (advance d2 w2)) with (Beaker.stored n k w2).
      rewrite Hs2.
      destruct (Beaker.is_expired _ _); [exact I|].
      rewrite lookup_update_record_text. congruence. }
    rewrite (smart_reply_new_outbox _ _ kw3 _ Hg3 Hnew3).
    cbn. rewrite Ho2. cbn. rewrite Ho1, !length_app. cbn.
    rewrite !Nat.add_1_r, <- !app_assoc. reflexivity.
Qed.

(** X2: once the record is 600 seconds old, the text it holds is new again:
    the same reply is sent in full, not pointed to. *)
Theorem smart_reply_resends_after_expiry
    (m1 m2 : message) (text : string) (kw1 kw2 : kwargs) (w : world)
    (t1 d : Q) (id1 : Z) :
  in_group m1 -> msg_chat m2 = msg_chat m1 ->
  reply_is_new m1 text w ->
  telegram (length (outbox w)) (real_send m1 text kw1) = (t1, inr id1) ->
  (600 <= d)%Q ->
  let w1 := (_smart_reply m1 text kw1 w).1 in
  reply_record m2 text (advance d w1) = None
  /\ outbox (_smart_reply m2 text kw2 (advance d w1)).1
     = outbox w ++ [ (real_send m1 text kw1, inr id1);
                     (real_send m2 text kw2,
                      (telegram (S (length (outbox w))) (real_send m2 text kw2)).2) ].
Proof.
  intros Hg Hc2 Hnew Ht1 Hd w1. subst w1.
  assert (Hg2 : in_group m2) by (unfold in_group; now rewrite Hc2).
  destruct (smart_reply_new_accepted _ _ kw1 _ _ _ Hg Hnew Ht1)
    as (w1 & d0 & -> & Ho1 & Hk1 & Hs1).
  cbn [fst].
  assert (Hrec : reply_record m2 text (advance d w1) = None).
  { unfold reply_record, Beaker.current_value. rewrite Hc2.
    change (Beaker.stored ?n ?k (advance d w1)) with (Beaker.stored n k w1).
    rewrite Hs1. cbn. rewrite Hk1.
    assert (E : Beaker.is_expired (clock w + t1 + d) (clock w + t1) = true).
    { unfold Beaker.is_expired, Beaker.expire. apply Qle_bool_iff. lra. }
    now rewrite E. }
  split; [exact Hrec|].
  assert (Hnew2 : reply_is_new m2 text (advance d w1)).
  { unfold reply_is_new. now rewrite Hrec. }
  rewrite (smart_reply_new_outbox _ _ kw2 _ Hg2 Hnew2).
  cbn. rewrite Ho1, length_app. cbn. rewrite Nat.add_1_r, <- app_assoc. reflexivity.
Qed.

End SmartReply.

(** ** [_format_events] *)

Section FormatEvents.
Context `{Util}.

(** The loop leaves alone the events whose time is a text already. *)
Lemma format_loop_keeps_rendered items : forall acc w w1 out,
  format_loop items acc w = (w1, inr out) ->
  forall r ev s, heap w !! r = Some ev -> ev_time ev = TStr s -> heap w1 !! r = Some ev.
Proof.
  induction items as [|r0 rest IH]; intros acc w w1 out Hrun r ev s Hr Hs;
    cbn [format_loop] in Hrun.
  - now inversion Hrun; subst.
  - destruct (heap w !! r0) as [ev0|] eqn:H0; [|discriminate].
    destruct (ev_time ev0) as [ms|time] eqn:Ht0.
    + destruct (fromtimestamp AJU_TZ (ms * 1000)) as [e|dt]; [discriminate|].
      apply (IH _ _ _ _ Hrun r ev s); [|exact Hs]. cbn.
      rewrite list_lookup_insert_ne; [exact Hr|].
      intros ->. rewrite Hr in H0. inversion H0; subst. congruence.
    + now apply (IH _ _ _ _ Hrun r ev s).
Qed.

(** The loop touches nothing but the heap. *)
Lemma format_loop_frame items : forall acc w w1 res,
  format_loop items acc w = (w1, res) -> w1 = set_heap (heap w1) w.
Proof.
  induction items as [|r0 rest IH]; intros acc w w1 res Hrun; cbn [format_loop] in Hrun.
  - inversion Hrun; subst. now destruct w1.
  - destruct (heap w !! r0) as [ev0|]; [|inversion Hrun; subst; now destruct w1].
    destruct (ev_time ev0) as [ms|time].
    + destruct (fromtimestamp AJU_TZ (ms * 1000)) as [e|dt];
        [inversion Hrun; subst; now destruct w1|].
      apply IH in Hrun. rewrite Hrun. reflexivity.
    + now apply IH in Hrun.
Qed.

(** Once the loop has returned, every event of the list has a text for
    its time. *)
Lemma format_loop_renders items : forall acc w w1 out,
  format_loop items acc w = (w1, inr out) ->
  forall r, r ∈ items -> exists ev s, heap w1 !! r = Some ev /\ ev_time ev = TStr s.
Proof.
  induction items as [|r0 rest IH]; intros acc w w1 out Hrun r Hin.
  - now apply elem_of_nil in Hin.
  - cbn [format_loop] in Hrun.
    destruct (heap w !! r0) as [ev0|] eqn:H0; [|discriminate].
    apply elem_of_cons in Hin as [->|Hin].
    + destruct (ev_time ev0) as [ms|time] eqn:Ht0.
      * destruct (fromtimestamp AJU_TZ (ms * 1000)) as [e|dt]; [discriminate|].
        exists (Event (ev_name ev0) (ev_link ev0) (TStr (strftime_dm_HM AJU_TZ dt))),
               (strftime_dm_HM AJU_TZ dt).
        split; [|reflexivity].
        eapply (format_loop_keeps_rendered _ _ _ _ _ Hrun); [|reflexivity].
        cbn. apply list_lookup_insert_eq. now apply lookup_lt_Some in H0.
      * exists ev0, time. split; [|exact Ht0].
        now apply (format_loop_keeps_rendered _ _ _ _ _ Hrun r0 ev0 time).
    + destruct (ev_time ev0) as [ms|time].
      * destruct (fromtimestamp AJU_TZ (ms * 1000)) as [e|dt]; [discriminate|].
        now apply (IH _ _ _ _ Hrun).
      * now apply (IH _ _ _ _ Hrun).
Qed.

(** Run again on the heap it left, the loop changes nothing and gives
    the same lines. *)
Lemma format_loop_again items : forall acc w w1 out,
  format_loop items acc w = (w1, inr out) ->
  format_loop items acc w1 = (w1, inr out).
Proof.
  induction items as [|r0 rest IH]; intros acc w w1 out Hrun.
  - cbn in Hrun |- *. now inversion Hrun; subst.
  - cbn [format_loop] in Hrun |- *.
    destruct (heap w !! r0) as [ev0|] eqn:H0; [|discriminate].
    destruct (ev_time ev0) as [ms|time] eqn:Ht0.
    + destruct (fromtimestamp AJU_TZ (ms * 1000)) as [e|dt]; [discriminate|].
      set (ev1 := Event (ev_name ev0) (ev_link ev0) (TStr (strftime_dm_HM AJU_TZ dt))) in *.
      assert (H1 : heap w1 !! r0 = Some ev1).
      { eapply (format_loop_keeps_rendered _ _ _ _ _ Hrun); [|reflexivity].
        cbn. apply list_lookup_insert_eq. now apply lookup_lt_Some in H0. }
      rewrite H1. cbn [ev_time ev1]. now apply IH in Hrun.
    + rewrite (format_loop_keeps_rendered _ _ _ _ _ Hrun r0 ev0 time H0 Ht0).
      rewrite Ht0. now apply IH in Hrun.
Qed.

(** The loop does not look at the clock. *)
Lemma format_loop_advance d items : forall acc w,
  format_loop items acc (advance d w)
  = let '(w1, res) := format_loop items acc w in (advance d w1, res).
Proof.
  induction items as [|r0 rest IH]; intros acc w; cbn [format_loop]; [reflexivity|].
  change (heap (advance d w)) with (heap w).
  destruct (heap w !! r0) as [ev0|]; [|reflexivity].
  destruct (ev_time ev0) as [ms|time].
  - destruct (fromtimestamp AJU_TZ (ms * 1000)) as [e|dt]; [reflexivity|].
    apply (IH _ (set_heap _ w)).
  - apply IH.
Qed.

Lemma format_events_advance d events w :
  _format_events events (advance d w)
  = let '(w1, res) := _format_events events w in (advance d w1, res).
Proof.
  destruct events as [dict|items|book expires]; cbn [_format_events].
  - destruct (decide (dict = ∅)); reflexivity.
  - unfold mbind, M_bind. rewrite format_loop_advance.
    destruct (format_loop items [] w) as [w1 [e|lines]]; reflexivity.
  - reflexivity.
Qed.

(** The loop leaves alone the events whose time is a text already,
    whether it returns or raises. *)
Lemma format_loop_keeps_text items : forall acc w w1 res,
  format_loop items acc w = (w1, res) ->
  forall r ev s, heap w !! r = Some ev -> ev_time ev = TStr s -> heap w1 !! r = Some ev.
Proof.
  induction items as [|r0 rest IH]; intros acc w w1 res Hrun r ev s Hr Hs;
    cbn [format_loop] in Hrun.
  - now inversion Hrun; subst.
  - destruct (heap w !! r0) as [ev0|] eqn:H0; [|now inversion Hrun; subst].
    destruct (ev_time ev0) as [ms|time] eqn:Ht0.
    + destruct (fromtimestamp AJU_TZ (ms * 1000)) as [e|dt]; [now inversion Hrun; subst|].
      apply (IH _ _ _ _ Hrun r ev s); [|exact Hs]. cbn.
      rewrite list_lookup_insert_ne; [exact Hr|].
      intros ->. rewrite Hr in H0. inversion H0; subst. congruence.
    + now apply (IH _ _ _ _ Hrun r ev s).
Qed.

(** Run again on the heap it left, the loop changes nothing and ends as
    it did: with the same lines, or with the same exception. *)
Lemma format_loop_repeats items : forall acc w w1 res,
  format_loop items acc w = (w1, res) ->
  format_loop items acc w1 = (w1, res).
Proof.
  induction items as [|r0 rest IH]; intros acc w w1 res Hrun.
  - cbn in Hrun |- *. now inversion Hrun; subst.
  - cbn [format_loop] in Hrun |- *.
    destruct (heap w !! r0) as [ev0|] eqn:H0;
      [|inversion Hrun; subst; now rewrite H0].
    destruct (ev_time ev0) as [ms|time] eqn:Ht0.
    + destruct (fromtimestamp AJU_TZ (ms * 1000)) as [e|dt] eqn:Hts.
      * inversion Hrun; subst. now rewrite H0, Ht0, Hts.
      * set (ev1 := Event (ev_name ev0) (ev_link ev0) (TStr (strftime_dm_HM AJU_TZ dt))) in *.
        assert (Hone : heap w1 !! r0 = Some ev1).
        { eapply (format_loop_keeps_text _ _ _ _ _ Hrun); [|reflexivity].
          cbn. apply list_lookup_insert_eq. now apply lookup_lt_Some in H0. }
        rewrite Hone. cbn [ev_time ev1]. now apply IH in Hrun.
    + rewrite (format_loop_keeps_text _ _ _ _ _ Hrun r0 ev0 time H0 Ht0).
      rewrite Ht0. now apply IH in Hrun.
Qed.

Lemma rendered_TStr ev time : ev_time ev = TStr time -> rendered ev = ev.
Proof. unfold rendered, rendered_time. intros E. rewrite E. destruct ev. cbn in *. now subst. Qed.

Lemma renders_heap_refl h : renders_heap h h.
Proof. intros r ev Hr. now left. Qed.

(** The lines of the loop are those of [events_lines] on the events the
    list held at the start, whichever of them it had rendered before. *)
Lemma format_loop_lines h0 items events :
  Forall2 (fun r ev => h0 !! r = Some ev) items events ->
  forall acc w w1 res,
    renders_heap h0 (heap w) ->
    format_loop items acc w = (w1, res) ->
    renders_heap h0 (heap w1)
    /\ res = match events_lines events with
             | inl e => inl e
             | inr lines => inr (acc ++ lines)
             end.
Proof.
  induction 1 as [|r ev items events Hr Hrest IH]; intros acc w w1 res Hh Hrun.
  - cbn in Hrun |- *. inversion Hrun; subst. now rewrite app_nil_r.
  - cbn [format_loop events_lines] in Hrun |- *.
    assert (Hcase : heap w !! r = Some ev
                    \/ exists time, rendered_time ev = inr time
                                    /\ heap w !! r
                                       = Some (Event (ev_name ev) (ev_link ev) (TStr time))).
    { destruct (Hh _ _ Hr) as [E|E]; [now left|].
      unfold rendered in E. destruct (rendered_time ev) as [e|time]; [now left|].
      right. now exists time. }
    destruct Hcase as [E|(time & Hrt & E)]; rewrite E in Hrun.
    + unfold rendered_time. destruct (ev_time ev) as [ms|time] eqn:Ht.
      * destruct (fromtimestamp AJU_TZ (ms * 1000)) as [e|dt] eqn:Hts.
        -- inversion Hrun; subst. auto.
        -- assert (Hh' : renders_heap h0
                          (heap (set_heap (<[r:=Event (ev_name ev) (ev_link ev)
                                               (TStr (strftime_dm_HM AJU_TZ dt))]> (heap w)) w))).
           { intros r' ev' Hr'. cbn [heap set_heap].
             destruct (decide (r' = r)) as [->|Hne].
             - rewrite Hr in Hr'. inversion Hr'; subst ev'. right.
               rewrite list_lookup_insert_eq by (now apply lookup_lt_Some in E).
               unfold rendered, rendered_time. now rewrite Ht, Hts.
             - rewrite list_lookup_insert_ne by congruence. now apply Hh. }
           destruct (IH _ _ _ _ Hh' Hrun) as [Hh1 ->]. split; [exact Hh1|].
           destruct (events_lines events) as [e|lines]; [reflexivity|].
           now rewrite <- app_assoc.
      * destruct (IH _ _ _ _ Hh Hrun) as [Hh1 ->]. split; [exact Hh1|].
        destruct (events_lines events) as [e|lines]; [reflexivity|].
        now rewrite <- app_assoc.
    + cbn [ev_time] in Hrun. rewrite Hrt.
      destruct (IH _ _ _ _ Hh Hrun) as [Hh1 ->]. split; [exact Hh1|].
      destruct (events_lines events) as [e|lines]; [reflexivity|].
      now rewrite <- app_assoc.
Qed.

(** C10: [_format_events] on a list of events whose [time] may be an
    integer. Its outcome is the text of [events_text] on the events as
    they were: every integer time rendered, or the exception of the first
    one that cannot be. It touches nothing but the events; and called
    again on the list it has mutated, at any later time, it changes
    nothing and ends the same way. When it returned a text, each event
    of the list holds the rendering of its time in place of the integer,
    so the text served after a cache hit is the same. *)
Theorem format_events_idempotent
    (items : list nat) (events : list event) (w : world) :
  Forall2 (fun r ev => heap w !! r = Some ev) items events ->
  let '(w1, res) := _format_events (OList items) w in
  res = events_text events
  /\ w1 = set_heap (heap w1) w
  /\ (forall d, _format_events (OList items) (advance d w1) = (advance d w1, res))
  /\ (forall text, res = inr text ->
        forall r ev, r ∈ items -> heap w !! r = Some ev ->
          heap w1 !! r = Some (rendered ev)
          /\ exists time, ev_time (rendered ev) = TStr time).
Proof.
  intros Hitems. unfold _format_events, events_text, mbind, M_bind, mret, M_ret.
  destruct (format_loop items [] w) as [w1 res] eqn:Hloop.
  destruct (format_loop_lines _ _ _ Hitems _ _ _ _ (renders_heap_refl _) Hloop)
    as [Hh Hres].
  pose proof (format_loop_frame _ _ _ _ _ Hloop) as Hframe.
  pose proof (format_loop_repeats _ _ _ _ _ Hloop) as Hagain.
  assert (Hlater : forall d, format_loop items [] (advance d w1) = (advance d w1, res)).
  { intros d. rewrite format_loop_advance, Hagain. reflexivity. }
  destruct res as [e|lines].
  - split; [|split; [exact Hframe|split]].
    + revert Hres. destruct (events_lines events); intros Hres; [now inversion Hres|discriminate].
    + intros d. now rewrite Hlater.
    + intros text [=].
  - split; [|split; [exact Hframe|split]].
    + revert Hres. destruct (events_lines events); intros Hres; [discriminate|].
      now inversion Hres.
    + intros d. now rewrite Hlater.
    + intros text _ r ev Hin Hr.
      destruct (format_loop_renders _ _ _ _ _ Hloop r Hin) as (ev1 & s & H1 & Hs).
      destruct (Hh _ _ Hr) as [E|E]; rewrite E in H1; inversion H1; subst ev1.
      * rewrite (rendered_TStr _ _ Hs). split; [exact E|now exists s].
      * split; [exact E|now exists s].
Qed.

(** [_format_events] touches nothing but the heap, and a second call
    repeats the first, whatever it is given. *)
Lemma format_events_again events w w1 out :
  _format_events events w = (w1, inr out) ->
  _format_events events w1 = (w1, inr out) /\ w1 = set_heap (heap w1) w.
Proof.
  destruct events as [dict|items|book expires]; cbn [_format_events].
  - destruct (decide (dict = ∅)); intros E; inversion E; subst.
    split; [reflexivity|now destruct w1].
  - unfold mbind, M_bind, mret, M_ret. intros E.
    destruct (format_loop items [] w) as [w' [e|lines]] eqn:Hloop; [discriminate|].
    inversion E; subst. clear E.
    rewrite (format_loop_again _ _ _ _ _ Hloop).
    split; [reflexivity|exact (format_loop_frame _ _ _ _ _ Hloop)].
  - intros E. inversion E.
Qed.

End FormatEvents.

(** ** The cached fetch operations *)

Section Fetch.
Context `{Util} `{Bs4} `{Codecs} `{Net} `{Config}.

Lemma http_get_requests req w :
  requests (http_get req w).1 = requests w ++ [req].
Proof. unfold http_get. now destruct (requests_get _ _). Qed.

(** What a miss of [get_events] runs makes exactly one request. *)
Lemma generate_events_requests n w :
  requests ((events ← generate_events n; new_list events) w).1
  = requests w ++ [events_request n].
Proof.
  unfold generate_events, mbind, M_bind, lift.
  pose proof (http_get_requests (events_request n) w) as Hr.
  destruct (http_get (events_request n) w) as [w' [e|r]]; cbn in Hr |- *; [exact Hr|].
  destruct (json r); cbn; exact Hr.
Qed.

(** What a miss of [get_packt_free_book] runs makes exactly one request. *)
Lemma fetch_book_requests w :
  requests ((r ← http_get book_request; extract_response r) w).1
  = requests w ++ [book_request].
Proof.
  unfold mbind, M_bind, extract_response.
  pose proof (http_get_requests book_request w) as Hr.
  destruct (http_get book_request w) as [w' [e|r]]; cbn in Hr |- *; [exact Hr|].
  destruct (extract_packt_free_book _ _) as [logged [e|[book expires]]]; cbn; exact Hr.
Qed.

(** The cache in front of a computation [f] that makes one request [req]
    whenever it runs. From a miss that [f] answers with [v]: one request
    is made; for the 600 seconds that follow a call is a hit, makes no
    request, changes nothing and returns [v]; after them a call runs [f]
    again. *)
Lemma get_cached ns key (f : M pyobj) req w w1 v :
  (forall w0, requests (f w0).1 = requests w0 ++ [req]) ->
  Beaker.current_value ns key w = None ->
  Beaker.get ns key f w = (w1, inr v) ->
  requests w1 = requests w ++ [req]
  /\ (forall d, (d < 600)%Q ->
        Beaker.get ns key f (advance d w1) = (advance d w1, inr v))
  /\ (forall d, (600 <= d)%Q ->
        requests (Beaker.get ns key f (advance d w1)).1 = requests w1 ++ [req]).
Proof.
  intros Hreq Hmiss Hget. rewrite (get_miss _ _ _ _ Hmiss) in Hget.
  specialize (Hreq w) as Hreq0.
  destruct (f w) as [w' [e|v']] eqn:Hf; [discriminate|].
  inversion Hget; subst. clear Hget. cbn in Hreq0.
  split; [exact Hreq0|]. split.
  - intros d Hd. apply get_hit. apply current_value_stored.
    exists (clock w'). split; [apply stored_put|]. cbn. now apply is_expired_after.
  - intros d Hd.
    assert (Hexp : Beaker.current_value ns key
                     (advance d (Beaker.put ns key v w').1) = None).
    { unfold Beaker.current_value.
      change (Beaker.stored ns key (advance d ?x)) with (Beaker.stored ns key x).
      rewrite stored_put. cbn.
      assert (E : Beaker.is_expired (clock w' + d) (clock w') = true).
      { unfold Beaker.is_expired, Beaker.expire. apply Qle_bool_iff. lra. }
      now rewrite E. }
    rewrite (get_miss _ _ _ _ Hexp).
    specialize (Hreq (advance d (Beaker.put ns key v w').1)).
    destruct (f _) as [w2 [e|v2]]; exact Hreq.
Qed.

(** C3: each of the two fetch operations is cached for 600 seconds.
    From a cache without a current value for it, a call that returns
    makes exactly one request; a second call less than 600 seconds after
    makes none, changes nothing and returns the same value; and a call
    600 seconds after or later makes the request again. *)
Theorem fetch_cached_for_600 (f : fetch) (w w1 : world) (v : pyobj) :
  fetch_value f w = None ->
  run_fetch f w = (w1, inr v) ->
  requests w1 = requests w ++ [fetch_request f]
  /\ (forall d, (d < 600)%Q ->
        run_fetch f (advance d w1) = (advance d w1, inr v))
  /\ (forall d, (600 <= d)%Q ->
        requests (run_fetch f (advance d w1)).1
        = requests w ++ [fetch_request f; fetch_request f]).
Proof.
  intros Hmiss Hrun.
  assert (Hc : requests w1 = requests w ++ [fetch_request f]
               /\ (forall d, (d < 600)%Q ->
                     run_fetch f (advance d w1) = (advance d w1, inr v))
               /\ (forall d, (600 <= d)%Q ->
                     requests (run_fetch f (advance d w1)).1
                     = requests w1 ++ [fetch_request f])).
  { destruct f as [list_size|]; cbn [run_fetch fetch_request fetch_value] in *.
    - apply (get_cached _ _ _ _ _ _ _
               (generate_events_requests (default 5 list_size)) Hmiss Hrun).
    - apply (get_cached _ _ _ _ _ _ _ fetch_book_requests Hmiss Hrun). }
  destruct Hc as (Hone & Hhit & Hagain). split; [exact Hone|]. split; [exact Hhit|].
  intros d Hd. rewrite (Hagain d Hd), Hone, <- app_assoc. reflexivity.
Qed.

Lemma http_get_cache req w : cache (http_get req w).1 = cache w.
Proof. unfold http_get. now destruct (requests_get _ _). Qed.

(** What a miss runs does not write to the cache. *)
Lemma fetch_body_cache n w :
  cache ((events ← generate_events n; new_list events) w).1 = cache w
  /\ cache ((r ← http_get book_request; extract_response r) w).1 = cache w.
Proof.
  split.
  - unfold generate_events, mbind, M_bind, lift.
    pose proof (http_get_cache (events_request n) w) as Hc.
    destruct (http_get (events_request n) w) as [w' [e|r]]; cbn in Hc |- *; [exact Hc|].
    destruct (json r); cbn; exact Hc.
  - unfold mbind, M_bind, extract_response.
    pose proof (http_get_cache book_request w) as Hc.
    destruct (http_get book_request w) as [w' [e|r]]; cbn in Hc |- *; [exact Hc|].
    destruct (extract_packt_free_book _ _) as [logged [e|[book expires]]]; cbn; exact Hc.
Qed.


(** X1: the text of [/events] is the same on a hit as on the miss
    before it: the list the cache returns is the one [_format_events] has put
    the rendered times in. *)
Theorem events_text_same_on_hit
    (list_size : option Z) (w w1 w2 : world) (events : pyobj) (out : string) (d : Q) :
  fetch_value (GetEvents list_size) w = None ->
  get_events list_size w = (w1, inr events) ->
  _format_events events w1 = (w2, inr out) ->
  (d < 600)%Q ->
  get_events list_size (advance d w2) = (advance d w2, inr events)
  /\ _format_events events (advance d w2) = (advance d w2, inr out).
Proof.
  intros Hmiss Hget Hfmt Hd. cbn [fetch_value] in Hmiss.
  destruct (format_events_again _ _ _ _ Hfmt) as [Hagain Hframe].
  split.
  - unfold get_events in Hget |- *. rewrite (get_miss _ _ _ _ Hmiss) in Hget.
    destruct ((events ← generate_events (default 5 list_size); new_list events) w)
      as [w' [e|v]]; [discriminate|].
    inversion Hget; subst w1 v. clear Hget.
    apply get_hit. apply current_value_stored. exists (clock w').
    split.
    + rewrite Hframe.
      change (Beaker.stored ?n ?k (advance d (set_heap ?h ?x))) with (Beaker.stored n k x).
      apply stored_put.
    + rewrite Hframe. cbn. now apply is_expired_after.
  - rewrite format_events_advance, Hagain. reflexivity.
Qed.

End Fetch.

(** ** The pattern and the extractor *)

Section ReFacts.

Lemma search_from_literal_absent l rest s : forall pos,
  Re.occurs l s = false ->
  Re.search_from (Re.Literal l :: rest) s pos = None.
Proof.
  induction s as [|c s IH]; intros pos Hocc; cbn [Re.occurs] in Hocc;
    cbn [Re.search_from Re.match_here];
    destruct (Re.strip_prefix l _) eqn:E; try discriminate; [reflexivity|].
  now apply IH.
Qed.

(** A match sets every mark of the pattern and keeps the ones set. *)
Lemma match_here_marks pat : forall s pos mk e mk',
  Re.match_here pat s pos mk = Some (e, mk') ->
  (forall i, is_Some (mk !! i) -> is_Some (mk' !! i))
  /\ (forall i, In (Re.Mark i) pat -> is_Some (mk' !! i)).
Proof.
  induction pat as [|n rest IH]; intros s pos mk e mk' Hm.
  - cbn in Hm. inversion Hm; subst. split; [auto|]. intros i [].
  - assert (Hrest : forall s pos mk, Re.match_here rest s pos mk = Some (e, mk') ->
               (forall i, is_Some (mk !! i) -> is_Some (mk' !! i))
               /\ (forall i, In (Re.Mark i) (n :: rest) -> n <> Re.Mark i ->
                             is_Some (mk' !! i))).
    { intros s0 pos0 mk0 Hm0. destruct (IH _ _ _ _ _ Hm0) as [Hk Hs].
      split; [exact Hk|]. intros i [->|Hin] Hne; [congruence|auto]. }
    destruct n as [l|p|p|p|j]; cbn [Re.match_here] in Hm.
    + destruct (Re.strip_prefix l s); [|discriminate].
      destruct (Hrest _ _ _ Hm) as [Hk Hs]. split; [exact Hk|].
      intros i Hin. apply Hs; [exact Hin|discriminate].
    + destruct s as [|c s]; [discriminate|]. destruct (p c); [|discriminate].
      destruct (Hrest _ _ _ Hm) as [Hk Hs]. split; [exact Hk|].
      intros i Hin. apply Hs; [exact Hin|discriminate].
    + revert pos Hm. induction s as [|c s IHs]; intros pos Hm.
      * destruct (Re.match_here rest EmptyString pos mk) eqn:E; [|discriminate].
        inversion Hm; subst. destruct (Hrest _ _ _ E) as [Hk Hs]. split; [exact Hk|].
        intros i Hin. apply Hs; [exact Hin|discriminate].
      * destruct (Re.match_here rest (String c s) pos mk) eqn:E.
        -- inversion Hm; subst. destruct (Hrest _ _ _ E) as [Hk Hs]. split; [exact Hk|].
           intros i Hin. apply Hs; [exact Hin|discriminate].
        -- destruct (p c); [|discriminate]. exact (IHs _ Hm).
    + revert pos Hm. induction s as [|c s IHs]; intros pos Hm.
      * destruct (Hrest _ _ _ Hm) as [Hk Hs]. split; [exact Hk|].
        intros i Hin. apply Hs; [exact Hin|discriminate].
      * destruct (p c).
        -- match type of Hm with
           | match ?g with _ => _ end = _ => destruct g as [r|] eqn:E
           end.
           ++ inversion Hm; subst. exact (IHs _ E).
           ++ destruct (Hrest _ _ _ Hm) as [Hk Hs]. split; [exact Hk|].
              intros i Hin. apply Hs; [exact Hin|discriminate].
        -- destruct (Hrest _ _ _ Hm) as [Hk Hs]. split; [exact Hk|].
           intros i Hin. apply Hs; [exact Hin|discriminate].
    + destruct (IH _ _ _ _ _ Hm) as [Hk Hs]. split.
      * intros i Hi. apply Hk. destruct (decide (j = i)) as [->|Hne].
        -- rewrite lookup_insert_eq. eauto.
        -- now rewrite lookup_insert_ne.
      * intros i [[= ->]|Hin]; [|auto].
        apply Hk. rewrite lookup_insert_eq. eauto.
Qed.

(** Both groups of [book_re] take part in every match of it. *)
Lemma book_re_groups s m :
  Re.search book_re s = Some m ->
  is_Some (Re.group m 1) /\ is_Some (Re.group m 2).
Proof.
  unfold Re.search. intros Hs.
  destruct (Re.search_from book_re s 0) as [[e mk]|] eqn:E; [|discriminate].
  inversion Hs; subst. clear Hs.
  assert (Hmarks : forall i, In (Re.Mark i) book_re -> is_Some (mk !! i)).
  { revert E. generalize 0%nat. induction s as [|c s IHs]; intros pos E;
      cbn [Re.search_from] in E.
    - destruct (Re.match_here book_re EmptyString pos ∅) as [[e' mk'']|] eqn:M;
        [|discriminate].
      inversion E; subst. exact (proj2 (match_here_marks _ _ _ _ _ _ M)).
    - destruct (Re.match_here book_re (String c s) pos ∅) as [[e' mk'']|] eqn:M.
      + inversion E; subst. exact (proj2 (match_here_marks _ _ _ _ _ _ M)).
      + exact (IHs _ E). }
  unfold Re.group. cbn [Re.marks Nat.mul Nat.add Nat.sub].
  assert (H0 : is_Some (mk !! 0%nat)) by (apply Hmarks; unfold book_re; cbn; tauto).
  assert (H1 : is_Some (mk !! 1%nat)) by (apply Hmarks; unfold book_re; cbn; tauto).
  assert (H2 : is_Some (mk !! 2%nat)) by (apply Hmarks; unfold book_re; cbn; tauto).
  assert (H3 : is_Some (mk !! 3%nat)) by (apply Hmarks; unfold book_re; cbn; tauto).
  destruct H0 as [? ->], H1 as [? ->], H2 as [? ->], H3 as [? ->].
  split; eauto.
Qed.

End ReFacts.

Section ExtractFacts.
Context `{Bs4} `{Codecs}.

(** Without the quoted marker in the text the pattern finds nothing. *)
Lemma extract_with_re_no_marker s :
  Re.occurs (quoted "deal-of-the-day") s = false ->
  extract_with_re s = inl AttributeError.
Proof.
  intros Hocc. unfold extract_with_re, Re.search, book_re.
  now rewrite (search_from_literal_absent _ _ _ 0%nat Hocc).
Qed.

(** X4: the pattern strategy never fails on a missing group. *)
Lemma extract_with_re_not_TypeError s :
  extract_with_re s <> inl TypeError.
Proof.
  unfold extract_with_re.
  destruct (Re.search book_re s) as [m|] eqn:Hs; [|intros [=]].
  destruct (book_re_groups _ _ Hs) as [[e ->] [b ->]].
  unfold int. destruct (int_literal e); intros [=].
Qed.

(** C4, as the code has it: on a document without the marker (the text
    has no quoted marker and the parsed page no element with that id)
    both strategies fail and the call raises what the fallback raised,
    an [AttributeError] without a cause; the failure of the pattern
    strategy, another [AttributeError], went to the log. *)
Theorem extract_without_marker_fails
    (content : page_content) (encoding : option string) (s : string) :
  page_text content encoding = inr s ->
  Re.occurs (quoted "deal-of-the-day") s = false ->
  select_one (BeautifulSoup s) "#deal-of-the-day" = None ->
  extract_with_re s = inl AttributeError
  /\ extract_with_parser s = inl AttributeError
  /\ extract_packt_free_book content encoding = ([AttributeError], inl AttributeError)
  /\ exc_cause AttributeError = None.
Proof.
  intros Htext Hocc Hsel.
  pose proof (extract_with_re_no_marker _ Hocc) as Hre.
  assert (Hp : extract_with_parser s = inl AttributeError).
  { unfold extract_with_parser. now rewrite Hsel. }
  split; [exact Hre|]. split; [exact Hp|]. split; [|reflexivity].
  unfold extract_packt_free_book. now rewrite Htext, Hre, Hp.
Qed.

End ExtractFacts.

(** C4, as the claim words it, fails: the page without the widget makes
    the extractor raise, but not an [ExtractionError] with a cause. *)
Lemma extract_plain_page_no_extraction_error :
  Re.occurs "deal-of-the-day" Sample.plain_page = false
  /\ @select_one Sample.bs4 (@BeautifulSoup Sample.bs4 Sample.plain_page) "#deal-of-the-day"
     = None
  /\ ~ exists cause,
        (@extract_packt_free_book Sample.bs4 Sample.codecs
           (PStr Sample.plain_page) (Some "utf-8")).2
        = inl (RaiseFrom "ExtractionError" cause).
Proof.
  split; [vm_compute; reflexivity|]. split; [vm_compute; reflexivity|].
  intros [cause E]. vm_compute in E. discriminate E.
Qed.

Lemma extract_without_marker_fails_witness :
  @extract_packt_free_book Sample.bs4 Sample.codecs
    (PBytes (list_byte_of_string Sample.plain_page)) (Some "utf-8")
  = ([AttributeError], inl AttributeError).
Proof.
  refine (proj1 (proj2 (proj2
    (@extract_without_marker_fails Sample.bs4 Sample.codecs
       (PBytes (list_byte_of_string Sample.plain_page)) (Some "utf-8")
       Sample.plain_page _ _ _)))); vm_compute; reflexivity.
Defined.

(** ** More on the cached fetches *)

Section FetchKeys.

Lemma str_of_int_inj (n n' : Z) : str_of_int n = str_of_int n' -> n = n'.
Proof.
  unfold str_of_int. intros E.
  assert (Hn : forall z, NilZero.int_of_string (NilZero.string_of_int (Z.to_int z))
                         = Some (Z.to_int z)).
  { intros z. apply NilZero.isi; destruct z as [|p|p]; cbn; try discriminate;
      intros [= E']; now apply DecimalPos.Unsigned.to_uint_nonnil in E'. }
  pose proof (Hn n) as Hd. rewrite E, Hn in Hd. injection Hd as Hd.
  rewrite <- (DecimalZ.of_to n), <- (DecimalZ.of_to n'). now rewrite Hd.
Qed.

(** Calls of [get_events] with different arguments have different keys. *)
Lemma events_key_inj (ls ls' : option Z) : events_key ls = events_key ls' -> ls = ls'.
Proof.
  unfold events_key. intros [= E].
  destruct ls as [n|], ls' as [n'|]; cbn in E.
  - injection E as E. f_equal. now apply str_of_int_inj.
  - discriminate E.
  - discriminate E.
  - reflexivity.
Qed.

End FetchKeys.

Section FetchMore.
Context `{Util} `{Bs4} `{Codecs} `{Net} `{Config}.

Lemma current_value_absent ns key w :
  Beaker.stored ns key w = None -> Beaker.current_value ns key w = None.
Proof. unfold Beaker.current_value. now intros ->. Qed.

(** A call of [get_events] writes the cache under its own key only. *)
Lemma get_events_stored_other list_size w ns key :
  (ns, key) <> (Beaker.func_namespace "get_events", events_key list_size) ->
  Beaker.stored ns key (get_events list_size w).1 = Beaker.stored ns key w.
Proof.
  intros Hne. unfold get_events, Beaker.get.
  destruct (Beaker.current_value _ _ w); [reflexivity|].
  unfold mbind at 1. unfold M_bind at 1.
  pose proof (proj1 (fetch_body_cache (default 5 list_size) w)) as Hc.
  destruct ((events ← generate_events (default 5 list_size); new_list events) w)
    as [w' [e|v]]; cbn [fst] in Hc |- *.
  - unfold Beaker.stored. now rewrite Hc.
  - unfold mbind, M_bind, mret, M_ret. cbn [fst snd Beaker.put].
    change (Beaker.stored ns key (set_cache ?c w'))
      with (Beaker.stored ns key (Beaker.put (Beaker.func_namespace "get_events")
                                    (events_key list_size) v w').1).
    rewrite stored_put_other by congruence.
    unfold Beaker.stored. now rewrite Hc.
Qed.

(** X6: [get_events] is cached per argument list. A call with other
    arguments, a call that leaves [list_size] to its default included,
    is not served from the entry of this one: it still finds nothing
    under its own key and makes its own request. *)
Theorem events_cached_per_arguments (list_size list_size' : option Z) (w : world) (d : Q) :
  list_size <> list_size' ->
  Beaker.stored (Beaker.func_namespace "get_events") (events_key list_size') w = None ->
  let w1 := (get_events list_size w).1 in
  fetch_value (GetEvents list_size') (advance d w1) = None
  /\ requests (get_events list_size' (advance d w1)).1
     = requests w1 ++ [events_request (default 5 list_size')].
Proof.
  intros Hne Hnone w1.
  assert (Hs : Beaker.stored (Beaker.func_namespace "get_events")
                 (events_key list_size') (advance d w1) = None).
  { change (Beaker.stored ?n ?k (advance d w1)) with (Beaker.stored n k w1).
    subst w1. rewrite get_events_stored_other; [exact Hnone|].
    intros E. apply Hne. symmetry. apply events_key_inj. congruence. }
  pose proof (current_value_absent _ _ _ Hs) as Hmiss.
  split; [exact Hmiss|].
  unfold get_events at 1. rewrite (get_miss _ _ _ _ Hmiss).
  pose proof (generate_events_requests (default 5 list_size') (advance d w1)) as Hr.
  destruct ((events ← generate_events (default 5 list_size'); new_list events)
              (advance d w1)) as [w2 [e|v]]; exact Hr.
Qed.

End FetchMore.


(** ** More on the replies *)

Section SmartReplyMore.
Context `{Util} `{Net}.

Lemma send_message_cache s w : cache (send_message s w).1 = cache w.
Proof. unfold send_message. now destruct (telegram _ _). Qed.

(** What [_smart_reply] does once it has the previous record in hand
    writes the cache under the key of the reply only. *)
Lemma smart_reply_tail_stored_other m text kw previous w ns key :
  (ns, key) <> (reply_cache text, inl (chat_id (msg_chat m))) ->
  Beaker.stored ns key
    ((match previous with
      | ODict previous =>
          if decide (previous !! "text" = Some (VStr text)) then
            match previous !! "message_id" with
            | Some id =>
                send_message (SendMessage (chat_id (msg_chat m)) see_last_reply (Some id) []);;
                mret tt
            | None => lift (inl KeyError)
            end
          else
            sent ← reply_to m text kw;
            let previous := update_record text sent previous in
            Beaker.put (reply_cache text) (inl (chat_id (msg_chat m))) (ODict previous)
      | _ => lift (inl AttributeError)
      end) w).1
  = Beaker.stored ns key w.
Proof.
  intros Hne. destruct previous as [d| |]; [|reflexivity|reflexivity].
  destruct (decide _) as [_|_].
  - destruct (d !! "message_id") as [id|]; [|reflexivity].
    unfold mbind, M_bind.
    pose proof (send_message_cache
                  (SendMessage (chat_id (msg_chat m)) see_last_reply (Some id) []) w) as Hc.
    destruct (send_message _ w) as [w' [e|v]]; cbn [fst snd mret M_ret] in Hc |- *;
      unfold Beaker.stored; now rewrite Hc.
  - unfold mbind, M_bind, reply_to.
    pose proof (send_message_cache (real_send m text kw) w) as Hc.
    fold (real_send m text kw).
    destruct (send_message _ w) as [w' [e|v]]; cbn [fst] in Hc |- *.
    + unfold Beaker.stored. now rewrite Hc.
    + rewrite stored_put_other by congruence. unfold Beaker.stored. now rewrite Hc.
Qed.

(** [_smart_reply] writes the cache under the key of the reply only:
    the cache named after the reply text, at the id of the chat. *)
Lemma smart_reply_stored_other m text kw w ns key :
  (ns, key) <> (reply_cache text, inl (chat_id (msg_chat m))) ->
  Beaker.stored ns key (_smart_reply m text kw w).1 = Beaker.stored ns key w.
Proof.
  intros Hne. unfold _smart_reply.
  destruct (decide _) as [_|_].
  - unfold mbind at 1. unfold M_bind at 1.
    destruct (Beaker.current_value (reply_cache text) (inl (chat_id (msg_chat m))) w)
      as [previous|] eqn:Hcur.
    + rewrite (get_hit _ _ _ _ _ Hcur). now apply smart_reply_tail_stored_other.
    + rewrite (get_miss _ _ _ _ Hcur). cbn [mret M_ret].
      etransitivity;
        [exact (smart_reply_tail_stored_other m text kw (ODict ∅) _ ns key Hne)|].
      now rewrite stored_put_other by congruence.
  - unfold mbind, M_bind, reply_to.
    pose proof (send_message_cache
                  (SendMessage (chat_id (msg_chat m)) text (Some (VInt (message_id m))) kw)
                  w) as Hc.
    destruct (send_message _ w) as [w' [e|v]]; cbn [fst snd mret M_ret] in Hc |- *;
      unfold Beaker.stored; now rewrite Hc.
Qed.

(** A reply that is new stays new as time passes, as long as nothing
    is stored under its key. *)
Lemma reply_is_new_stored_later m text w w' :
  reply_is_new m text w ->
  Beaker.stored (reply_cache text) (inl (chat_id (msg_chat m))) w'
  = Beaker.stored (reply_cache text) (inl (chat_id (msg_chat m))) w ->
  (clock w <= clock w')%Q ->
  reply_is_new m text w'.
Proof.
  unfold reply_is_new, reply_record, Beaker.current_value.
  intros Hnew -> Hle.
  destruct (Beaker.stored _ _ w) as [[t v]|]; [|exact I].
  destruct (Beaker.is_expired (clock w) t) eqn:E.
  - now rewrite (is_expired_mono _ _ _ Hle E).
  - destruct (Beaker.is_expired (clock w') t); [exact I|exact Hnew].
Qed.

(** X7: the records of the last reply are kept per chat. A reply in one
    chat leaves the record of every other chat as it was, so a text that
    is new in a group is sent there in full even when another chat has
    just been sent the same text. *)
Theorem smart_reply_per_chat
    (m1 m2 : message) (text : string) (kw1 kw2 : kwargs) (w : world) (d : Q) :
  chat_id (msg_chat m1) <> chat_id (msg_chat m2) ->
  in_group m2 ->
  reply_is_new m2 text w ->
  (clock w <= clock (_smart_reply m1 text kw1 w).1 + d)%Q ->
  let w1 := (_smart_reply m1 text kw1 w).1 in
  Beaker.stored (reply_cache text) (inl (chat_id (msg_chat m2))) w1
  = Beaker.stored (reply_cache text) (inl (chat_id (msg_chat m2))) w
  /\ outbox (_smart_reply m2 text kw2 (advance d w1)).1
     = outbox w1 ++ [(real_send m2 text kw2,
                      (telegram (length (outbox w1)) (real_send m2 text kw2)).2)].
Proof.
  intros Hchat Hg Hnew Hclock w1.
  assert (Hs : Beaker.stored (reply_cache text) (inl (chat_id (msg_chat m2))) w1
               = Beaker.stored (reply_cache text) (inl (chat_id (msg_chat m2))) w).
  { apply smart_reply_stored_other. congruence. }
  split; [exact Hs|].
  assert (Hnew' : reply_is_new m2 text (advance d w1)).
  { apply (reply_is_new_stored_later _ _ w); [exact Hnew|exact Hs|exact Hclock]. }
  exact (smart_reply_new_outbox _ _ kw2 _ Hg Hnew').
Qed.

End SmartReplyMore.

(** ** More on [_format_events] *)

Section FormatEventsMore.
Context `{Util}.

Lemma rendering_of_refl ev : rendering_of ev ev.
Proof. unfold rendering_of. auto. Qed.

(** Whatever it returns, the loop keeps the heap's size and every name
    and link, changes no event outside its list, and changes an event of
    the list at most by rendering its time. *)
Lemma format_loop_only_renders items : forall acc w w1 res,
  format_loop items acc w = (w1, res) ->
  length (heap w1) = length (heap w)
  /\ (forall r ev, heap w !! r = Some ev ->
        exists ev', heap w1 !! r = Some ev' /\ rendering_of ev ev')
  /\ (forall r, r ∉ items -> heap w1 !! r = heap w !! r).
Proof.
  induction items as [|r0 rest IH]; intros acc w w1 res Hrun; cbn [format_loop] in Hrun.
  - inversion Hrun; subst. split; [reflexivity|]. split; [|reflexivity].
    intros r ev Hr. exists ev. split; [exact Hr|apply rendering_of_refl].
  - assert (Hsame : (w1, res) = (w1, res) -> w1 = w ->
               length (heap w1) = length (heap w)
               /\ (forall r ev, heap w !! r = Some ev ->
                     exists ev', heap w1 !! r = Some ev' /\ rendering_of ev ev')
               /\ (forall r, r ∉ r0 :: rest -> heap w1 !! r = heap w !! r)).
    { intros _ ->. split; [reflexivity|]. split; [|reflexivity].
      intros r ev Hr. exists ev. split; [exact Hr|apply rendering_of_refl]. }
    destruct (heap w !! r0) as [ev0|] eqn:H0;
      [|inversion Hrun; subst; now apply Hsame].
    destruct (ev_time ev0) as [ms|time] eqn:Ht0.
    + destruct (fromtimestamp AJU_TZ (ms * 1000)) as [e|dt] eqn:Hdt;
        [inversion Hrun; subst; now apply Hsame|].
      set (ev1 := Event (ev_name ev0) (ev_link ev0) (TStr (strftime_dm_HM AJU_TZ dt))) in *.
      assert (Hev1 : ev1 = rendered ev0).
      { unfold rendered, rendered_time. now rewrite Ht0, Hdt. }
      destruct (IH _ _ _ _ Hrun) as (Hlen & Hev & Hout). cbn [heap set_heap] in *.
      rewrite length_insert in Hlen.
      split; [exact Hlen|]. split.
      * intros r ev Hr. destruct (decide (r = r0)) as [->|Hne].
        -- rewrite H0 in Hr. inversion Hr; subst ev. clear Hr.
           destruct (Hev r0 ev1) as (ev' & Hr' & Hn & Hl & Htime).
           { apply list_lookup_insert_eq. now apply lookup_lt_Some in H0. }
           exists ev'. split; [exact Hr'|].
           assert (ev' = ev1) as ->.
           { destruct Htime as [Htime|(ms' & Hms & _)]; [|discriminate Hms].
             destruct ev'. cbn in *. now subst. }
           split; [reflexivity|]. split; [reflexivity|]. right. exists ms. now split.
        -- apply Hev. now rewrite list_lookup_insert_ne.
      * intros r Hr. apply not_elem_of_cons in Hr as [Hne Hr].
        rewrite (Hout r Hr). now apply list_lookup_insert_ne.
    + destruct (IH _ _ _ _ Hrun) as (Hlen & Hev & Hout).
      split; [exact Hlen|]. split; [exact Hev|].
      intros r Hr. apply not_elem_of_cons in Hr as [_ Hr]. now apply Hout.
Qed.

(** X8: whether it returns or raises, [_format_events] changes nothing
    but the heap of events, and there at most the times of the events of
    its list, each replaced by its rendering: no event appears or
    disappears, no name or link changes, and an event outside the list
    is left alone. *)
Theorem format_events_only_renders_times
    (items : list nat) (w w1 : world) (res : result string) :
  _format_events (OList items) w = (w1, res) ->
  w1 = set_heap (heap w1) w
  /\ length (heap w1) = length (heap w)
  /\ (forall r ev, heap w !! r = Some ev ->
        exists ev', heap w1 !! r = Some ev' /\ rendering_of ev ev')
  /\ (forall r, r ∉ items -> heap w1 !! r = heap w !! r).
Proof.
  unfold _format_events, mbind, M_bind, mret, M_ret. intros Hrun.
  destruct (format_loop items [] w) as [w' res'] eqn:Hloop.
  assert (w' = w1) as ->. { destruct res'; now inversion Hrun. }
  split; [exact (format_loop_frame _ _ _ _ _ Hloop)|].
  exact (format_loop_only_renders _ _ _ _ _ Hloop).
Qed.

(** The loop over a list whose events are the last ones of the heap, in
    order. *)
Lemma format_loop_fresh events : forall h acc w,
  heap w = h ++ events ->
  match events_lines events with
  | inr lines =>
      format_loop (seq (length h) (length events)) acc w
      = (set_heap (h ++ (rendered <$> events)) w, inr (acc ++ lines))
  | inl e => (format_loop (seq (length h) (length events)) acc w).2 = inl e
  end.
Proof.
  induction events as [|ev rest IH]; intros h acc w Hheap.
  - cbn. rewrite !app_nil_r. rewrite app_nil_r in Hheap. rewrite <- Hheap.
    now destruct w.
  - cbn [events_lines length seq format_loop].
    assert (Hlook : heap w !! length h = Some ev).
    { rewrite Hheap. apply list_lookup_middle. reflexivity. }
    rewrite Hlook. unfold rendered_time.
    destruct (ev_time ev) as [ms|time] eqn:Ht.
    + destruct (fromtimestamp AJU_TZ (ms * 1000)) as [e|dt] eqn:Hdt; [reflexivity|].
      set (ev1 := Event (ev_name ev) (ev_link ev) (TStr (strftime_dm_HM AJU_TZ dt))).
      assert (Hev1 : rendered ev = ev1).
      { unfold rendered, rendered_time. now rewrite Ht, Hdt. }
      set (w' := set_heap (<[length h := ev1]> (heap w)) w).
      assert (Hheap' : heap w' = (h ++ [ev1]) ++ rest).
      { cbn. rewrite Hheap, <- app_assoc. cbn.
        rewrite insert_app_r_alt by lia. now rewrite Nat.sub_diag. }
      specialize (IH (h ++ [ev1]) (acc ++ [event_line ev1 (strftime_dm_HM AJU_TZ dt)])
                    w' Hheap').
      rewrite length_app in IH. cbn [length] in IH. rewrite Nat.add_1_r in IH.
      destruct (events_lines rest) as [e|lines]; [exact IH|].
      rewrite IH. cbn [fmap list_fmap]. rewrite Hev1, <- !app_assoc. reflexivity.
    + specialize (IH (h ++ [ev]) (acc ++ [event_line ev time]) w).
      rewrite length_app in IH. cbn [length] in IH. rewrite Nat.add_1_r in IH.
      rewrite <- app_assoc in IH. specialize (IH Hheap).
      destruct (events_lines rest) as [e|lines]; [exact IH|].
      rewrite IH. cbn [fmap list_fmap].
      rewrite (rendered_TStr _ _ Ht), <- !app_assoc. reflexivity.
Qed.

(** X9: on the list [get_events] has just built, [_format_events]
    returns [events_text] of the events Meetup sent: one line per event,
    in Meetup's order, joined by line feeds; it leaves each of them
    rendered in the heap; and it raises what the first time that cannot
    be rendered raises. An empty list gives the empty text. *)
Theorem format_events_new_list (events : list event) (w : world) :
  match events_text events with
  | inr text =>
      (l ← new_list events; _format_events l) w
      = (set_heap (heap w ++ (rendered <$> events)) w, inr text)
  | inl e => ((l ← new_list events; _format_events l) w).2 = inl e
  end.
Proof.
  unfold events_text, new_list, _format_events.
  unfold mbind at 1 3. unfold M_bind at 1 3. cbn [fst snd].
  pose proof (format_loop_fresh events (heap w) [] (set_heap (heap w ++ events) w) eq_refl)
    as Hloop.
  unfold mbind, M_bind, mret, M_ret.
  destruct (events_lines events) as [e|lines].
  - destruct (format_loop _ _ _) as [w' [e'|l]]; cbn in Hloop |- *; congruence.
  - rewrite Hloop. reflexivity.
Qed.

End FormatEventsMore.

(** ** [/events] asked twice *)

Section EventsTwice.
Context `{Util} `{Net} `{Config}.

(** The loop reads and writes the heap only. *)
Lemma format_loop_heap_only items : forall acc w w',
  heap w' = heap w ->
  format_loop items acc w'
  = let '(w1, res) := format_loop items acc w in (set_heap (heap w1) w', res).
Proof.
  induction items as [|r0 rest IH]; intros acc w w' Hh; cbn [format_loop].
  - rewrite <- Hh. now destruct w'.
  - rewrite Hh. destruct (heap w !! r0) as [ev0|]; [|rewrite <- Hh; now destruct w'].
    destruct (ev_time ev0) as [ms|time].
    + destruct (fromtimestamp AJU_TZ (ms * 1000)) as [e|dt]; [rewrite <- Hh; now destruct w'|].
      rewrite (IH _ (set_heap (<[r0:=_]> (heap w)) w)
                 (set_heap (<[r0:=_]> (heap w)) w') eq_refl).
      now destruct (format_loop rest _ _).
    + now apply IH.
Qed.

(** A formatting that changes nothing keeps doing so in every world
    with the same heap. *)
Lemma format_events_stable items w w' text :
  _format_events (OList items) w = (w, inr text) ->
  heap w' = heap w ->
  _format_events (OList items) w' = (w', inr text).
Proof.
  unfold _format_events, mbind, M_bind, mret, M_ret. intros Hrun Hh.
  rewrite (format_loop_heap_only _ _ w w' Hh).
  destruct (format_loop items [] w) as [w1 [e|lines]]; [discriminate|].
  inversion Hrun; subst. rewrite <- Hh. now destruct w'.
Qed.

(** [_smart_reply] leaves the heap of events and the list of requests
    as they are. *)
Lemma smart_reply_heap_requests m text kw w :
  same_heap_and_requests w (_smart_reply m text kw w).1.
Proof.
  assert (Hsend : forall s w0, same_heap_and_requests w0 (send_message s w0).1).
  { intros s w0. unfold send_message. now destruct (telegram _ _). }
  assert (Htail : forall previous w0,
             same_heap_and_requests w0
               ((match previous with
                 | ODict previous =>
                     if decide (previous !! "text" = Some (VStr text)) then
                       match previous !! "message_id" with
                       | Some id =>
                           send_message (SendMessage (chat_id (msg_chat m))
                                           see_last_reply (Some id) []);;
                           mret tt
                       | None => lift (inl KeyError)
                       end
                     else
                       sent ← reply_to m text kw;
                       let previous := update_record text sent previous in
                       Beaker.put (reply_cache text) (inl (chat_id (msg_chat m)))
                         (ODict previous)
                 | _ => lift (inl AttributeError)
                 end) w0).1).
  { intros previous w0. destruct previous as [d| |]; [|now split|now split].
    destruct (decide _) as [_|_].
    - destruct (d !! "message_id") as [id|]; [|now split].
      unfold mbind, M_bind.
      pose proof (Hsend (SendMessage (chat_id (msg_chat m)) see_last_reply (Some id) [])
                    w0) as Hs.
      destruct (send_message _ w0) as [w' [e|v]]; exact Hs.
    - unfold mbind, M_bind, reply_to.
      pose proof (Hsend (SendMessage (chat_id (msg_chat m)) text
                           (Some (VInt (message_id m))) kw) w0) as Hs.
      destruct (send_message _ w0) as [w' [e|v]]; exact Hs. }
  unfold _smart_reply. destruct (decide _) as [_|_].
  - unfold mbind at 1. unfold M_bind at 1.
    destruct (Beaker.current_value (reply_cache text) (inl (chat_id (msg_chat m))) w)
      as [previous|] eqn:Hcur.
    + rewrite (get_hit _ _ _ _ _ Hcur). apply Htail.
    + rewrite (get_miss _ _ _ _ Hcur). cbn [mret M_ret].
      exact (Htail (ODict ∅) _).
  - unfold mbind, M_bind, reply_to.
    pose proof (Hsend (SendMessage (chat_id (msg_chat m)) text
                         (Some (VInt (message_id m))) kw) w) as Hs.
    destruct (send_message _ w) as [w' [e|v]]; exact Hs.
Qed.

(** The handler of [/events] on a miss that Meetup answers, in a group
    where the text is new and Telegram takes it. *)
Lemma events_first_in_group m w tq ts resp events text id :
  in_group m ->
  fetch_value (GetEvents (Some 5)) w = None ->
  requests_get (length (requests w)) (events_request 5) = (tq, inr resp) ->
  json resp = inr events ->
  events_text events = inr text ->
  reply_is_new m text w ->
  telegram (length (outbox w)) (real_send m text markdown) = (ts, inr id) ->
  (0 <= tq)%Q ->
  exists w1 d0,
    list_upcoming_events m w = (w1, inr tt)
    /\ requests w1 = requests w ++ [events_request 5]
    /\ outbox w1 = outbox w ++ [(real_send m text markdown, inr id)]
    /\ clock w1 = (clock w + tq + ts)%Q
    /\ Beaker.stored (Beaker.func_namespace "get_events") (events_key (Some 5)) w1
       = Some ((clock w + tq)%Q, OList (seq (length (heap w)) (length events)))
    /\ Beaker.stored (reply_cache text) (inl (chat_id (msg_chat m))) w1
       = Some ((clock w + tq + ts)%Q, ODict (update_record text id d0))
    /\ _format_events (OList (seq (length (heap w)) (length events))) w1 = (w1, inr text).
Proof.
  intros Hg Hmiss Hreq Hjson Htext Hnew Hsend Htq.
  unfold list_upcoming_events, try_except. unfold mbind at 1. unfold M_bind at 1.
  cbn [logging_info].
  set (w0 := set_log _ w).
  set (refs := seq (length (heap w)) (length events)).
  (* the fetch *)
  set (wq := set_clock (clock w0 + tq)%Q
               (set_requests (requests w0 ++ [events_request 5]) w0)).
  set (wa := (Beaker.put (Beaker.func_namespace "get_events") (events_key (Some 5))
                (OList refs) (set_heap (heap wq ++ events) wq)).1).
  assert (Hget : get_events (Some 5) w0 = (wa, inr (OList refs))).
  { unfold get_events. rewrite (get_miss _ _ _ w0 Hmiss).
    unfold generate_events, mbind, M_bind, http_get, lift, new_list.
    change (length (requests w0)) with (length (requests w)).
    change (default 5 (Some 5)) with 5. rewrite Hreq, Hjson. reflexivity. }
  (* the formatting *)
  set (wb := set_heap (heap w ++ (rendered <$> events)) wa).
  assert (Hfmt : _format_events (OList refs) wa = (wb, inr text)).
  { unfold events_text in Htext.
    pose proof (format_loop_fresh events (heap w) [] wa eq_refl) as Hloop.
    destruct (events_lines events) as [e|lines]; [discriminate|].
    inversion Htext; subst text.
    unfold _format_events, mbind, M_bind, mret, M_ret. fold refs in Hloop.
    rewrite Hloop. reflexivity. }
  destruct (format_events_again _ _ _ _ Hfmt) as [Hstable _].
  (* the reply *)
  assert (Hnewb : reply_is_new m text wb).
  { apply (reply_is_new_stored_later _ _ w); [exact Hnew| |cbn; lra].
    change (Beaker.stored ?n ?k wb) with (Beaker.stored n k wa).
    unfold wa. now rewrite stored_put_other. }
  destruct (smart_reply_new_accepted m text markdown wb ts id Hg Hnewb Hsend)
    as (w1 & d0 & Hrun & Ho & Hk & Hs).
  pose proof (smart_reply_heap_requests m text markdown wb) as [Hh Hr].
  rewrite Hrun in Hh, Hr. cbn [fst] in Hh, Hr.
  exists w1, d0.
  unfold mbind, M_bind. rewrite Hget, Hfmt, Hrun.
  split; [reflexivity|]. split; [exact Hr|]. split; [exact Ho|].
  split; [exact Hk|]. split; [|split; [exact Hs|]].
  - pose proof (smart_reply_stored_other m text markdown wb
                  (Beaker.func_namespace "get_events") (events_key (Some 5))) as Hso.
    rewrite Hrun in Hso. cbn [fst] in Hso. rewrite Hso by discriminate.
    change (Beaker.stored ?n ?k wb) with (Beaker.stored n k wa).
    unfold wa. apply stored_put.
  - apply (format_events_stable _ wb); [exact Hstable|exact Hh].
Qed.

(** X10: [/events] asked twice in a group. Meetup answers the first
    request with events whose times can be rendered, the text is new in
    the group and Telegram takes it, which lasts [ts] seconds; the
    second [/events] comes [d] seconds after the first handler returned,
    with [ts + d < 600]: less than 600 seconds after Meetup's response,
    the moment the list was cached, which is before the reply was sent.
    Then the two handlers together make one request to Meetup and two
    sends: the text of the events, in full, and for the second asker a
    pointer to that message. *)
Theorem events_twice_in_group
    (m1 m2 : message) (w : world) (tq ts d : Q) (resp : response)
    (events : list event) (text : string) (id : Z) :
  in_group m1 -> msg_chat m2 = msg_chat m1 ->
  fetch_value (GetEvents (Some 5)) w = None ->
  requests_get (length (requests w)) (events_request 5) = (tq, inr resp) ->
  json resp = inr events ->
  events_text events = inr text ->
  reply_is_new m1 text w ->
  telegram (length (outbox w)) (real_send m1 text markdown) = (ts, inr id) ->
  (0 <= tq)%Q -> (0 <= ts)%Q -> (ts + d < 600)%Q ->
  let w1 := (list_upcoming_events m1 w).1 in
  let w2 := (list_upcoming_events m2 (advance d w1)).1 in
  requests w2 = requests w ++ [events_request 5]
  /\ outbox w2
     = outbox w ++ [ (real_send m1 text markdown, inr id);
                     (pointer_send m2 (VInt id),
                      (telegram (S (length (outbox w))) (pointer_send m2 (VInt id))).2) ].
Proof.
  intros Hg Hchat Hmiss Hreq Hjson Htext Hnew Hsend Htq Hts Hd w1 w2.
  assert (Hg2 : in_group m2) by (unfold in_group; now rewrite Hchat).
  destruct (events_first_in_group m1 w tq ts resp events text id
              Hg Hmiss Hreq Hjson Htext Hnew Hsend Htq)
    as (w1' & d0 & Hrun & Hr & Ho & Hk & Hse & Hsr & Hfmt).
  subst w2 w1. rewrite Hrun. cbn [fst].
  destruct (telegram (S (length (outbox w))) (pointer_send m2 (VInt id))) as [t r] eqn:Htp.
  cbn [snd].
  set (w2 := (list_upcoming_events m2 (advance d w1')).1).
  assert (Hw2 : w2 = (match r with
                      | inl e => logging_exception e
                      | inr _ => mret tt
                      end (sent (pointer_send m2 (VInt id)) t r
                             (logging_info (percent_s (from_username m2) +:+ ": " +:+ "/events")
                                (advance d w1')).1)).1).
  { subst w2.
    unfold list_upcoming_events, try_except. unfold mbind at 1. unfold M_bind at 1.
    cbn [logging_info fst].
    set (w0 := set_log _ (advance d w1')).
    set (refs := seq (length (heap w)) (length events)) in *.
    assert (Hhit : get_events (Some 5) w0 = (w0, inr (OList refs))).
    { unfold get_events. apply get_hit. apply current_value_stored.
      exists (clock w + tq)%Q. split; [exact Hse|].
      change (clock w0) with (clock w1' + d)%Q. rewrite Hk.
      unfold Beaker.is_expired, Beaker.expire. apply Qle_bool_false. lra. }
    assert (Hfmt0 : _format_events (OList refs) w0 = (w0, inr text)).
    { apply (format_events_stable _ w1'); [exact Hfmt|reflexivity]. }
    assert (Hrec : reply_record m2 text w0 = Some (ODict (update_record text id d0))).
    { unfold reply_record. rewrite Hchat. apply current_value_stored.
      exists (clock w + tq + ts)%Q. split; [exact Hsr|].
      change (clock w0) with (clock w1' + d)%Q. rewrite Hk.
      unfold Beaker.is_expired, Beaker.expire. apply Qle_bool_false. lra. }
    assert (Hlen : length (outbox w0) = S (length (outbox w))).
    { change (outbox w0) with (outbox w1'). rewrite Ho, length_app. cbn. apply Nat.add_1_r. }
    rewrite <- Hlen in Htp.
    unfold mbind, M_bind. rewrite Hhit, Hfmt0.
    rewrite (smart_reply_duplicate m2 text markdown w0 _ _ t r Hg2 Hrec
               (lookup_update_record_text _ _ _) (lookup_update_record_id _ _ _) Htp).
    destruct r; reflexivity. }
  rewrite Hw2. destruct r as [e|v]; cbn; rewrite Ho, Hr, <- app_assoc; split; reflexivity.
Qed.

End EventsTwice.

(** ** The handlers when a fetch goes wrong *)

Section EventsLogged.
Context `{Util} `{Net} `{Config}.

(** [get_events] writes nothing to the log. *)
Lemma get_events_log list_size w : log (get_events list_size w).1 = log w.
Proof.
  unfold get_events, Beaker.get.
  destruct (Beaker.current_value _ _ w) as [v|]; [reflexivity|].
  cbv [mbind M_bind generate_events http_get new_list lift Beaker.put mret M_ret].
  match goal with
  | |- context [requests_get ?n ?q] => destruct (requests_get n q) as [d [e|r]]
  end; [reflexivity|].
  destruct (json r) as [e|events]; reflexivity.
Qed.

(** Nor does [_format_events]. *)
Lemma format_events_log events w : log (_format_events events w).1 = log w.
Proof.
  destruct events as [d|items|book expires]; cbn [_format_events].
  - now destruct (decide (d = ∅)).
  - unfold mbind, M_bind.
    destruct (format_loop items [] w) as [w1 [e|lines]] eqn:Hloop;
      apply format_loop_frame in Hloop; rewrite Hloop; reflexivity.
  - reflexivity.
Qed.

(** Nor does [_smart_reply]. *)
Lemma smart_reply_log m text kw w : log (_smart_reply m text kw w).1 = log w.
Proof.
  assert (Hsend : forall s w0, log (send_message s w0).1 = log w0).
  { intros s w0. unfold send_message. now destruct (telegram _ _). }
  assert (Htail : forall previous w0,
             log ((match previous with
                   | ODict previous =>
                       if decide (previous !! "text" = Some (VStr text)) then
                         match previous !! "message_id" with
                         | Some id =>
                             send_message (SendMessage (chat_id (msg_chat m))
                                             see_last_reply (Some id) []);;
                             mret tt
                         | None => lift (inl KeyError)
                         end
                       else
                         sent ← reply_to m text kw;
                         let previous := update_record text sent previous in
                         Beaker.put (reply_cache text) (inl (chat_id (msg_chat m)))
                           (ODict previous)
                   | _ => lift (inl AttributeError)
                   end) w0).1 = log w0).
  { intros previous w0. destruct previous as [d| |]; [|reflexivity|reflexivity].
    destruct (decide _) as [_|_].
    - destruct (d !! "message_id") as [id|]; [|reflexivity].
      unfold mbind, M_bind.
      pose proof (Hsend (SendMessage (chat_id (msg_chat m)) see_last_reply (Some id) [])
                    w0) as Hs.
      destruct (send_message _ w0) as [w' [e|v]]; exact Hs.
    - unfold mbind, M_bind, reply_to.
      pose proof (Hsend (SendMessage (chat_id (msg_chat m)) text
                           (Some (VInt (message_id m))) kw) w0) as Hs.
      destruct (send_message _ w0) as [w' [e|v]]; exact Hs. }
  unfold _smart_reply. destruct (decide _) as [_|_].
  - unfold mbind at 1. unfold M_bind at 1.
    destruct (Beaker.current_value (reply_cache text) (inl (chat_id (msg_chat m))) w)
      as [previous|] eqn:Hcur.
    + rewrite (get_hit _ _ _ _ _ Hcur). apply Htail.
    + rewrite (get_miss _ _ _ _ Hcur). cbn [mret M_ret].
      exact (Htail (ODict ∅) _).
  - unfold mbind, M_bind, reply_to.
    pose proof (Hsend (SendMessage (chat_id (msg_chat m)) text
                         (Some (VInt (message_id m))) kw) w) as Hs.
    destruct (send_message _ w) as [w' [e|v]]; exact Hs.
Qed.

(** X5: the handler of [/events] never raises, and what it caught is
    in the log. After its own line, the fetch, the formatting and the
    reply run in turn; whichever of them raises, the handler returns
    with the world that stage left and that exception as the one new
    entry of the log. When none raises the log has the handler's line
    only. *)
Theorem list_upcoming_events_never_raises (m : message) (w : world) :
  let info := LogInfo (percent_s (from_username m) +:+ ": " +:+ "/events") in
  let caught w' e := set_log (log w ++ [info; LogException e]) w' in
  let '(w1, res) := list_upcoming_events m w in
  res = inr tt
  /\ match get_events (Some 5) (set_log (log w ++ [info]) w) with
     | (wg, inl e) => w1 = caught wg e
     | (wg, inr next_events) =>
         match _format_events next_events wg with
         | (wf, inl e) => w1 = caught wf e
         | (wf, inr response) =>
             match _smart_reply m response markdown wf with
             | (ws, inl e) => w1 = caught ws e
             | (ws, inr _) => w1 = ws /\ log ws = log w ++ [info]
             end
         end
     end.
Proof.
  intros info caught.
  unfold list_upcoming_events, try_except, mbind, M_bind, logging_exception.
  cbn [logging_info]. fold info.
  set (w0 := set_log (log w ++ [info]) w).
  pose proof (get_events_log (Some 5) w0) as Hg.
  destruct (get_events (Some 5) w0) as [wg [e|next_events]]; cbn [fst] in Hg.
  { split; [reflexivity|]. unfold caught. rewrite Hg. cbn. now rewrite <- app_assoc. }
  pose proof (format_events_log next_events wg) as Hf.
  destruct (_format_events next_events wg) as [wf [e|response]]; cbn [fst] in Hf.
  { split; [reflexivity|]. unfold caught. rewrite Hf, Hg. cbn. now rewrite <- app_assoc. }
  pose proof (smart_reply_log m response markdown wf) as Hs.
  destruct (_smart_reply m response markdown wf) as [ws [e|[]]]; cbn [fst] in Hs.
  { split; [reflexivity|]. unfold caught. rewrite Hs, Hf, Hg. cbn. now rewrite <- app_assoc. }
  split; [reflexivity|]. split; [reflexivity|]. now rewrite Hs, Hf, Hg.
Qed.

End EventsLogged.

Section HandlersFailing.
Context `{Util} `{Bs4} `{Codecs} `{Net} `{Config}.

Lemma http_get_outcome req w t r :
  requests_get (length (requests w)) req = (t, r) ->
  http_get req w
  = (set_clock (clock w + t)%Q (set_requests (requests w ++ [req]) w), r).
Proof. unfold http_get. now intros ->. Qed.

(** X11: with Meetup and Packt out of reach, neither handler sends
    anything or caches anything, and each makes its one request; but
    [/events] returns, with the exception in the log, while [/book]
    raises it to its caller. *)
Theorem handlers_when_fetch_fails
    (m : message) (now : option datetime) (w : world) (t t' : Q) (e e' : exn) :
  fetch_value (GetEvents (Some 5)) w = None ->
  fetch_value GetPacktFreeBook w = None ->
  requests_get (length (requests w)) (events_request 5) = (t, inl e) ->
  requests_get (length (requests w)) book_request = (t', inl e') ->
  (let '(w1, res) := list_upcoming_events m w in
   res = inr tt
   /\ log w1 = log w ++ [ LogInfo (percent_s (from_username m) +:+ ": " +:+ "/events");
                          LogException e ]
   /\ outbox w1 = outbox w /\ cache w1 = cache w
   /\ requests w1 = requests w ++ [events_request 5])
  /\ (let '(w1, res) := packtpub_free_learning m now w in
      res = inl e'
      /\ log w1 = log w ++ [ LogInfo (percent_s (from_username m) +:+ ": " +:+ "/book") ]
      /\ outbox w1 = outbox w /\ cache w1 = cache w
      /\ requests w1 = requests w ++ [book_request]).
Proof.
  intros Hme Hmb Hre Hrb. split.
  - unfold list_upcoming_events, try_except. unfold mbind at 1. unfold M_bind at 1.
    cbn [logging_info].
    set (w0 := set_log _ w).
    assert (Hget : get_events (Some 5) w0
                   = (set_clock (clock w0 + t)%Q
                        (set_requests (requests w0 ++ [events_request 5]) w0), inl e)).
    { unfold get_events. rewrite (get_miss _ _ _ w0 Hme).
      unfold generate_events, mbind, M_bind.
      change (default 5 (Some 5)) with 5.
      rewrite (http_get_outcome _ w0 _ _ Hre). reflexivity. }
    unfold mbind, M_bind. rewrite Hget. cbn.
    rewrite <- app_assoc. repeat split; reflexivity.
  - unfold packtpub_free_learning. unfold mbind at 1. unfold M_bind at 1.
    cbn [logging_info].
    set (w0 := set_log _ w).
    assert (Hget : get_packt_free_book w0
                   = (set_clock (clock w0 + t')%Q
                        (set_requests (requests w0 ++ [book_request]) w0), inl e')).
    { unfold get_packt_free_book. rewrite (get_miss _ _ _ w0 Hmb).
      unfold mbind, M_bind.
      rewrite (http_get_outcome _ w0 _ _ Hrb). reflexivity. }
    unfold mbind, M_bind. rewrite Hget. cbn. repeat split; reflexivity.
Qed.

(** X12: an offer whose countdown [datetime] cannot represent (a value
    in milliseconds, say) is cached like any other. [/book] then raises
    what [fromtimestamp] raises and sends nothing, and so does every
    [/book] of the next 600 seconds, without asking Packt again. *)
Theorem book_countdown_out_of_range
    (m m' : message) (now now' : option datetime) (w : world) (tq d : Q)
    (resp : response) (logged : list exn) (book : string) (expires : Z) (err : exn) :
  fetch_value GetPacktFreeBook w = None ->
  requests_get (length (requests w)) book_request = (tq, inr resp) ->
  extract_packt_free_book (PBytes (content resp)) (encoding resp)
  = (logged, inr (book, expires)) ->
  fromtimestamp AJU_TZ (expires * 1000000) = inl err ->
  (d < 600)%Q ->
  let '(w1, res1) := packtpub_free_learning m now w in
  let '(w2, res2) := packtpub_free_learning m' now' (advance d w1) in
  res1 = inl err /\ res2 = inl err
  /\ fetch_value GetPacktFreeBook w1 = Some (OTuple book expires)
  /\ outbox w2 = outbox w
  /\ requests w2 = requests w ++ [book_request].
Proof.
  intros Hmiss Hreq Hext Hts Hd.
  assert (Hresp : forall today n, _book_response today book expires n = inl err).
  { intros today n. unfold _book_response. now rewrite Hts. }
  (* the first call *)
  unfold packtpub_free_learning at 1. unfold mbind at 1. unfold M_bind at 1.
  cbn [logging_info].
  set (w0 := set_log _ w).
  set (wq := set_clock (clock w0 + tq)%Q (set_requests (requests w0 ++ [book_request]) w0)).
  set (wa := (Beaker.put (Beaker.func_namespace "get_packt_free_book")
                (inr "get_packt_free_book") (OTuple book expires)
                (set_log (log wq ++ (LogException <$> logged)) wq)).1).
  assert (Hget : get_packt_free_book w0 = (wa, inr (OTuple book expires))).
  { unfold get_packt_free_book. rewrite (get_miss _ _ _ w0 Hmiss).
    unfold mbind, M_bind. rewrite (http_get_outcome _ w0 _ _ Hreq).
    unfold extract_response. rewrite Hext. reflexivity. }
  unfold mbind at 1. unfold M_bind at 1. rewrite Hget.
  unfold mbind at 1. unfold M_bind at 1. cbn [datetime_now].
  unfold mbind at 1. unfold M_bind at 1. unfold lift at 1. rewrite Hresp.
  (* the second call *)
  unfold packtpub_free_learning. unfold mbind at 1. unfold M_bind at 1.
  cbn [logging_info].
  set (w0' := set_log _ (advance d wa)).
  assert (Hcur : Beaker.current_value (Beaker.func_namespace "get_packt_free_book")
                   (inr "get_packt_free_book") wa = Some (OTuple book expires)).
  { unfold wa. apply current_value_put. }
  assert (Hhit : get_packt_free_book w0' = (w0', inr (OTuple book expires))).
  { unfold get_packt_free_book. apply get_hit. apply current_value_stored.
    eexists. split; [unfold w0', wa; apply stored_put|].
    change (Beaker.is_expired (clock wq + d) (clock wq) = false).
    now apply is_expired_after. }
  unfold mbind at 1. unfold M_bind at 1. rewrite Hhit.
  unfold mbind at 1. unfold M_bind at 1. cbn [datetime_now].
  unfold mbind at 1. unfold M_bind at 1. unfold lift at 1. rewrite Hresp.
  split; [reflexivity|]. split; [reflexivity|]. split; [exact Hcur|].
  split; reflexivity.
Qed.

End HandlersFailing.

(** ** Stripping *)

Section Strip.
Variable p : ascii -> bool.

Lemma lstrip_of_trimmed s : starts_in p s = false -> lstrip_of p s = s.
Proof. destruct s as [|c s]; cbn; [reflexivity|]. now intros ->. Qed.

Lemma rstrip_of_trimmed s : ends_in p s = false -> rstrip_of p s = s.
Proof.
  induction s as [|c s IH]; cbn [ends_in rstrip_of]; [reflexivity|].
  destruct s as [|c' s].
  - cbn. now intros ->.
  - intros E. rewrite (IH E). reflexivity.
Qed.

(** A text with nothing to strip is its own [strip]. *)
Lemma strip_of_trimmed s : trimmed_of p s -> strip_of p s = s.
Proof.
  intros [Hs He]. unfold strip_of. rewrite (lstrip_of_trimmed _ Hs).
  now apply rstrip_of_trimmed.
Qed.

Lemma lstrip_of_starts s : starts_in p (lstrip_of p s) = false.
Proof.
  induction s as [|c s IH]; cbn [lstrip_of]; [reflexivity|].
  destruct (p c) eqn:E; [exact IH|]. cbn. exact E.
Qed.

Lemma rstrip_of_ends s : ends_in p (rstrip_of p s) = false.
Proof.
  induction s as [|c s IH]; cbn [rstrip_of]; [reflexivity|].
  destruct (rstrip_of p s) as [|c' t] eqn:E.
  - destruct (p c) eqn:Ec; cbn; [reflexivity|exact Ec].
  - exact IH.
Qed.

Lemma rstrip_of_starts s : starts_in p s = false -> starts_in p (rstrip_of p s) = false.
Proof.
  destruct s as [|c s]; cbn [rstrip_of starts_in]; [reflexivity|].
  intros E. destruct (rstrip_of p s); [|exact E].
  rewrite E. exact E.
Qed.

(** What [strip] returns has nothing left to strip. *)
Lemma strip_of_is_trimmed s : trimmed_of p (strip_of p s).
Proof.
  unfold strip_of. split.
  - apply rstrip_of_starts, lstrip_of_starts.
  - apply rstrip_of_ends.
Qed.

End Strip.

(** ** What [book_re] captures *)

Section ReOrder.

Lemma append_cons x (a b : string) : String x a +:+ b = String x (a +:+ b).
Proof. reflexivity. Qed.

Lemma append_empty (b : string) : EmptyString +:+ b = b.
Proof. reflexivity. Qed.

Lemma length_append (a b : string) :
  String.length (a +:+ b) = (String.length a + String.length b)%nat.
Proof.
  induction a as [|c a IH]; [reflexivity|].
  rewrite append_cons. cbn [String.length]. now rewrite IH.
Qed.

Lemma append_assoc (a b c : string) : (a +:+ b) +:+ c = a +:+ (b +:+ c).
Proof.
  induction a as [|x a IH]; [reflexivity|].
  rewrite !append_cons. now rewrite IH.
Qed.

Lemma strip_prefix_append l : forall s s',
  Re.strip_prefix l s = Some s' -> s = l +:+ s'.
Proof.
  induction l as [|a l IH]; intros s s' E; cbn in E.
  - now inversion E.
  - destruct s as [|b s]; [discriminate|].
    destruct (Ascii.eqb a b) eqn:Eab; [|discriminate].
    apply Ascii.eqb_eq in Eab. subst b. rewrite append_cons. f_equal. now apply IH.
Qed.

Lemma substring_prefix b c : substring 0 (String.length b) (b +:+ c) = b.
Proof.
  induction b as [|x b IH].
  - rewrite append_empty. now destruct c.
  - rewrite append_cons. cbn [String.length substring]. now rewrite IH.
Qed.

(** The text between two offsets of a subject cut in three. *)
Lemma substring_middle a b c :
  substring (String.length a) (String.length b) (a +:+ b +:+ c) = b.
Proof.
  induction a as [|x a IH].
  - rewrite append_empty. apply substring_prefix.
  - rewrite append_cons. cbn [String.length substring]. exact IH.
Qed.

(** Whether a pattern matches does not depend on the offset or on the
    marks it starts with. *)
Lemma match_here_none pat : forall s pos mk pos' mk',
  Re.match_here pat s pos mk = None -> Re.match_here pat s pos' mk' = None.
Proof.
  induction pat as [|n rest IH]; intros s pos mk pos' mk' Hm; [discriminate|].
  destruct n as [l|p|p|p|j]; cbn [Re.match_here] in *.
  - destruct (Re.strip_prefix l s); [|reflexivity]. exact (IH _ _ _ _ _ Hm).
  - destruct s as [|c s]; [reflexivity|]. destruct (p c); [|reflexivity].
    exact (IH _ _ _ _ _ Hm).
  - revert pos pos' Hm. induction s as [|c s IHs]; intros pos pos' Hm.
    + destruct (Re.match_here rest EmptyString pos mk) eqn:E; [discriminate|].
      now rewrite (IH _ _ _ pos' mk' E).
    + destruct (Re.match_here rest (String c s) pos mk) eqn:E; [discriminate|].
      rewrite (IH _ _ _ pos' mk' E). destruct (p c); [|reflexivity].
      exact (IHs _ _ Hm).
  - revert pos pos' Hm. induction s as [|c s IHs]; intros pos pos' Hm.
    + exact (IH _ _ _ _ _ Hm).
    + destruct (p c); [|exact (IH _ _ _ _ _ Hm)].
      match type of Hm with
      | match ?g with _ => _ end = _ => destruct g as [r|] eqn:E
      end; [discriminate|].
      rewrite (IHs _ (S pos') E). exact (IH _ _ _ _ _ Hm).
  - exact (IH _ _ _ _ _ Hm).
Qed.


(** A match of [p1 ++ p2] is a way through [p1], over a piece [g] of the
    text that only sets the marks of [p1], followed by a match of
    [p2]. *)
Lemma match_here_app p1 p2 : forall s pos mk r,
  Re.match_here (p1 ++ p2) s pos mk = Some r ->
  exists g s' mk',
    s = g +:+ s'
    /\ (forall i, i ∉ marks_of p1 -> mk' !! i = mk !! i)
    /\ Re.match_here p2 s' (pos + String.length g) mk' = Some r.
Proof.
  induction p1 as [|n rest IH]; intros s pos mk r Hm.
  - exists EmptyString, s, mk. cbn [String.length]. rewrite Nat.add_0_r. auto.
  - rewrite <- app_comm_cons in Hm.
    destruct n as [l|p|p|p|j]; cbn [Re.match_here marks_of] in *.
    + destruct (Re.strip_prefix l s) as [s1|] eqn:E; [|discriminate].
      apply strip_prefix_append in E. subst s.
      destruct (IH _ _ _ _ Hm) as (g & s' & mk' & -> & Hmk & Hp2).
      exists (l +:+ g), s', mk'. rewrite append_assoc, length_append, Nat.add_assoc. auto.
    + destruct s as [|c s]; [discriminate|]. destruct (p c); [|discriminate].
      destruct (IH _ _ _ _ Hm) as (g & s' & mk' & -> & Hmk & Hp2).
      exists (String c g), s', mk'. cbn [String.length]. rewrite Nat.add_succ_r. auto.
    + revert pos Hm. induction s as [|c s IHs]; intros pos Hm.
      * destruct (Re.match_here (rest ++ p2) EmptyString pos mk) eqn:E; [|discriminate].
        inversion Hm; subst. exact (IH _ _ _ _ E).
      * destruct (Re.match_here (rest ++ p2) (String c s) pos mk) eqn:E.
        -- inversion Hm; subst. exact (IH _ _ _ _ E).
        -- destruct (p c); [|discriminate].
           destruct (IHs _ Hm) as (g & s' & mk' & -> & Hmk & Hp2).
           exists (String c g), s', mk'. cbn [String.length]. rewrite Nat.add_succ_r. auto.
    + revert pos Hm. induction s as [|c s IHs]; intros pos Hm.
      * exact (IH _ _ _ _ Hm).
      * destruct (p c); [|exact (IH _ _ _ _ Hm)].
        match type of Hm with
        | match ?g with _ => _ end = _ => destruct g as [r0|] eqn:E
        end; [|exact (IH _ _ _ _ Hm)].
        inversion Hm; subst.
        destruct (IHs _ E) as (g & s' & mk' & -> & Hmk & Hp2).
        exists (String c g), s', mk'. cbn [String.length]. rewrite Nat.add_succ_r. auto.
    + destruct (IH _ _ _ _ Hm) as (g & s' & mk' & -> & Hmk & Hp2).
      exists g, s', mk'. split; [reflexivity|]. split; [|exact Hp2].
      intros i Hi. apply not_elem_of_cons in Hi as [Hne Hi].
      rewrite (Hmk i Hi). now apply lookup_insert_ne.
Qed.

(** A match leaves the marks alone that the pattern does not set. *)
Lemma match_here_other_marks pat s pos mk e mk' i :
  Re.match_here pat s pos mk = Some (e, mk') ->
  i ∉ marks_of pat -> mk' !! i = mk !! i.
Proof.
  intros Hm Hi. rewrite <- (app_nil_r pat) in Hm.
  destruct (match_here_app _ _ _ _ _ _ Hm) as (g & s' & mk1 & _ & Hmk & Hnil).
  cbn in Hnil. inversion Hnil; subst. now apply Hmk.
Qed.

(** A lazy repetition stops at the first place where the rest of the
    pattern matches. *)
Lemma lazy_first p rest : forall s pos mk r,
  Re.match_here (Re.MinRepeat p :: rest) s pos mk = Some r ->
  exists g s',
    s = g +:+ s'
    /\ Re.match_here rest s' (pos + String.length g) mk = Some r
    /\ (forall g1 c g2, g = g1 +:+ String c g2 ->
          Re.match_here rest (String c g2 +:+ s') (pos + String.length g1) mk = None).
Proof.
  cbn [Re.match_here]. induction s as [|c s IHs]; intros pos mk r Hm.
  - destruct (Re.match_here rest EmptyString pos mk) eqn:E; [|discriminate].
    inversion Hm; subst. exists EmptyString, EmptyString.
    cbn [String.length]. rewrite Nat.add_0_r. split; [reflexivity|]. split; [exact E|].
    intros [|? ?] ? ? [=].
  - destruct (Re.match_here rest (String c s) pos mk) eqn:E.
    + inversion Hm; subst. exists EmptyString, (String c s).
      cbn [String.length]. rewrite Nat.add_0_r. split; [reflexivity|]. split; [exact E|].
      intros [|? ?] ? ? [=].
    + destruct (p c); [|discriminate].
      destruct (IHs _ _ _ Hm) as (g & s' & -> & Hrest & Hmin).
      exists (String c g), s'. cbn [String.length]. rewrite Nat.add_succ_r.
      split; [reflexivity|]. split; [exact Hrest|].
      intros [|c1 g1] c0 g2 Hg.
      * rewrite append_empty in Hg. inversion Hg; subst.
        cbn [String.length]. rewrite Nat.add_0_r. exact E.
      * rewrite append_cons in Hg. inversion Hg; subst.
        cbn [String.length]. rewrite Nat.add_succ_r. now apply Hmin.
Qed.

(** A greedy repetition stops at the last place where the rest of the
    pattern matches. *)
Lemma greedy_last p rest : forall s pos mk r,
  Re.match_here (Re.MaxRepeat p :: rest) s pos mk = Some r ->
  exists g s',
    s = g +:+ s'
    /\ all_of p g = true
    /\ Re.match_here rest s' (pos + String.length g) mk = Some r
    /\ (forall c s'', s' = String c s'' -> p c = true ->
          Re.match_here (Re.MaxRepeat p :: rest) s'' (S (pos + String.length g)) mk = None).
Proof.
  cbn [Re.match_here]. induction s as [|c s IHs]; intros pos mk r Hm.
  - exists EmptyString, EmptyString. cbn [String.length]. rewrite Nat.add_0_r.
    split; [reflexivity|]. split; [reflexivity|]. split; [exact Hm|]. intros ? ? [=].
  - destruct (p c) eqn:Ec.
    + match type of Hm with
      | match ?g with _ => _ end = _ => destruct g as [r0|] eqn:E
      end.
      * inversion Hm; subst.
        destruct (IHs _ _ _ E) as (g & s' & -> & Hall & Hrest & Hmax).
        exists (String c g), s'. cbn [String.length all_of]. rewrite Nat.add_succ_r, Ec.
        split; [reflexivity|]. split; [exact Hall|]. split; [exact Hrest|]. exact Hmax.
      * exists EmptyString, (String c s). cbn [String.length]. rewrite Nat.add_0_r.
        split; [reflexivity|]. split; [reflexivity|]. split; [exact Hm|].
        intros ? ? [= <- <-] _. exact E.
    + exists EmptyString, (String c s). cbn [String.length]. rewrite Nat.add_0_r.
      split; [reflexivity|]. split; [reflexivity|]. split; [exact Hm|].
      intros ? ? [= <- <-] Hc. congruence.
Qed.

(** A greedy repetition fails only if the rest of the pattern fails
    where it stands, and after one more character of the class. *)
Lemma greedy_none p rest s pos mk :
  Re.match_here (Re.MaxRepeat p :: rest) s pos mk = None ->
  Re.match_here rest s pos mk = None.
Proof.
  cbn [Re.match_here]. destruct s as [|c s]; [auto|].
  destruct (p c); [|auto].
  match goal with
  | |- match ?g with _ => _ end = _ -> _ => destruct g
  end; [discriminate|auto].
Qed.

Lemma greedy_none_next p rest c s pos mk :
  p c = true ->
  Re.match_here (Re.MaxRepeat p :: rest) (String c s) pos mk = None ->
  Re.match_here (Re.MaxRepeat p :: rest) s (S pos) mk = None.
Proof.
  intros Hc. cbn [Re.match_here]. rewrite Hc.
  match goal with
  | |- match ?g with _ => _ end = _ -> _ => destruct g
  end; [discriminate|auto].
Qed.

(** A lazy repetition fails only if the rest of the pattern fails after
    every run of the class. *)
Lemma lazy_none p rest g : forall s' pos mk,
  all_of p g = true ->
  Re.match_here (Re.MinRepeat p :: rest) (g +:+ s') pos mk = None ->
  Re.match_here rest s' (pos + String.length g) mk = None.
Proof.
  cbn [Re.match_here]. induction g as [|c g IH]; intros s' pos mk Hall Hm.
  - rewrite append_empty in Hm. cbn [String.length]. rewrite Nat.add_0_r.
    destruct s' as [|c s'];
      destruct (Re.match_here rest _ pos mk); [discriminate|reflexivity|discriminate|reflexivity].
  - rewrite append_cons in Hm. cbn [all_of] in Hall.
    apply andb_prop in Hall as [Hc Hall]. rewrite Hc in Hm.
    destruct (Re.match_here rest (String c (g +:+ s')) pos mk); [discriminate|].
    cbn [String.length]. rewrite Nat.add_succ_r. exact (IH _ _ _ Hall Hm).
Qed.

Lemma all_of_any_char g : all_of any_char g = true.
Proof. induction g as [|c g IH]; [reflexivity|exact IH]. Qed.

(** A search finds its match at some offset of the text. *)
Lemma search_from_found pat : forall s pos r,
  Re.search_from pat s pos = Some r ->
  exists pre s',
    s = pre +:+ s' /\ Re.match_here pat s' (pos + String.length pre) ∅ = Some r.
Proof.
  induction s as [|c s IHs]; intros pos r Hs; cbn [Re.search_from] in Hs.
  - destruct (Re.match_here pat EmptyString pos ∅) eqn:E; [|discriminate].
    inversion Hs; subst. exists EmptyString, EmptyString.
    cbn [String.length]. rewrite Nat.add_0_r. auto.
  - destruct (Re.match_here pat (String c s) pos ∅) eqn:E.
    + inversion Hs; subst. exists EmptyString, (String c s).
      cbn [String.length]. rewrite Nat.add_0_r. auto.
    + destruct (IHs _ _ Hs) as (pre & s' & -> & Hm).
      exists (String c pre), s'. cbn [String.length]. rewrite Nat.add_succ_r. auto.
Qed.


Lemma ends_in_last p g :
  ends_in p g = true -> exists g1 c, g = g1 +:+ String c EmptyString /\ p c = true.
Proof.
  induction g as [|c g IH]; cbn [ends_in]; [discriminate|].
  destruct g as [|c' g].
  - intros Hc. now exists EmptyString, c.
  - intros Hg. destruct (IH Hg) as (g1 & c1 & -> & Hc1).
    now exists (String c g1), c1.
Qed.

Lemma substring_at before g after s a b :
  s = before +:+ g +:+ after ->
  a = String.length before -> b = (a + String.length g)%nat ->
  substring a (b - a) s = g.
Proof.
  intros -> -> ->. replace (_ + _ - _)%nat with (String.length g) by lia.
  apply substring_middle.
Qed.

(** The end of [book_re], from the blanks after the opening tag of the
    heading: the text between marks 2 and 3 has no blank at either
    end. *)
Lemma book_re_title s pos mk e mk' :
  Re.match_here
    [Re.MaxRepeat isspace; Re.Mark 2; Re.MinRepeat any_char; Re.Mark 3;
     Re.MaxRepeat isspace; Re.Literal "</h2>"] s pos mk = Some (e, mk') ->
  exists ws g s',
    s = ws +:+ g +:+ s'
    /\ mk' !! 2%nat = Some (pos + String.length ws)%nat
    /\ mk' !! 3%nat = Some (pos + String.length ws + String.length g)%nat
    /\ trimmed_of isspace g
    /\ (forall i, i <> 2%nat -> i <> 3%nat -> mk' !! i = mk !! i).
Proof.
  intros Hm.
  destruct (greedy_last _ _ _ _ _ _ Hm) as (ws & s3 & -> & _ & Hrest & Hmax).
  set (p3 := (pos + String.length ws)%nat) in *.
  change (Re.match_here
            (Re.MinRepeat any_char
             :: [Re.Mark 3; Re.MaxRepeat isspace; Re.Literal "</h2>"])
            s3 p3 (<[2%nat:=p3]> mk) = Some (e, mk')) in Hrest.
  destruct (lazy_first _ _ _ _ _ _ Hrest) as (g & s4 & -> & Hend & Hmin).
  set (p4 := (p3 + String.length g)%nat) in *.
  assert (Hend' : Re.match_here [Re.MaxRepeat isspace; Re.Literal "</h2>"]
                    s4 p4 (<[3%nat:=p4]> (<[2%nat:=p3]> mk)) = Some (e, mk')) by exact Hend.
  assert (Hmk : forall i, mk' !! i = (<[3%nat:=p4]> (<[2%nat:=p3]> mk)) !! i).
  { intros i. apply (match_here_other_marks _ _ _ _ _ _ _ Hend'). cbn. apply not_elem_of_nil. }
  exists ws, g, s4. split; [reflexivity|]. split; [|split; [|split]].
  - rewrite Hmk, lookup_insert_ne by discriminate. apply lookup_insert_eq.
  - rewrite Hmk. apply lookup_insert_eq.
  - split.
    + destruct g as [|c g']; [reflexivity|]. cbn [starts_in].
      destruct (isspace c) eqn:Ec; [exfalso|reflexivity].
      rewrite append_cons in Hmax.
      pose proof (Hmax c (g' +:+ s4) eq_refl Ec) as Hnone.
      apply greedy_none in Hnone.
      change (Re.match_here
                (Re.MinRepeat any_char
                 :: [Re.Mark 3; Re.MaxRepeat isspace; Re.Literal "</h2>"])
                (g' +:+ s4) (S p3) (<[2%nat:=S p3]> mk) = None) in Hnone.
      apply lazy_none in Hnone; [|apply all_of_any_char].
      rewrite (match_here_none _ _ _ _ p4 (<[2%nat:=p3]> mk) Hnone) in Hend.
      discriminate Hend.
    + destruct (ends_in isspace g) eqn:Eg; [exfalso|reflexivity].
      destruct (ends_in_last _ _ Eg) as (g1 & c & -> & Ec).
      pose proof (Hmin g1 c EmptyString eq_refl) as Hnone.
      change (Re.match_here [Re.MaxRepeat isspace; Re.Literal "</h2>"]
                (String c s4) (p3 + String.length g1)
                (<[3%nat:=(p3 + String.length g1)%nat]> (<[2%nat:=p3]> mk)) = None) in Hnone.
      apply (greedy_none_next _ _ _ _ _ _ Ec) in Hnone.
      rewrite (match_here_none _ _ _ _ p4 (<[3%nat:=p4]> (<[2%nat:=p3]> mk)) Hnone) in Hend'.
      discriminate Hend'.
  - intros i H2 H3. rewrite Hmk. now rewrite !lookup_insert_ne by congruence.
Qed.

(** The countdown of [book_re]: the text between marks 0 and 1 is a run
    of digits, and not empty. *)
Lemma book_re_countdown rest s pos mk r :
  Re.match_here
    ([Re.Mark 0; Re.In isdigit; Re.MaxRepeat isdigit; Re.Mark 1] ++ rest) s pos mk = Some r ->
  exists ds s',
    s = ds +:+ s' /\ ds <> EmptyString /\ all_of isdigit ds = true
    /\ Re.match_here rest s' (pos + String.length ds)
         (<[1%nat:=(pos + String.length ds)%nat]> (<[0%nat:=pos]> mk)) = Some r.
Proof.
  cbn [app]. intros Hm.
  change (Re.match_here (Re.In isdigit :: Re.MaxRepeat isdigit :: Re.Mark 1 :: rest)
            s pos (<[0%nat:=pos]> mk) = Some r) in Hm.
  cbn [Re.match_here] in Hm. destruct s as [|c s]; [discriminate|].
  destruct (isdigit c) eqn:Ec; [|discriminate].
  change (Re.match_here (Re.MaxRepeat isdigit :: Re.Mark 1 :: rest)
            s (S pos) (<[0%nat:=pos]> mk) = Some r) in Hm.
  destruct (greedy_last _ _ _ _ _ _ Hm) as (g & s' & -> & Hall & Hrest & _).
  exists (String c g), s'. cbn [String.length all_of]. rewrite Ec, Nat.add_succ_r.
  split; [reflexivity|]. split; [discriminate|]. split; [exact Hall|]. exact Hrest.
Qed.

Lemma book_re_parts :
  book_re
  = book_re_head
    ++ [Re.Mark 0; Re.In isdigit; Re.MaxRepeat isdigit; Re.Mark 1]
    ++ book_re_middle
    ++ [Re.MaxRepeat isspace; Re.Mark 2; Re.MinRepeat any_char; Re.Mark 3;
        Re.MaxRepeat isspace; Re.Literal "</h2>"].
Proof. reflexivity. Qed.

(** What [book_re] captures: a countdown that is a run of digits, not
    empty, and a title without a blank at either end. *)
Lemma book_re_captures s m :
  Re.search book_re s = Some m ->
  exists digits title,
    Re.group m 1 = Some digits /\ Re.group m 2 = Some title
    /\ digits <> EmptyString /\ all_of isdigit digits = true
    /\ trimmed_of isspace title.
Proof.
  unfold Re.search. intros Hs.
  destruct (Re.search_from book_re s 0) as [[e mk]|] eqn:E; [|discriminate].
  inversion Hs; subst m. clear Hs.
  destruct (search_from_found _ _ _ _ E) as (pre & s0 & Hs0 & Hm).
  rewrite book_re_parts in Hm.
  destruct (match_here_app _ _ _ _ _ _ Hm) as (g1 & s1 & mk1 & Hs1 & _ & Hm1).
  destruct (book_re_countdown _ _ _ _ _ Hm1) as (ds & s2 & Hs2 & Hne & Hds & Hm2).
  destruct (match_here_app _ _ _ _ _ _ Hm2) as (g3 & s3 & mk3 & Hs3 & Hmk3 & Hm3).
  destruct (book_re_title _ _ _ _ _ Hm3) as (ws & g & s4 & Hs4 & H2 & H3 & Htrim & Hmk).
  exists ds, g. unfold Re.group. cbn [Re.marks Re.subject Nat.mul Nat.add Nat.sub].
  assert (Hmid : forall i, i ∉ marks_of book_re_middle) by (intros i; cbn; apply not_elem_of_nil).
  rewrite (Hmk 0%nat), (Hmk 1%nat), (Hmk3 0%nat), (Hmk3 1%nat), H2, H3 by (discriminate || apply Hmid).
  rewrite lookup_insert_ne, !lookup_insert_eq by discriminate.
  subst s s0 s1 s2 s3.
  split; [|split; [|auto]].
  - f_equal. apply (substring_at (pre +:+ g1) ds (g3 +:+ ws +:+ g +:+ s4)).
    + now rewrite !append_assoc.
    + rewrite length_append. lia.
    + reflexivity.
  - f_equal. apply (substring_at (pre +:+ g1 +:+ ds +:+ g3 +:+ ws) g s4).
    + now rewrite !append_assoc.
    + rewrite !length_append. lia.
    + reflexivity.
Qed.


Lemma isdigit_plain c :
  isdigit c = true ->
  int_isspace c = false /\ Ascii.eqb c "-" = false /\ Ascii.eqb c "+" = false
  /\ 0 <= digit_value c.
Proof.
  destruct c as [[] [] [] [] [] [] [] []]; vm_compute; intros [=]; repeat split; discriminate.
Qed.

Lemma int_digits_all ds : forall acc,
  all_of isdigit ds = true -> 0 <= acc ->
  exists n, int_digits ds acc false = Some n /\ 0 <= n.
Proof.
  induction ds as [|c ds IH]; intros acc Hall Hacc; cbn [int_digits].
  - eauto.
  - cbn [all_of] in Hall. apply andb_prop in Hall as [Hc Hall]. rewrite Hc.
    apply IH; [exact Hall|]. destruct (isdigit_plain _ Hc) as (_ & _ & _ & Hv). lia.
Qed.

Lemma ends_in_all_of (p q : ascii -> bool) ds :
  (forall c, p c = true -> q c = false) ->
  all_of p ds = true -> ends_in q ds = false.
Proof.
  intros Hpq. induction ds as [|c ds IH]; cbn [all_of ends_in]; [reflexivity|].
  intros Hall. apply andb_prop in Hall as [Hc Hall].
  destruct ds as [|c' ds]; [now apply Hpq|now apply IH].
Qed.

(** [int] reads a run of digits as a number that is not negative. *)
Lemma int_of_digits ds :
  ds <> EmptyString -> all_of isdigit ds = true ->
  exists n, int ds = inr n /\ 0 <= n.
Proof.
  intros Hne Hall. unfold int, int_literal.
  rewrite strip_of_trimmed.
  - destruct ds as [|c ds]; [congruence|].
    pose proof Hall as Hall'. cbn [all_of] in Hall'. apply andb_prop in Hall' as [Hc _].
    destruct (isdigit_plain _ Hc) as (_ & -> & -> & _).
    unfold int_unsigned. rewrite Hc.
    destruct (int_digits_all _ 0 Hall) as (n & -> & Hn); [lia|]. eauto.
  - split.
    + destruct ds as [|c ds]; [reflexivity|]. cbn [all_of] in Hall.
      apply andb_prop in Hall as [Hc _]. cbn [starts_in].
      now destruct (isdigit_plain _ Hc) as (-> & _).
    + apply (ends_in_all_of isdigit); [|exact Hall].
      intros c Hc. now destruct (isdigit_plain _ Hc) as (-> & _).
Qed.

End ReOrder.

Section ExtractMore.
Context `{Bs4} `{Codecs}.

(** What the pattern strategy returns, it read off a match. *)
Lemma extract_with_re_inr s title n :
  extract_with_re s = inr (title, n) ->
  exists m digits,
    Re.search book_re s = Some m
    /\ Re.group m 2 = Some title
    /\ Re.group m 1 = Some digits
    /\ int digits = inr n.
Proof.
  unfold extract_with_re. intros Hx.
  destruct (Re.search book_re s) as [m|]; [|discriminate].
  destruct (Re.group m 2) as [t|] eqn:Hg2; [|discriminate].
  destruct (Re.group m 1) as [d|] eqn:Hg1; [|discriminate].
  destruct (int d) as [e|k] eqn:Hk; [discriminate|].
  inversion Hx; subst. exists m, d. auto.
Qed.

Lemma extract_with_re_trimmed s title n :
  extract_with_re s = inr (title, n) -> strip title = title /\ 0 <= n.
Proof.
  intros Hx. destruct (extract_with_re_inr _ _ _ Hx) as (m & d & Hs & Hg2 & Hg1 & Hn).
  destruct (book_re_captures _ _ Hs) as (d' & t & Hg1' & Hg2' & Hne & Hall & Htrim).
  rewrite Hg1 in Hg1'. rewrite Hg2 in Hg2'. inversion Hg1'; inversion Hg2'; subst d' t.
  split; [now apply strip_of_trimmed|].
  destruct (int_of_digits _ Hne Hall) as (k & Hk & Hpos). congruence.
Qed.

(** X13: what the pattern strategy returns was captured by [book_re]:
    the title is the second group and needs no stripping, and the
    countdown is the number its first group, a run of digits, spells,
    so it is never negative. *)
Theorem extract_with_re_result (s title : string) (n : Z) :
  extract_with_re s = inr (title, n) ->
  strip title = title
  /\ 0 <= n
  /\ exists m digits,
       Re.search book_re s = Some m
       /\ Re.group m 2 = Some title
       /\ Re.group m 1 = Some digits
       /\ all_of isdigit digits = true
       /\ int digits = inr n.
Proof.
  intros Hx. destruct (extract_with_re_trimmed _ _ _ Hx) as [Hs Hn].
  split; [exact Hs|]. split; [exact Hn|].
  destruct (extract_with_re_inr _ _ _ Hx) as (m & d & Hm & Hg2 & Hg1 & Hk).
  destruct (book_re_captures _ _ Hm) as (d' & t & Hg1' & _ & _ & Hall & _).
  rewrite Hg1 in Hg1'. inversion Hg1'; subst d'.
  exists m, d. auto.
Qed.

(** X14: whichever strategy found it, a title the extractor returns has
    no blank at either end; nothing was logged exactly when the pattern
    strategy found it, and then the countdown is not negative; else the
    one failure of the pattern strategy was logged and the pair is the
    fallback's. *)
Theorem extract_packt_free_book_title_stripped
    (content : page_content) (encoding : option string)
    (logged : list exn) (title : string) (n : Z) :
  extract_packt_free_book content encoding = (logged, inr (title, n)) ->
  strip title = title
  /\ exists s,
       page_text content encoding = inr s
       /\ ((logged = [] /\ extract_with_re s = inr (title, n) /\ 0 <= n)
           \/ (exists e, logged = [e] /\ extract_with_re s = inl e
                         /\ extract_with_parser s = inr (title, n))).
Proof.
  unfold extract_packt_free_book. intros Hx.
  destruct (page_text content encoding) as [e|s] eqn:Ht; [discriminate|].
  destruct (extract_with_re s) as [e|[t k]] eqn:Hre.
  - inversion Hx as [[Hl Hp]]. split.
    + revert Hp. unfold extract_with_parser.
      repeat match goal with
             | |- context [match ?x with _ => _ end] => destruct x; try discriminate
             end.
      intros [= <- _]. apply strip_of_trimmed, strip_of_is_trimmed.
    + exists s. split; [reflexivity|]. right. exists e. auto.
  - inversion Hx; subst. destruct (extract_with_re_trimmed _ _ _ Hre) as [Hs Hn].
    split; [exact Hs|]. exists s. split; [reflexivity|]. left. auto.
Qed.

End ExtractMore.

(** ** The easter-egg searches *)

Section WordSearch.

Lemma is_word_lower c : is_word (ascii_lower c) = is_word c.
Proof. destruct c as [[] [] [] [] [] [] [] []]; vm_compute; reflexivity. Qed.

Lemma same_letter_word a b : same_letter a b = true -> is_word b = is_word a.
Proof.
  unfold same_letter. intros E. apply Ascii.eqb_eq in E.
  now rewrite <- (is_word_lower a), <- (is_word_lower b), E.
Qed.

Lemma same_letters_word word : forall w,
  same_letters word w = true -> all_of is_word w = all_of is_word word.
Proof.
  induction word as [|a word IH]; intros [|b w] E; cbn in E; try discriminate; [reflexivity|].
  apply andb_prop in E as [Eab E]. cbn [all_of].
  now rewrite (same_letter_word _ _ Eab), (IH _ E).
Qed.

Lemma same_letters_empty word w :
  same_letters word w = true -> word <> EmptyString -> w <> EmptyString.
Proof. destruct word, w; cbn; congruence. Qed.

(** The letters of the word are taken from the text one by one. *)
Lemma literal_ignorecase_inv word : forall s prev last rest,
  literal_ignorecase word s prev = Some (last, rest) ->
  exists w, s = w +:+ rest /\ same_letters word w = true /\ last = last_or prev w.
Proof.
  induction word as [|a word IH]; intros s prev last rest E; cbn in E.
  - inversion E; subst. now exists EmptyString.
  - destruct s as [|b s]; [discriminate|].
    destruct (same_letter a b) eqn:Eab; [|discriminate].
    destruct (IH _ _ _ _ E) as (w & -> & Hw & ->).
    exists (String b w). cbn [same_letters last_or]. rewrite Eab. auto.
Qed.

Lemma literal_ignorecase_same word : forall w rest prev,
  same_letters word w = true ->
  literal_ignorecase word (w +:+ rest) prev = Some (last_or prev w, rest).
Proof.
  induction word as [|a word IH]; intros [|b w] rest prev E; cbn in E; try discriminate.
  - reflexivity.
  - apply andb_prop in E as [Eab E]. rewrite append_cons.
    cbn [literal_ignorecase last_or]. rewrite Eab. now apply IH.
Qed.

Lemma last_or_word w : forall prev,
  w <> EmptyString -> all_of is_word w = true -> is_word_at (last_or prev w) = true.
Proof.
  induction w as [|c w IH]; intros prev Hne Hall; [congruence|].
  cbn [all_of] in Hall. apply andb_prop in Hall as [Hc Hall]. cbn [last_or].
  destruct w as [|c' w]; [exact Hc|]. now apply IH.
Qed.

Lemma first_char_word w b :
  w <> EmptyString -> all_of is_word w = true -> is_word_at (first_char (w +:+ b)) = true.
Proof.
  destruct w as [|c w]; [congruence|]. intros _ Hall.
  cbn [all_of] in Hall. now apply andb_prop in Hall as [Hc _].
Qed.

Lemma first_char_starts b : is_word_at (first_char b) = starts_in is_word b.
Proof. now destruct b. Qed.

Lemma last_or_ends a : is_word_at (last_or None a) = ends_in is_word a.
Proof.
  destruct a as [|c a]; [reflexivity|]. cbn [last_or].
  revert c. induction a as [|c' a IH]; intros c; [reflexivity|].
  cbn [last_or ends_in]. apply IH.
Qed.

Section Word.
Variable word : string.
Hypothesis word_letters : all_of is_word word = true.
Hypothesis word_not_empty : word <> EmptyString.

Lemma word_here_iff prev s :
  word_here word prev s = true
  <-> exists w b,
        s = w +:+ b /\ same_letters word w = true
        /\ is_word_at prev = false /\ starts_in is_word b = false.
Proof.
  unfold word_here. split.
  - intros E. apply andb_prop in E as [Eb E].
    destruct (literal_ignorecase word s prev) as [[last rest]|] eqn:El; [|discriminate].
    destruct (literal_ignorecase_inv _ _ _ _ _ El) as (w & -> & Hw & ->).
    pose proof (same_letters_empty _ _ Hw word_not_empty) as Hne.
    pose proof (same_letters_word _ _ Hw) as Hall. rewrite word_letters in Hall.
    unfold boundary in *.
    rewrite (first_char_word _ _ Hne Hall) in Eb.
    rewrite (last_or_word _ _ Hne Hall), first_char_starts in E.
    exists w, rest. split; [reflexivity|]. split; [exact Hw|].
    split; [now destruct (is_word_at prev)|now destruct (starts_in is_word rest)].
  - intros (w & b & -> & Hw & Hp & Hb).
    pose proof (same_letters_empty _ _ Hw word_not_empty) as Hne.
    pose proof (same_letters_word _ _ Hw) as Hall. rewrite word_letters in Hall.
    rewrite (literal_ignorecase_same _ _ _ _ Hw). unfold boundary.
    now rewrite (first_char_word _ _ Hne Hall), (last_or_word _ _ Hne Hall),
      first_char_starts, Hp, Hb.
Qed.

Lemma find_word_from_iff s : forall prev,
  find_word_from word prev s = true
  <-> exists a w b,
        s = a +:+ w +:+ b /\ same_letters word w = true
        /\ is_word_at (last_or prev a) = false /\ starts_in is_word b = false.
Proof.
  induction s as [|c s IH]; intros prev; cbn [find_word_from]; rewrite orb_true_iff.
  - split.
    + intros [E|[=]]. apply word_here_iff in E as (w & b & E & Hw & Hp & Hb).
      now exists EmptyString, w, b.
    + intros ([|c a] & w & b & E & Hw & Hp & Hb); [|discriminate E].
      left. apply word_here_iff. now exists w, b.
  - split.
    + intros [E|E].
      * apply word_here_iff in E as (w & b & E & Hw & Hp & Hb).
        now exists EmptyString, w, b.
      * apply IH in E as (a & w & b & -> & Hw & Hp & Hb).
        now exists (String c a), w, b.
    + intros ([|c' a] & w & b & E & Hw & Hp & Hb).
      * left. apply word_here_iff. now exists w, b.
      * right. rewrite append_cons in E. inversion E; subst c' s.
        apply IH. now exists a, w, b.
Qed.

End Word.

(** The search for a word of letters finds it where the text has its
    letters, in either case, with no letter, digit or underscore right
    before or right after them, and nowhere else. *)
Lemma find_word_named (word s : string) :
  all_of is_word word = true -> word <> EmptyString ->
  find_word word s = true <-> named word s.
Proof.
  intros Hall Hne. unfold find_word, named. rewrite (find_word_from_iff word Hall Hne).
  split; intros (a & w & b & E & Hw & Ha & Hb); exists a, w, b;
    rewrite last_or_ends in *; auto.
Qed.

(** X15: each search of an easter egg succeeds exactly on the texts
    that name its language: the letters of the word, small or capital
    in any mix, with no letter, digit or underscore right before or
    right after them. *)
Theorem easter_egg_searches (s : string) :
  (find_ruby s = true <-> named "RUBY" s)
  /\ (find_java s = true <-> named "JAVA" s)
  /\ (find_python s = true <-> named "PYTHON" s).
Proof.
  split; [|split]; apply find_word_named; (reflexivity || discriminate).
Qed.

End WordSearch.

(** ** The dispatch *)

Section HandlersFacts.
Context `{Util} `{Net} `{Config} `{HandlerHelper}.

Lemma only_sent_refl w : only_sent 0 w w.
Proof.
  repeat split. exists []. now rewrite app_nil_r.
Qed.

Lemma only_sent_trans n n' w w' w'' :
  only_sent n w w' -> only_sent n' w' w'' -> only_sent (n + n') w w''.
Proof.
  intros (Hc & Hh & Hr & s & Ho & Hn) (Hc' & Hh' & Hr' & s' & Ho' & Hn').
  repeat split; try congruence.
  exists (s ++ s'). rewrite Ho', Ho, <- app_assoc, length_app. split; [reflexivity|lia].
Qed.

Lemma only_sent_le n n' w w' : (n <= n')%nat -> only_sent n w w' -> only_sent n' w w'.
Proof.
  intros Hle (Hc & Hh & Hr & s & Ho & Hn). repeat split; try assumption.
  exists s. split; [exact Ho|lia].
Qed.

Lemma logging_info_only_sent msg w : only_sent 0 w (logging_info msg w).1.
Proof. repeat split. exists []. cbn. now rewrite app_nil_r. Qed.

Lemma send_message_only_sent s w : only_sent 1 w (send_message s w).1.
Proof.
  unfold send_message. destruct (telegram _ s) as [d r]. repeat split.
  exists [(s, r)]. split; [reflexivity|cbn; lia].
Qed.

(** A handler that logs a line and sends one message. *)
Lemma log_and_send_only_sent msg s w :
  only_sent 1 w ((logging_info msg;; send_message s;; mret tt) w).1.
Proof.
  unfold mbind, M_bind. cbn [logging_info].
  pose proof (send_message_only_sent s (set_log (log w ++ [LogInfo msg]) w)) as Hs.
  destruct (send_message s _) as [w1 [e|id]]; cbn [fst] in *;
    apply (only_sent_trans 0 1 _ _ _ (logging_info_only_sent msg w) Hs).
Qed.

Lemma easter_egg_only_sent m w : only_sent 1 w (easter_egg m w).1.
Proof.
  unfold easter_egg.
  destruct (find_ruby _); [|destruct (find_java _); [|destruct (find_python _)]].
  - unfold love_ruby. destruct (from_username m) as [username|].
    + apply log_and_send_only_sent.
    + apply (only_sent_le 0); [lia|]. apply logging_info_only_sent.
  - apply log_and_send_only_sent.
  - apply log_and_send_only_sent.
  - apply (only_sent_le 0); [lia|]. apply only_sent_refl.
Qed.

Lemma handle_message_only_sent u w :
  no_command u -> only_sent 1 w (handle_message u w).1.
Proof.
  unfold no_command, handle_message. intros ->.
  destruct (String.eqb _ _); [apply easter_egg_only_sent|].
  apply (only_sent_le 0); [lia|]. apply only_sent_refl.
Qed.

(** X16: a batch is handled message by message, and the first
    exception ends it: the messages after are not looked at. *)
Theorem handle_messages_app (a b : list incoming) (w : world) :
  handle_messages (a ++ b) w
  = match handle_messages a w with
    | (w', inr _) => handle_messages b w'
    | (w', inl e) => (w', inl e)
    end.
Proof.
  revert w. induction a as [|u a IH]; intros w; [reflexivity|].
  cbn [app handle_messages]. unfold mbind, M_bind.
  destruct (handle_message u w) as [w1 [e|[]]]; [reflexivity|]. apply IH.
Qed.

(** X17: a text that names Ruby, from a user without a user name, makes
    [love_ruby] raise after its log line: nothing is sent, and the rest
    of the batch is dropped with it. *)
Theorem ruby_without_username_ends_batch (u : incoming) (rest : list incoming) (w : world) :
  content_type u = "text" ->
  no_command u ->
  find_ruby (msg_text (inc_message u)) = true ->
  from_username (inc_message u) = None ->
  handle_messages (u :: rest) w
  = (set_log (log w ++ [LogInfo "None: ruby"]) w, inl TypeError).
Proof.
  intros Hc Hn Hr Hu. cbn [handle_messages]. unfold mbind, M_bind at 1.
  unfold handle_message. unfold no_command in Hn. rewrite Hc, Hn. cbn [String.eqb].
  change (String.eqb "text" "text") with true. cbv iota.
  unfold easter_egg. rewrite Hr. unfold love_ruby. rewrite Hu. reflexivity.
Qed.

(** X18: the messages of a batch without commands get one message each
    at most, and the easter eggs leave the cache, the event
    dictionaries and the requests alone. *)
Theorem easter_eggs_only_send (batch : list incoming) (w : world) :
  Forall no_command batch ->
  only_sent (length batch) w (handle_messages batch w).1.
Proof.
  intros Hb. revert w. induction Hb as [|u batch Hu Hb IH]; intros w.
  - apply only_sent_refl.
  - cbn [handle_messages length]. unfold mbind, M_bind.
    pose proof (handle_message_only_sent u w Hu) as Hone.
    destruct (handle_message u w) as [w1 [e|[]]]; cbn [fst] in *.
    + apply (only_sent_le 1); [lia|exact Hone].
    + apply (only_sent_trans 1 _ _ _ _ Hone (IH w1)).
Qed.

End HandlersFacts.

(** ** The handlers that only answer *)

Section AnswersFacts.
Context `{Util} `{Net} `{Config}.

(** What a handler leaves that logs a line and sends one message. *)
Lemma log_and_send_outbox msg s w :
  let w1 := ((logging_info msg;; send_message s;; mret tt) w).1 in
  outbox w1 = outbox w ++ [(s, (telegram (length (outbox w)) s).2)]
  /\ cache w1 = cache w.
Proof.
  unfold mbind, M_bind, logging_info, send_message. cbn [outbox set_log].
  destruct (telegram (length (outbox w)) s) as [d [e|id]]; cbn; auto.
Qed.

(** X21: [/start], [/help] and [/changelog] are answered every time.
    Their handlers do not look at the record of the last reply, so the
    second of two requests gets the text again, in a group as elsewhere
    and however soon it comes, and the cache is left as it was. *)
Theorem welcome_and_changelog_every_time (m1 m2 : message) (w : world) (d : Q) :
  let n := length (outbox w) in
  (let text := "Este bot faz buscas no Meetup do " +:+ group_name in
   let w1 := (send_welcome m1 w).1 in
   let w2 := (send_welcome m2 (advance d w1)).1 in
   outbox w2
   = outbox w ++ [ (real_send m1 text [], (telegram n (real_send m1 text [])).2);
                   (real_send m2 text [], (telegram (S n) (real_send m2 text [])).2) ]
   /\ cache w2 = cache w)
  /\ (let text := "https://github.com/GDGAracaju/GDGAjuBot/blob/master/CHANGELOG.md" in
      let w1 := (changelog m1 w).1 in
      let w2 := (changelog m2 (advance d w1)).1 in
      outbox w2
      = outbox w ++ [ (plain_send m1 text, (telegram n (plain_send m1 text)).2);
                      (plain_send m2 text, (telegram (S n) (plain_send m2 text)).2) ]
      /\ cache w2 = cache w).
Proof.
  intros n. split; intros text w1 w2.
  - assert (Hfirst : outbox w1 = outbox w ++ [(real_send m1 text [],
                                            (telegram n (real_send m1 text [])).2)]
                 /\ cache w1 = cache w)
      by exact (log_and_send_outbox "/start" (real_send m1 text []) w).
    assert (Hsecond : outbox w2
                 = outbox w1 ++ [(real_send m2 text [],
                                  (telegram (length (outbox w1)) (real_send m2 text [])).2)]
                 /\ cache w2 = cache w1)
      by exact (log_and_send_outbox "/start" (real_send m2 text []) (advance d w1)).
    destruct Hfirst as [Ho1 Hc1], Hsecond as [Ho2 Hc2].
    rewrite Ho2, Hc2, Ho1, Hc1, length_app, <- app_assoc. cbn [length app].
    rewrite Nat.add_1_r. auto.
  - assert (Hfirst : outbox w1 = outbox w ++ [(plain_send m1 text,
                                            (telegram n (plain_send m1 text)).2)]
                 /\ cache w1 = cache w)
      by exact (log_and_send_outbox (percent_s (from_username m1) +:+ ": " +:+ "/changelog")
                  (plain_send m1 text) w).
    assert (Hsecond : outbox w2
                 = outbox w1 ++ [(plain_send m2 text,
                                  (telegram (length (outbox w1)) (plain_send m2 text)).2)]
                 /\ cache w2 = cache w1)
      by exact (log_and_send_outbox (percent_s (from_username m2) +:+ ": " +:+ "/changelog")
                  (plain_send m2 text) (advance d w1)).
    destruct Hfirst as [Ho1 Hc1], Hsecond as [Ho2 Hc2].
    rewrite Ho2, Hc2, Ho1, Hc1, length_app, <- app_assoc. cbn [length app].
    rewrite Nat.add_1_r. auto.
Qed.

End AnswersFacts.

(** ** The configuration of [main] *)

Section MainFacts.
Variable ns : namespace.
Variable environ : gmap string string.

Lemma mount_config_telegram_token :
  mount_config ns environ !! "telegram_token"
  = Some (or_environ environ "telegram_token" (VStr <$> ns_telegram_token ns)).
Proof. unfold mount_config, vars. cbn [fmap list_fmap list_to_map foldr fst snd]. apply lookup_insert_eq. Qed.

Lemma mount_config_meetup_key :
  mount_config ns environ !! "meetup_key"
  = Some (or_environ environ "meetup_key" (VStr <$> ns_meetup_key ns)).
Proof.
  unfold mount_config, vars. cbn [fmap list_fmap list_to_map foldr fst snd].
  rewrite lookup_insert_ne by discriminate. apply lookup_insert_eq.
Qed.

Lemma mount_config_group_name :
  mount_config ns environ !! "group_name"
  = Some (or_environ environ "group_name" (VStr <$> ns_group_name ns)).
Proof.
  unfold mount_config, vars. cbn [fmap list_fmap list_to_map foldr fst snd].
  rewrite !lookup_insert_ne by discriminate. apply lookup_insert_eq.
Qed.

Lemma mount_config_dev :
  mount_config ns environ !! "dev"
  = Some (or_environ environ "dev" (Some (VBool (ns_dev ns)))).
Proof.
  unfold mount_config, vars. cbn [fmap list_fmap list_to_map foldr fst snd].
  rewrite !lookup_insert_ne by discriminate. apply lookup_insert_eq.
Qed.

Lemma eqb_empty_false v : v <> EmptyString -> String.eqb v EmptyString = false.
Proof. intros Hv. now apply String.eqb_neq. Qed.

(** The value of a text argument is a text: the one of the command
    line, or the one of the environment when that is missing or
    empty. *)
Lemma or_environ_text k (a : option string) :
  or_environ environ k (VStr <$> a)
  = VStr (match a with
          | Some (String c s) => String c s
          | _ => default EmptyString (environ !! upper k)
          end).
Proof. now destruct a as [[|c s]|]. Qed.

Lemma truth_or_environ_text k (a : option string) :
  truth (Some (or_environ environ k (VStr <$> a))) = true
  <-> (exists v, a = Some v /\ v <> EmptyString)
      \/ (exists v, environ !! upper k = Some v /\ v <> EmptyString).
Proof.
  rewrite or_environ_text. split.
  - intros Ht.
    destruct a as [[|c s]|];
      [|left; eexists; split; [reflexivity|discriminate]|];
      (destruct (environ !! upper k) as [[|c' s']|]; cbn in Ht; try discriminate Ht;
       right; eexists; split; [reflexivity|discriminate]).
  - intros [(v & -> & Hv)|(v & He & Hv)].
    + destruct v; [congruence|reflexivity].
    + rewrite He. destruct v as [|c' s']; [congruence|].
      now destruct a as [[|c s]|].
Qed.

Lemma given_telegram_token :
  truth (mount_config ns environ !! "telegram_token") = true <-> given ns environ "telegram_token".
Proof. rewrite mount_config_telegram_token. apply truth_or_environ_text. Qed.

Lemma given_meetup_key :
  truth (mount_config ns environ !! "meetup_key") = true <-> given ns environ "meetup_key".
Proof. rewrite mount_config_meetup_key. apply truth_or_environ_text. Qed.

Lemma given_group_name :
  truth (mount_config ns environ !! "group_name") = true <-> given ns environ "group_name".
Proof. rewrite mount_config_group_name. apply truth_or_environ_text. Qed.

Lemma missing_args_nil :
  missing_args (mount_config ns environ) = []
  <-> truth (mount_config ns environ !! "telegram_token") = true
      /\ truth (mount_config ns environ !! "meetup_key") = true
      /\ truth (mount_config ns environ !! "group_name") = true.
Proof.
  unfold missing_args, required_actions.
  rewrite !filter_cons, filter_nil. cbn [fst].
  destruct (truth (_ !! "telegram_token")), (truth (_ !! "meetup_key")),
    (truth (_ !! "group_name")); cbn; split; try discriminate; try tauto;
    intros (? & ? & ?); discriminate.
Qed.


Lemma required_given :
  (forall dest name, (dest, name) ∈ required_actions -> given ns environ dest)
  <-> given ns environ "telegram_token" /\ given ns environ "meetup_key"
      /\ given ns environ "group_name".
Proof.
  unfold required_actions. split.
  - intros Hg. split; [|split].
    + apply (Hg _ "-t/--telegram_token"), list_elem_of_here.
    + apply (Hg _ "-m/--meetup_key"), list_elem_of_further, list_elem_of_here.
    + apply (Hg _ "-g/--group_name"), list_elem_of_further, list_elem_of_further,
        list_elem_of_here.
  - intros (Ht & Hm & Hg) dest name Hin.
    rewrite !elem_of_cons, elem_of_nil in Hin.
    destruct Hin as [[= -> ->]|[[= -> ->]|[[= -> ->]|[]]]]; assumption.
Qed.

(** X19: [main] starts the bot exactly when each of the three required
    arguments is given, on the command line or in the environment; an
    empty text on the command line counts as none. Otherwise the parser
    ends the process. *)
Theorem main_starts_iff_given :
  (exists _config, (main ns environ).2 = Started _config)
  <-> forall dest name, (dest, name) ∈ required_actions -> given ns environ dest.
Proof.
  unfold main.
  rewrite required_given, <- given_telegram_token, <- given_meetup_key, <- given_group_name.
  pose proof missing_args_nil as Hm.
  destruct (missing_args (mount_config ns environ)) as [|a l] eqn:E.
  - split; [|eauto]. intros _. exact (proj1 Hm eq_refl).
  - split; [intros [c [=]]|].
    intros Hg. assert (Hn : a :: l = []); [|discriminate Hn]. apply Hm. exact Hg.
Qed.

(** X20: a [DEV] variable of the environment that is not empty turns
    the development mode on whatever the command line says, [--no-dev]
    included and whatever the text ([0], [false]): the token and the
    key are then written to the log. *)
Theorem dev_mode_from_environment (v : string) (_config : gmap string pyval) :
  environ !! "DEV" = Some v -> v <> EmptyString ->
  (main ns environ).2 = Started _config ->
  _config !! "dev" = Some (if ns_dev ns then VBool true else VStr v)
  /\ exists token key,
       _config !! "telegram_token" = Some (VStr token)
       /\ _config !! "meetup_key" = Some (VStr key)
       /\ (main ns environ).1
          = [ "Configurando par" +:+ String "226" "metros"; "Iniciando bot";
              "Dev mode activated.";
              "Usando telegram_token=" +:+ token; "Usando meetup_key=" +:+ key ].
Proof.
  intros Hd Hv. unfold main.
  destruct (missing_args (mount_config ns environ)); [|discriminate].
  cbn [fst snd]. intros [= <-].
  assert (Hdev : mount_config ns environ !! "dev"
                 = Some (if ns_dev ns then VBool true else VStr v)).
  { rewrite mount_config_dev. unfold or_environ.
    change (upper "dev") with "DEV". rewrite Hd. now destruct (ns_dev ns). }
  split; [exact Hdev|].
  rewrite mount_config_telegram_token, mount_config_meetup_key, !or_environ_text.
  do 2 eexists. split; [reflexivity|]. split; [reflexivity|].
  rewrite Hdev.
  assert (Ht : truth (Some (if ns_dev ns then VBool true else VStr v)) = true).
  { destruct (ns_dev ns); [reflexivity|]. cbn. now rewrite eqb_empty_false. }
  rewrite Ht. reflexivity.
Qed.

End MainFacts.

(** ** The pattern on a page with the widget *)

Section StringCuts.

Lemma strip_prefix_same l : forall s, Re.strip_prefix l (l +:+ s) = Some s.
Proof.
  induction l as [|a l IH]; intros s; [reflexivity|].
  rewrite append_cons. cbn [Re.strip_prefix]. rewrite Ascii.eqb_refl. apply IH.
Qed.

(** Two ways to cut one text: the shorter first part is the start of
    the longer. *)
Lemma append_split a : forall b c d,
  a +:+ b = c +:+ d -> (String.length a <= String.length c)%nat ->
  exists x, c = a +:+ x /\ b = x +:+ d.
Proof.
  induction a as [|x a IH]; intros b c d E Hle.
  - exists c. now rewrite append_empty in *.
  - destruct c as [|y c]; [cbn in Hle; lia|].
    rewrite !append_cons in E. inversion E; subst y.
    destruct (IH b c d) as (z & -> & ->); [assumption|cbn in Hle; lia|].
    now exists z.
Qed.

Lemma append_same_length a b c d :
  a +:+ b = c +:+ d -> String.length a = String.length c -> a = c /\ b = d.
Proof.
  intros E Hlen. destruct (append_split a b c d E) as (x & -> & ->); [lia|].
  rewrite length_append in Hlen. destruct x as [|y x]; [|cbn in Hlen; lia].
  split; [|reflexivity]. clear. induction a as [|c a IH]; [reflexivity|].
  rewrite append_cons. now rewrite <- IH.
Qed.

Lemma append_empty_r a : a +:+ EmptyString = a.
Proof. induction a as [|c a IH]; [reflexivity|]. rewrite append_cons. now rewrite IH. Qed.

Lemma all_of_append p a b : all_of p (a +:+ b) = all_of p a && all_of p b.
Proof.
  induction a as [|c a IH]; [reflexivity|].
  rewrite append_cons. cbn [all_of]. now rewrite IH, andb_assoc.
Qed.

(** A run of a class is cut off by the first character outside it. *)
Lemma run_unique p a : forall b c c' u v,
  all_of p a = true -> all_of p b = true -> p c = false -> p c' = false ->
  a +:+ String c u = b +:+ String c' v -> a = b /\ u = v.
Proof.
  induction a as [|x a IH]; intros b c c' u v Ha Hb Hc Hc' E.
  - destruct b as [|y b].
    + rewrite !append_empty in E. now inversion E.
    + rewrite append_empty, append_cons in E. inversion E; subst.
      cbn in Hb. apply andb_prop in Hb as [Hy _]. congruence.
  - cbn [all_of] in Ha. apply andb_prop in Ha as [Hx Ha].
    destruct b as [|y b].
    + rewrite append_empty, append_cons in E. inversion E; subst. congruence.
    + rewrite !append_cons in E. inversion E; subst y.
      cbn [all_of] in Hb. apply andb_prop in Hb as [_ Hb].
      destruct (IH b c c' u v Ha Hb Hc Hc') as [-> ->]; [assumption|]. auto.
Qed.

Lemma ends_in_append p a x :
  x <> EmptyString -> all_of p x = true -> ends_in p (a +:+ x) = true.
Proof.
  intros Hne Hall. induction a as [|c a IH].
  - rewrite append_empty. induction x as [|c x IHx]; [congruence|].
    cbn [all_of] in Hall. apply andb_prop in Hall as [Hc Hall]. cbn [ends_in].
    destruct x as [|c' x]; [exact Hc|]. apply IHx; [discriminate|exact Hall].
  - rewrite append_cons. cbn [ends_in].
    destruct (a +:+ x) as [|c' r] eqn:E; [|exact IH].
    destruct a; [rewrite append_empty in E; congruence|discriminate E].
Qed.

(** ** Occurrences *)

Lemma index_of_le l a : forall b s,
  s = a +:+ l +:+ b -> exists n, index_of l s = Some n /\ (n <= String.length a)%nat.
Proof.
  induction a as [|c a IH]; intros b s ->.
  - rewrite append_empty. exists 0%nat. split; [|cbn; lia].
    destruct (l +:+ b) eqn:E; cbn [index_of]; rewrite <- E, strip_prefix_same; reflexivity.
  - rewrite append_cons. cbn [index_of].
    destruct (Re.strip_prefix l _); [exists 0%nat; split; [reflexivity|cbn; lia]|].
    destruct (IH b _ eq_refl) as (n & -> & Hn). exists (S n). split; [reflexivity|cbn; lia].
Qed.

Lemma count_of_occurrence l a : forall b, (1 <= count_of l (a +:+ l +:+ b))%nat.
Proof.
  induction a as [|c a IH]; intros b.
  - rewrite append_empty.
    destruct (l +:+ b) eqn:E; cbn [count_of]; rewrite <- E, strip_prefix_same; lia.
  - rewrite append_cons. cbn [count_of]. specialize (IH b). lia.
Qed.

Lemma count_of_two l a : forall a' b b',
  a +:+ l +:+ b = a' +:+ l +:+ b' ->
  (String.length a < String.length a')%nat ->
  (2 <= count_of l (a +:+ l +:+ b))%nat.
Proof.
  induction a as [|c a IH]; intros a' b b' E Hlt.
  - destruct a' as [|c' a']; [cbn in Hlt; lia|].
    rewrite E, append_cons. cbn [count_of].
    rewrite <- append_cons, <- E, append_empty, strip_prefix_same.
    pose proof (count_of_occurrence l a' b'). lia.
  - destruct a' as [|c' a']; [cbn in Hlt; lia|].
    rewrite !append_cons in E. inversion E as [[Hc E']].
    rewrite append_cons. cbn [count_of].
    assert (2 <= count_of l (a +:+ l +:+ b))%nat by (apply (IH a' b b' E'); cbn in Hlt; lia).
    lia.
Qed.

(** A text that occurs once occurs at one place. *)
Lemma count_of_once l s a b a' b' :
  count_of l s = 1%nat ->
  s = a +:+ l +:+ b -> s = a' +:+ l +:+ b' -> a = a' /\ b = b'.
Proof.
  intros Hone E E'.
  assert (Hlen : String.length a = String.length a').
  { destruct (Nat.lt_trichotomy (String.length a) (String.length a')) as [Hlt|[Heq|Hgt]];
      [|exact Heq|].
    - assert (2 <= count_of l (a +:+ l +:+ b))%nat
        by (apply (count_of_two l a a' b b'); [congruence|exact Hlt]).
      rewrite <- E in *. lia.
    - assert (2 <= count_of l (a' +:+ l +:+ b'))%nat
        by (apply (count_of_two l a' a b' b); [congruence|exact Hgt]).
      rewrite <- E' in *. lia. }
  rewrite E in E'. destruct (append_same_length _ _ _ _ E' Hlen) as [-> E2].
  split; [reflexivity|].
  now destruct (append_same_length l b l b' E2 eq_refl).
Qed.

End StringCuts.

Section Accepts.

Lemma accepts_anywhere pat s pos mk :
  accepts pat s -> Re.match_here pat s pos mk <> None.
Proof. intros Ha E. apply Ha. exact (match_here_none _ _ _ _ 0%nat ∅ E). Qed.

Lemma accepts_from pat s pos mk :
  Re.match_here pat s pos mk <> None -> accepts pat s.
Proof. intros Ha E. apply Ha. exact (match_here_none _ _ _ _ pos mk E). Qed.

Lemma accepts_nil s : accepts [] s.
Proof. discriminate. Qed.

Lemma accepts_literal l rest s :
  accepts rest s -> accepts (Re.Literal l :: rest) (l +:+ s).
Proof.
  intros Ha. unfold accepts. cbn [Re.match_here]. rewrite strip_prefix_same.
  now apply accepts_anywhere.
Qed.

Lemma accepts_in (p : ascii -> bool) rest c s :
  p c = true -> accepts rest s -> accepts (Re.In p :: rest) (String c s).
Proof.
  intros Hc Ha. unfold accepts. cbn [Re.match_here]. rewrite Hc.
  now apply accepts_anywhere.
Qed.

Lemma accepts_mark i rest s : accepts rest s -> accepts (Re.Mark i :: rest) s.
Proof. intros Ha. unfold accepts. cbn [Re.match_here]. now apply accepts_anywhere. Qed.

Lemma accepts_lazy p rest g s :
  all_of p g = true -> accepts rest s -> accepts (Re.MinRepeat p :: rest) (g +:+ s).
Proof.
  intros Hall Ha E. apply (accepts_anywhere _ _ (0 + String.length g)%nat ∅ Ha).
  exact (lazy_none _ _ _ _ _ _ Hall E).
Qed.

Lemma accepts_greedy p rest g : forall s,
  all_of p g = true -> accepts rest s -> accepts (Re.MaxRepeat p :: rest) (g +:+ s).
Proof.
  induction g as [|c g IH]; intros s Hall Ha.
  - rewrite append_empty. intros E. apply Ha. exact (greedy_none _ _ _ _ _ E).
  - cbn [all_of] in Hall. apply andb_prop in Hall as [Hc Hall].
    rewrite append_cons. intros E.
    apply (accepts_anywhere _ _ 1%nat ∅ (IH s Hall Ha)).
    exact (greedy_none_next _ _ _ _ _ _ Hc E).
Qed.

(** A search finds something when the pattern matches somewhere. *)
Lemma search_from_accepts pat s' pre : forall pos,
  accepts pat s' -> Re.search_from pat (pre +:+ s') pos <> None.
Proof.
  induction pre as [|c pre IH]; intros pos Ha.
  - rewrite append_empty. pose proof (accepts_anywhere _ _ pos ∅ Ha) as Hm.
    destruct s'; cbn [Re.search_from]; destruct (Re.match_here pat _ pos ∅); congruence.
  - rewrite append_cons. cbn [Re.search_from].
    destruct (Re.match_here pat _ pos ∅); [discriminate|]. now apply IH.
Qed.

End Accepts.

Section OfferPages.

Variable p : offer_page.
Hypothesis cut : well_cut p.

Lemma accepts_text_end : accepts re_text_end (op_trail p +:+ "</h2>" +:+ op_after p).
Proof.
  destruct cut as (_ & _ & _ & _ & _ & _ & _ & _ & _ & _ & Htrail & _).
  apply accepts_mark, accepts_greedy; [exact Htrail|].
  apply accepts_literal, accepts_nil.
Qed.

Lemma accepts_text_start : accepts re_text_start (heading_rest p).
Proof.
  apply accepts_mark, accepts_lazy; [apply all_of_any_char|]. apply accepts_text_end.
Qed.

Lemma accepts_title_from x : all_of isspace x = true -> accepts re_title (x +:+ heading_rest p).
Proof. intros Hx. apply accepts_greedy; [exact Hx|]. apply accepts_text_start. Qed.

Lemma accepts_heading : accepts re_heading (heading p).
Proof.
  destruct cut as (_ & _ & _ & _ & Hh2 & _ & _ & _ & _ & Hblank & _).
  apply accepts_literal, accepts_in; [exact Hh2|]. now apply accepts_title_from.
Qed.

Lemma text_first :
  exists c rest, op_text p = String c rest /\ isspace c = false.
Proof.
  destruct cut as (_ & _ & _ & _ & _ & _ & _ & _ & _ & _ & _ & Hne & [Hs _] & _).
  destruct (op_text p) as [|c rest]; [congruence|]. now exists c, rest.
Qed.

(** The blanks the pattern skips after the opening tag are those of the
    page, and so is the text it captures. *)
Lemma title_exact pos mk e mk' :
  Re.match_here re_title (op_blank p +:+ heading_rest p) pos mk = Some (e, mk') ->
  mk' !! 2%nat = Some (pos + String.length (op_blank p))%nat
  /\ mk' !! 3%nat
     = Some (pos + String.length (op_blank p) + String.length (op_text p))%nat
  /\ (forall i, i <> 2%nat -> i <> 3%nat -> mk' !! i = mk !! i).
Proof.
  intros Hm.
  pose proof cut as (_ & _ & _ & _ & _ & _ & _ & _ & _ & Hblank & Htrail & Hne & [_ Hend] & Hidx).
  destruct text_first as (t0 & text' & Htext & Ht0).
  destruct (greedy_last _ _ _ _ _ _ Hm) as (ws & s3 & Hcut & Hws & Hrest & Hmax).
  (* the blanks *)
  assert (Hblanks : ws = op_blank p /\ s3 = heading_rest p).
  { destruct (le_lt_dec (String.length ws) (String.length (op_blank p))) as [Hle|Hlt].
    - destruct (append_split ws s3 (op_blank p) (heading_rest p)) as (x & Hb & Hs3);
        [now symmetry|exact Hle|].
      destruct x as [|c x].
      + rewrite append_empty_r in Hb. rewrite append_empty in Hs3. auto.
      + exfalso. rewrite Hb, all_of_append in Hblank.
        apply andb_prop in Hblank as [_ Hx]. cbn [all_of] in Hx.
        apply andb_prop in Hx as [Hc Hx]. rewrite append_cons in Hs3.
        apply (accepts_anywhere _ _ (S (pos + String.length ws)) mk (accepts_title_from x Hx)).
        exact (Hmax c _ Hs3 Hc).
    - exfalso.
      destruct (append_split (op_blank p) (heading_rest p) ws s3) as (x & Hw & Hr);
        [exact Hcut|lia|].
      destruct x as [|c x].
      { rewrite Hw, length_append in Hlt. cbn in Hlt. lia. }
      rewrite Hw, all_of_append in Hws. apply andb_prop in Hws as [_ Hx].
      cbn [all_of] in Hx. apply andb_prop in Hx as [Hc _].
      unfold heading_rest in Hr. rewrite Htext, !append_cons in Hr.
      inversion Hr; subst. congruence. }
  destruct Hblanks as [-> ->].
  set (p3 := (pos + String.length (op_blank p))%nat) in *.
  change (Re.match_here re_text (heading_rest p) p3 (<[2%nat:=p3]> mk) = Some (e, mk')) in Hrest.
  destruct (lazy_first _ _ _ _ _ _ Hrest) as (g & s4 & Hcut2 & Hend4 & Hmin).
  assert (Hend4' : Re.match_here re_closing s4 (p3 + String.length g)
                     (<[3%nat:=(p3 + String.length g)%nat]> (<[2%nat:=p3]> mk))
                   = Some (e, mk')) by exact Hend4.
  destruct (greedy_last _ _ _ _ _ _ Hend4') as (wsx & s5 & Hs4 & Hwsx & Hlit & _).
  cbn [Re.match_here] in Hlit.
  destruct (Re.strip_prefix "</h2>" s5) as [r|] eqn:Hs5; [|discriminate].
  apply strip_prefix_append in Hs5.
  (* the text *)
  assert (Hg : g = op_text p).
  { assert (Hocc : heading_rest p = (g +:+ wsx) +:+ "</h2>" +:+ r).
    { rewrite Hcut2, Hs4, Hs5. now rewrite append_assoc. }
    destruct (index_of_le _ _ _ _ Hocc) as (n & Hn & Hle). rewrite Hidx in Hn.
    inversion Hn; subst n. rewrite length_append in Hle.
    destruct (le_lt_dec (String.length g) (String.length (op_text p))) as [Hgl|Hgl].
    - destruct (append_split g s4 (op_text p) (op_trail p +:+ "</h2>" +:+ op_after p))
        as (x & Ht & Hx4); [now symmetry|exact Hgl|].
      destruct x as [|c x]; [now rewrite append_empty_r in Ht|]. exfalso.
      assert (Hlx : (String.length (String c x) <= String.length wsx)%nat).
      { rewrite Ht, length_append in Hle. lia. }
      rewrite Hs4 in Hx4.
      destruct (append_split (String c x) _ wsx _ (eq_sym Hx4) Hlx) as (y & Hy & _).
      rewrite Hy, all_of_append in Hwsx. apply andb_prop in Hwsx as [Hx _].
      rewrite Ht, (ends_in_append isspace g (String c x)) in Hend;
        [discriminate|discriminate|exact Hx].
    - exfalso.
      destruct (append_split (op_text p) (op_trail p +:+ "</h2>" +:+ op_after p) g s4)
        as (x & Hgx & Hx4); [exact Hcut2|lia|].
      destruct x as [|c x].
      { rewrite Hgx, length_append in Hgl. cbn in Hgl. lia. }
      apply (accepts_anywhere _ _ (p3 + String.length (op_text p))%nat
               (<[2%nat:=p3]> mk) accepts_text_end).
      rewrite Hx4. exact (Hmin (op_text p) c x Hgx). }
  subst g.
  assert (Hmk : forall i, mk' !! i
                          = (<[3%nat:=(p3 + String.length (op_text p))%nat]>
                               (<[2%nat:=p3]> mk)) !! i).
  { intros i. apply (match_here_other_marks _ _ _ _ _ _ _ Hend4'). cbn. apply not_elem_of_nil. }
  split; [|split].
  - rewrite Hmk, lookup_insert_ne by discriminate. apply lookup_insert_eq.
  - rewrite Hmk. apply lookup_insert_eq.
  - intros i H2 H3. rewrite Hmk. now rewrite !lookup_insert_ne by congruence.
Qed.

(** The heading the pattern goes to after the countdown is the one of
    the page. *)
Lemma heading_exact pos mk r :
  Re.match_here (Re.MinRepeat any_char :: re_heading) (after_countdown p) pos mk = Some r ->
  Re.match_here re_title (op_blank p +:+ heading_rest p)
    (S (pos + String.length (op_to_heading p) + 3)) mk = Some r.
Proof.
  intros Hm.
  pose proof cut as (_ & _ & _ & _ & Hh2 & _ & _ & _ & Hidx & _).
  destruct (lazy_first _ _ _ _ _ _ Hm) as (g & s3 & Hcut & Hrest & Hmin).
  pose proof Hrest as Hlit. cbn [re_heading Re.match_here] in Hlit.
  destruct (Re.strip_prefix "<h2" s3) as [s3'|] eqn:Hs3; [|discriminate]. clear Hlit.
  apply strip_prefix_append in Hs3.
  assert (Hocc : after_countdown p = g +:+ "<h2" +:+ s3') by (now rewrite Hcut, Hs3).
  destruct (index_of_le _ _ _ _ Hocc) as (n & Hn & Hle). rewrite Hidx in Hn.
  inversion Hn; subst n.
  assert (Hlen : String.length (op_to_heading p) = String.length g).
  { destruct (le_lt_dec (String.length g) (String.length (op_to_heading p))) as [Hgl|Hgl];
      [lia|]. exfalso.
    destruct (append_split (op_to_heading p) (heading p) g s3) as (x & Hgx & Hx3);
      [exact Hcut|lia|].
    destruct x as [|c x].
    { rewrite Hgx, length_append in Hgl. cbn in Hgl. lia. }
    apply (accepts_anywhere _ _ (pos + String.length (op_to_heading p))%nat mk accepts_heading).
    rewrite Hx3. exact (Hmin (op_to_heading p) c x Hgx). }
  destruct (append_same_length _ _ _ _ Hcut Hlen) as [Hg Hh]. subst g. rewrite <- Hh in Hrest.
  unfold heading in Hrest. cbn [re_heading Re.match_here] in Hrest.
  rewrite strip_prefix_same, Hh2 in Hrest.
  cbn [String.length] in Hrest. exact Hrest.
Qed.

(** The pattern matches the page from its marker on. *)
Lemma accepts_book_re : accepts book_re (from_marker p).
Proof.
  pose proof cut as (H1 & H2 & H3 & H4 & _ & Hne & Hdigits & _).
  unfold book_re, from_marker.
  apply accepts_literal, accepts_lazy; [apply all_of_any_char|].
  apply accepts_literal, accepts_in; [exact H1|].
  apply accepts_lazy; [apply all_of_any_char|].
  apply accepts_literal, accepts_in; [exact H2|].
  apply accepts_lazy; [apply all_of_any_char|].
  apply accepts_literal, accepts_in; [exact H3|].
  apply accepts_lazy; [apply all_of_any_char|].
  apply accepts_literal, accepts_lazy; [apply all_of_any_char|].
  apply accepts_literal, accepts_in; [exact H4|].
  apply accepts_lazy; [apply all_of_any_char|].
  unfold from_countdown.
  apply (accepts_literal countdown_open), accepts_mark.
  destruct (op_countdown p) as [|d ds]; [congruence|].
  cbn [all_of] in Hdigits. apply andb_prop in Hdigits as [Hd Hds].
  rewrite append_cons. apply accepts_in; [exact Hd|].
  apply accepts_greedy; [exact Hds|].
  apply accepts_mark, (accepts_literal countdown_close).
  unfold after_countdown. apply accepts_lazy; [apply all_of_any_char|].
  apply accepts_heading.
Qed.

Lemma markup_cut : markup p = up_to_countdown p +:+ from_countdown p.
Proof.
  unfold markup, from_marker, up_to_countdown.
  repeat (rewrite ?append_assoc, ?append_cons, ?append_empty). reflexivity.
Qed.

Lemma book_re_cut :
  book_re
  = book_re_to_countdown
    ++ Re.Literal countdown_open
       :: ([Re.Mark 0; Re.In isdigit; Re.MaxRepeat isdigit; Re.Mark 1]
           ++ Re.Literal countdown_close :: Re.MinRepeat any_char :: re_heading).
Proof. reflexivity. Qed.

Lemma match_here_literal l rest s pos mk r :
  Re.match_here (Re.Literal l :: rest) s pos mk = Some r ->
  exists s', s = l +:+ s' /\ Re.match_here rest s' (pos + String.length l) mk = Some r.
Proof.
  cbn [Re.match_here]. destruct (Re.strip_prefix l s) as [s'|] eqn:E; [|discriminate].
  intros Hm. exists s'. split; [now apply strip_prefix_append|exact Hm].
Qed.

Lemma search_page : Re.search book_re (markup p) <> None.
Proof.
  unfold Re.search, markup.
  pose proof (search_from_accepts book_re (from_marker p) (op_before p) 0 accepts_book_re).
  destruct (Re.search_from book_re _ 0) as [[e mk]|]; congruence.
Qed.

(** On a page cut as described, the groups of the pattern are the
    countdown and the text of the heading. *)
Lemma book_re_on_page m :
  Re.search book_re (markup p) = Some m ->
  Re.group m 1 = Some (op_countdown p) /\ Re.group m 2 = Some (op_text p).
Proof.
  pose proof cut as (_ & _ & _ & _ & _ & _ & Hdigits & Hone & _).
  unfold Re.search. intros Hs.
  destruct (Re.search_from book_re (markup p) 0) as [[e mk]|] eqn:E; [|discriminate].
  inversion Hs; subst m. clear Hs.
  destruct (search_from_found _ _ _ _ E) as (pre & s0 & Hs0 & Hm).
  rewrite book_re_cut in Hm.
  destruct (match_here_app _ _ _ _ _ _ Hm) as (g1 & s1 & mk1 & Hs1 & _ & Hm1).
  apply match_here_literal in Hm1 as (s1' & Hopen & Hm1).
  destruct (book_re_countdown _ _ _ _ _ Hm1) as (ds & s2 & Hs2 & _ & Hds & Hm2).
  apply match_here_literal in Hm2 as (s2' & Hclose & Hm2).
  (* the countdown element is the one of the page *)
  assert (Hhere : markup p = (pre +:+ g1) +:+ countdown_open
                             +:+ (ds +:+ countdown_close +:+ s2')).
  { rewrite Hs0, Hs1, Hopen, Hs2, Hclose. now rewrite append_assoc. }
  pose proof markup_cut as Hpage. unfold from_countdown in Hpage.
  destruct (count_of_once _ _ _ _ _ _ Hone Hhere Hpage) as [HX Hafter].
  unfold countdown_close in Hafter. rewrite !append_cons in Hafter.
  rewrite !append_empty in Hafter.
  destruct (run_unique isdigit ds (op_countdown p) DQUOTE DQUOTE _ _
              Hds Hdigits eq_refl eq_refl Hafter) as [-> Hy].
  inversion Hy; subst s2'. clear Hy Hafter.
  (* the heading *)
  apply heading_exact in Hm2.
  destruct (title_exact _ _ _ _ Hm2) as (H2 & H3 & Hmk).
  unfold Re.group. cbn [Re.marks Re.subject Nat.mul Nat.add Nat.sub].
  rewrite (Hmk 0%nat), (Hmk 1%nat), H2, H3 by discriminate.
  rewrite lookup_insert_ne, !lookup_insert_eq by discriminate.
  assert (Hlen : String.length (up_to_countdown p)
                 = (String.length pre + String.length g1)%nat).
  { rewrite <- HX. apply length_append. }
  split; f_equal.
  - apply (substring_at (up_to_countdown p +:+ countdown_open) (op_countdown p)
             (countdown_close +:+ after_countdown p)).
    + rewrite Hpage. now rewrite !append_assoc.
    + rewrite length_append. lia.
    + reflexivity.
  - apply (substring_at
             (up_to_countdown p +:+ countdown_open +:+ op_countdown p +:+ countdown_close
              +:+ op_to_heading p +:+ "<h2" +:+ String (op_h2 p) (op_blank p))
             (op_text p) (op_trail p +:+ "</h2>" +:+ op_after p)).
    + rewrite Hpage. unfold after_countdown, heading, heading_rest.
      repeat (rewrite ?append_assoc, ?append_cons, ?append_empty). reflexivity.
    + rewrite !length_append. cbn [String.length]. rewrite ?length_append. lia.
    + lia.
Qed.

End OfferPages.

Section ExtractOffer.
Context `{Bs4} `{Codecs}.

(** C6, as the code has it. On a page with the widget, cut as
    [well_cut] says, the pattern strategy returns the countdown and, as
    the title, the text between the blanks after [<h2] and its one
    following character and the blanks before [</h2>]. For a heading
    that opens with [<h2>] that is the title of the page, and the page
    of the example gives ["Example Book"] and [1700000000]; for a
    heading whose opening tag has attributes it is the attributes, the
    [>] and the title. On a document that the pattern does not match
    while the structural path leads to a heading and a countdown, the
    fallback returns the stripped text of the heading and the countdown,
    after the failure of the pattern went to the log. *)
Theorem extract_example_book
    (p : offer_page) (n : Z) (content : page_content) (encoding : option string)
    (content' : page_content) (encoding' : option string)
    (s digits : string) (k : Z) (dealoftheday h2 span : Tag) :
  well_cut p ->
  int (op_countdown p) = inr n ->
  page_text content encoding = inr (markup p) ->
  page_text content' encoding' = inr s ->
  Re.search book_re s = None ->
  select_one (BeautifulSoup s) "#deal-of-the-day" = Some dealoftheday ->
  select_one dealoftheday "div div div:nth-of-type(2) div:nth-of-type(2) h2" = Some h2 ->
  select_one dealoftheday "span.packt-js-countdown" = Some span ->
  attrs span !! "data-countdown-to" = Some digits ->
  int digits = inr k ->
  (extract_with_re (markup p) = inr (op_text p, n)
   /\ extract_packt_free_book content encoding = ([], inr (op_text p, n)))
  /\ (extract_with_re s = inl AttributeError
      /\ extract_with_parser s = inr (strip (text h2), k)
      /\ extract_packt_free_book content' encoding'
         = ([AttributeError], inr (strip (text h2), k))).
Proof.
  intros Hcut Hn Hpage Hdoc Hre Hd Hh Hs Ha Hk.
  assert (E1 : extract_with_re (markup p) = inr (op_text p, n)).
  { unfold extract_with_re.
    destruct (Re.search book_re (markup p)) as [m|] eqn:Hm;
      [|now destruct (search_page p Hcut)].
    destruct (book_re_on_page p Hcut m Hm) as [-> ->]. now rewrite Hn. }
  assert (E2 : extract_with_re s = inl AttributeError).
  { unfold extract_with_re. now rewrite Hre. }
  assert (E3 : extract_with_parser s = inr (strip (text h2), k)).
  { unfold extract_with_parser. rewrite Hd, Hh, Hs, Ha, Hk. reflexivity. }
  split; [split; [exact E1|]|split; [exact E2|split; [exact E3|]]].
  - unfold extract_packt_free_book. now rewrite Hpage, E1.
  - unfold extract_packt_free_book. now rewrite Hdoc, E2, E3.
Qed.

End ExtractOffer.
(** ** The statements on the sample instances *)

Section Samples.
Local Existing Instance Sample.util.
Local Existing Instance Sample.bs4.
Local Existing Instance Sample.codecs.
Local Existing Instance Sample.net.
Local Existing Instance Sample.config.

Ltac decided :=
  match goal with |- ?P => apply (@bool_decide_unpack P _); vm_compute; exact I end.

(** Three askers in the sample group: [A], [A] again ten seconds
    later, then [B]. *)
Lemma smart_reply_twice_then_other_witness :
  let m1 := Sample.ask 11 Sample.group_chat "/events" in
  let m2 := Sample.ask 12 Sample.group_chat "/events" in
  let m3 := Sample.ask 13 Sample.group_chat "/events" in
  let '(w1, r1) := _smart_reply m1 "A" markdown Sample.fresh in
  let '(w2, r2) := _smart_reply m2 "A" markdown (advance 10 w1) in
  let '(w3, r3) := _smart_reply m3 "B" markdown (advance 5 w2) in
  r1 = inr tt /\ r2 = inr tt /\ r3 = inr tt
  /\ outbox w3 = outbox Sample.fresh
                 ++ [ (real_send m1 "A" markdown, inr 1000);
                      (pointer_send m2 (VInt 1000), inr 1001);
                      (real_send m3 "B" markdown, inr 1002) ]
  /\ (exists d, Beaker.stored (reply_cache "A") (inl (chat_id (msg_chat m1))) w2
                = Some ((clock Sample.fresh + (1 # 2))%Q, ODict d)
                /\ d !! "text" = Some (VStr "A")
                /\ d !! "message_id" = Some (VInt 1000))
  /\ (exists d, reply_record m3 "B" w3 = Some (ODict d)
                /\ d !! "text" = Some (VStr "B")
                /\ d !! "message_id" = Some (VInt 1002)).
Proof.
  intros m1 m2 m3.
  refine (smart_reply_twice_then_other m1 m2 m3 "A" "B" markdown markdown markdown
            Sample.fresh (1 # 2) (1 # 2) (1 # 2) 10 5 1000 1001 1002
            _ _ _ _ _ _ _ _ _ _).
  - unfold in_group. decided.
  - reflexivity.
  - reflexivity.
  - vm_compute. exact I.
  - discriminate.
  - reflexivity.
  - reflexivity.
  - reflexivity.
  - reflexivity.
  - reflexivity.
Defined.

(** In the private sample chat the same text twice is two real sends. *)
Lemma smart_reply_private_always_sends_witness :
  let m := Sample.ask 21 Sample.private_chat "/book" in
  let real := real_send m "A" markdown in
  let '(w1, r1) := _smart_reply m "A" markdown Sample.fresh in
  outbox w1 = outbox Sample.fresh
              ++ [(real, (telegram (length (outbox Sample.fresh)) real).2)]
  /\ r1 = discard (telegram (length (outbox Sample.fresh)) real).2
  /\ cache w1 = cache Sample.fresh
  /\ (forall c, _smart_reply m "A" markdown (set_cache c Sample.fresh) = (set_cache c w1, r1))
  /\ (forall d,
        outbox (_smart_reply m "A" markdown (advance d w1)).1
        = outbox Sample.fresh
          ++ [(real, (telegram (length (outbox Sample.fresh)) real).2);
              (real, (telegram (S (length (outbox Sample.fresh))) real).2)]).
Proof.
  intros m.
  exact (smart_reply_private_always_sends m "A" markdown Sample.fresh eq_refl).
Defined.

(** The sample group after one reply [A]: a second [A] leaves the cache
    as it is. *)
Lemma smart_reply_duplicate_keeps_record_witness :
  let m := Sample.ask 31 Sample.group_chat "/events" in
  let w := advance 10 (_smart_reply m "A" markdown Sample.fresh).1 in
  let w1 := (_smart_reply m "A" markdown w).1 in
  cache w1 = cache w
  /\ (forall id, update_record "A" 1000 ∅ !! "message_id" = Some id ->
        outbox w1
        = outbox w ++ [(pointer_send m id,
                        (telegram (length (outbox w)) (pointer_send m id)).2)]).
Proof.
  intros m w.
  refine (smart_reply_duplicate_keeps_record m "A" markdown w (update_record "A" 1000 ∅)
            _ _ _).
  - unfold in_group. decided.
  - vm_compute. reflexivity.
  - vm_compute. reflexivity.
Defined.

(** Telegram refuses the first message of the sample group: nothing is
    recorded and the same text goes out again. *)
Lemma smart_reply_failed_send_not_recorded_witness :
  let m := Sample.ask 41 Sample.group_chat "/events" in
  let '(w1, r1) := @_smart_reply Sample.util Sample.flaky_net m "A" markdown Sample.fresh in
  r1 = inl (Raise "ApiException")
  /\ (forall d0, reply_record m "A" Sample.fresh = Some (ODict d0) ->
        cache w1 = cache Sample.fresh)
  /\ (reply_record m "A" Sample.fresh = None ->
        Beaker.stored (reply_cache "A") (inl (chat_id (msg_chat m))) w1
        = Some (clock Sample.fresh, ODict ∅))
  /\ (forall d, reply_record m "A" w1 = Some (ODict d) ->
                d !! "text" <> Some (VStr "A"))
  /\ (forall m' kw' d,
        msg_chat m' = msg_chat m -> (0 <= d)%Q ->
        outbox (@_smart_reply Sample.util Sample.flaky_net m' "A" kw' (advance d w1)).1
        = outbox Sample.fresh
          ++ [ (real_send m "A" markdown, inl (Raise "ApiException"));
               (real_send m' "A" kw',
                (@telegram Sample.flaky_net (S (length (outbox Sample.fresh)))
                   (real_send m' "A" kw')).2) ]).
Proof.
  intros m.
  refine (@smart_reply_failed_send_not_recorded Sample.util Sample.flaky_net
            m "A" markdown Sample.fresh (1 # 2) (Raise "ApiException") _ _ _ _).
  - unfold in_group. decided.
  - vm_compute. exact I.
  - reflexivity.
  - vm_compute. discriminate.
Defined.

(** C9, as the claim words it, fails: a record that has expired is
    updated by the call whose send fails. The sample group was sent [A]
    at time 0 (message 1000, recorded at 1/2); 700 seconds later Telegram
    refuses the same text, and the record of the group is the empty one
    that [get] created for the refused call. *)
Lemma smart_reply_failed_send_replaces_expired_record :
  let m := Sample.ask 45 Sample.group_chat "/events" in
  let key : cache_key := inl (chat_id (msg_chat m)) in
  let w := advance 700 (@_smart_reply Sample.util Sample.net m "A" markdown Sample.fresh).1 in
  let w1 := (@_smart_reply Sample.util Sample.refusing_net m "A" markdown w).1 in
  Beaker.stored (reply_cache "A") key w = Some (1 # 2, ODict (update_record "A" 1000 ∅))
  /\ (@_smart_reply Sample.util Sample.refusing_net m "A" markdown w).2
     = inl (Raise "ApiException")
  /\ Beaker.stored (reply_cache "A") key w1 = Some (clock w, ODict ∅)
  /\ Beaker.stored (reply_cache "A") key w1 <> Beaker.stored (reply_cache "A") key w.
Proof.
  intros m key w w1.
  assert (Hbefore : Beaker.stored (reply_cache "A") key w
                    = Some (1 # 2, ODict (update_record "A" 1000 ∅)))
    by (vm_compute; reflexivity).
  assert (Hafter : Beaker.stored (reply_cache "A") key w1 = Some (clock w, ODict ∅))
    by (vm_compute; reflexivity).
  split; [exact Hbefore|]. split; [vm_compute; reflexivity|]. split; [exact Hafter|].
  rewrite Hbefore, Hafter. vm_compute. intros E. discriminate E.
Qed.

(** [/events], then [/book], then [/events] again in the sample group:
    the replies differ in text, the extractor finds no command in either,
    and the second [/events] reply goes out in full. *)
Lemma smart_reply_commands_share_record_witness :
  let m1 := Sample.ask 51 Sample.group_chat "/events" in
  let m2 := Sample.ask 52 Sample.group_chat "/book" in
  let m3 := Sample.ask 53 Sample.group_chat "/events" in
  let a := "[DevFest](https://www.meetup.com/GDG-Aracaju/events/2/): 07/12 22:46" in
  let b := book_intro "Example Book" in
  let w1 := (_smart_reply m1 a markdown Sample.fresh).1 in
  let w2 := (_smart_reply m2 b markdown (advance 10 w1)).1 in
  outbox (_smart_reply m2 a markdown (advance 10 w1)).1
  = outbox Sample.fresh
    ++ [ (real_send m1 a markdown, inr 1000);
         (pointer_send m2 (VInt 1000),
          (telegram (S (length (outbox Sample.fresh))) (pointer_send m2 (VInt 1000))).2) ]
  /\ reply_cache a = reply_cache b
  /\ outbox (_smart_reply m3 a markdown (advance 10 w2)).1
     = outbox Sample.fresh
       ++ [ (real_send m1 a markdown, inr 1000);
            (real_send m2 b markdown, inr 1001);
            (real_send m3 a markdown,
             (telegram (S (S (length (outbox Sample.fresh)))) (real_send m3 a markdown)).2) ].
Proof.
  intros m1 m2 m3 a b.
  refine (smart_reply_commands_share_record m1 m2 m3 a b markdown markdown markdown
            Sample.fresh (1 # 2) (1 # 2) 10 10 1000 1001 _ _ _ _ _ _ _ _ _).
  - unfold in_group. decided.
  - reflexivity.
  - reflexivity.
  - vm_compute. exact I.
  - reflexivity.
  - reflexivity.
  - vm_compute. discriminate.
  - reflexivity.
  - reflexivity.
Defined.

(** The two sample events as Meetup sent them, with integer times,
    formatted twice. *)
Lemma format_events_idempotent_witness :
  let w := set_heap Sample.sample_events Sample.fresh in
  let out :=
    "[Android Study Jam](https://www.meetup.com/GDG-Aracaju/events/1/): 14/11 19:13"
    +:+ String LF "[DevFest](https://www.meetup.com/GDG-Aracaju/events/2/): 07/12 22:46" in
  events_text Sample.sample_events = inr out
  /\ let '(w1, res) := _format_events (OList [0; 1]%nat) w in
     res = events_text Sample.sample_events
     /\ w1 = set_heap (heap w1) w
     /\ (forall d, _format_events (OList [0; 1]%nat) (advance d w1) = (advance d w1, res))
     /\ (forall text, res = inr text ->
           forall r ev, r ∈ [0; 1]%nat -> heap w !! r = Some ev ->
             heap w1 !! r = Some (rendered ev)
             /\ exists time, ev_time (rendered ev) = TStr time).
Proof.
  intros w out. split; [vm_compute; reflexivity|].
  refine (format_events_idempotent [0; 1]%nat Sample.sample_events w _).
  repeat constructor.
Defined.

(** [get_events(5)] and [get_packt_free_book()] at start-up. *)
Lemma fetch_cached_for_600_witness :
  (let f := GetEvents (Some 5) in
   let w1 := (run_fetch f Sample.fresh).1 in
   requests w1 = requests Sample.fresh ++ [fetch_request f]
   /\ (forall d, (d < 600)%Q ->
         run_fetch f (advance d w1) = (advance d w1, inr (OList [0; 1]%nat)))
   /\ (forall d, (600 <= d)%Q ->
         requests (run_fetch f (advance d w1)).1
         = requests Sample.fresh ++ [fetch_request f; fetch_request f]))
  /\ (let f := GetPacktFreeBook in
      let w1 := (run_fetch f Sample.fresh).1 in
      requests w1 = requests Sample.fresh ++ [fetch_request f]
      /\ (forall d, (d < 600)%Q ->
            run_fetch f (advance d w1)
            = (advance d w1, inr (OTuple "Example Book" 1700000000)))
      /\ (forall d, (600 <= d)%Q ->
            requests (run_fetch f (advance d w1)).1
            = requests Sample.fresh ++ [fetch_request f; fetch_request f])).
Proof.
  split.
  - intros f w1.
    refine (fetch_cached_for_600 f Sample.fresh w1 (OList [0; 1]%nat) _ _);
      vm_compute; reflexivity.
  - intros f w1.
    refine (fetch_cached_for_600 f Sample.fresh w1 (OTuple "Example Book" 1700000000) _ _);
      vm_compute; reflexivity.
Defined.

(** [A] again in the sample group, 600 seconds after it was sent. *)
Lemma smart_reply_resends_after_expiry_witness :
  let m1 := Sample.ask 61 Sample.group_chat "/events" in
  let m2 := Sample.ask 62 Sample.group_chat "/events" in
  let w1 := (_smart_reply m1 "A" markdown Sample.fresh).1 in
  reply_record m2 "A" (advance 600 w1) = None
  /\ outbox (_smart_reply m2 "A" markdown (advance 600 w1)).1
     = outbox Sample.fresh
       ++ [ (real_send m1 "A" markdown, inr 1000);
            (real_send m2 "A" markdown,
             (telegram (S (length (outbox Sample.fresh))) (real_send m2 "A" markdown)).2) ].
Proof.
  intros m1 m2.
  refine (smart_reply_resends_after_expiry m1 m2 "A" markdown markdown Sample.fresh
            (1 # 2) 600 1000 _ _ _ _ _).
  - unfold in_group. decided.
  - reflexivity.
  - vm_compute. exact I.
  - reflexivity.
  - vm_compute. discriminate.
Defined.


(** [/events] answered from the network, then from the cache ten
    seconds later. *)
Lemma events_text_same_on_hit_witness :
  let w1 := (get_events (Some 5) Sample.fresh).1 in
  let events := OList [0; 1]%nat in
  let w2 := (_format_events events w1).1 in
  let out :=
    "[Android Study Jam](https://www.meetup.com/GDG-Aracaju/events/1/): 14/11 19:13"
    +:+ String LF "[DevFest](https://www.meetup.com/GDG-Aracaju/events/2/): 07/12 22:46" in
  get_events (Some 5) (advance 10 w2) = (advance 10 w2, inr events)
  /\ _format_events events (advance 10 w2) = (advance 10 w2, inr out).
Proof.
  intros w1 events w2 out.
  refine (events_text_same_on_hit (Some 5) Sample.fresh w1 w2 events out 10 _ _ _ _).
  - vm_compute. reflexivity.
  - vm_compute. reflexivity.
  - vm_compute. reflexivity.
  - reflexivity.
Defined.


Local Existing Instance Sample.handler.

(** [get_events(5)], then [get_events()] ten seconds later. *)
Lemma events_cached_per_arguments_witness :
  let w1 := (get_events (Some 5) Sample.fresh).1 in
  fetch_value (GetEvents None) (advance 10 w1) = None
  /\ requests (get_events None (advance 10 w1)).1 = requests w1 ++ [events_request 5].
Proof.
  intros w1.
  refine (events_cached_per_arguments (Some 5) None Sample.fresh 10 _ _).
  - discriminate.
  - vm_compute. reflexivity.
Defined.

(** [A] in the sample group, then in the second group ten seconds
    later. *)
Lemma smart_reply_per_chat_witness :
  let m1 := Sample.ask 91 Sample.group_chat "/events" in
  let m2 := Sample.ask 92 Sample.other_group "/events" in
  let w1 := (_smart_reply m1 "A" markdown Sample.fresh).1 in
  Beaker.stored (reply_cache "A") (inl (chat_id (msg_chat m2))) w1
  = Beaker.stored (reply_cache "A") (inl (chat_id (msg_chat m2))) Sample.fresh
  /\ outbox (_smart_reply m2 "A" markdown (advance 10 w1)).1
     = outbox w1 ++ [(real_send m2 "A" markdown,
                      (telegram (length (outbox w1)) (real_send m2 "A" markdown)).2)].
Proof.
  intros m1 m2 w1.
  refine (smart_reply_per_chat m1 m2 "A" markdown markdown Sample.fresh 10 _ _ _ _).
  - vm_compute. discriminate.
  - unfold in_group. decided.
  - vm_compute. exact I.
  - vm_compute. discriminate.
Defined.

(** The two sample events, formatted for the first time. *)
Lemma format_events_only_renders_times_witness :
  let w := (get_events (Some 5) Sample.fresh).1 in
  let w1 := (_format_events (OList [0; 1]%nat) w).1 in
  w1 = set_heap (heap w1) w
  /\ length (heap w1) = length (heap w)
  /\ (forall r ev, heap w !! r = Some ev ->
        exists ev', heap w1 !! r = Some ev' /\ rendering_of ev ev')
  /\ (forall r, r ∉ [0; 1]%nat -> heap w1 !! r = heap w !! r).
Proof.
  intros w w1.
  refine (format_events_only_renders_times [0; 1]%nat w w1
            (_format_events (OList [0; 1]%nat) w).2 _).
  vm_compute. reflexivity.
Defined.

(** [/events] twice in the sample group, ten seconds apart. *)
Lemma events_twice_in_group_witness :
  let m1 := Sample.ask 101 Sample.group_chat "/events" in
  let m2 := Sample.ask 102 Sample.group_chat "/events" in
  let text :=
    "[Android Study Jam](https://www.meetup.com/GDG-Aracaju/events/1/): 14/11 19:13"
    +:+ String LF "[DevFest](https://www.meetup.com/GDG-Aracaju/events/2/): 07/12 22:46" in
  let w1 := (list_upcoming_events m1 Sample.fresh).1 in
  let w2 := (list_upcoming_events m2 (advance 10 w1)).1 in
  requests w2 = requests Sample.fresh ++ [events_request 5]
  /\ outbox w2
     = outbox Sample.fresh
       ++ [ (real_send m1 text markdown, inr 1000);
            (pointer_send m2 (VInt 1000),
             (telegram (S (length (outbox Sample.fresh))) (pointer_send m2 (VInt 1000))).2) ].
Proof.
  intros m1 m2 text.
  refine (events_twice_in_group m1 m2 Sample.fresh (1 # 2) (1 # 2) 10
            (Response [] (Some "utf-8") (inr Sample.sample_events))
            Sample.sample_events text 1000 _ _ _ _ _ _ _ _ _ _ _).
  - unfold in_group. decided.
  - reflexivity.
  - vm_compute. reflexivity.
  - vm_compute. reflexivity.
  - reflexivity.
  - vm_compute. reflexivity.
  - vm_compute. exact I.
  - vm_compute. reflexivity.
  - vm_compute. discriminate.
  - vm_compute. discriminate.
  - vm_compute. reflexivity.
Defined.

(** Both handlers with the network down. *)
Lemma handlers_when_fetch_fails_witness :
  let m := Sample.ask 111 Sample.group_chat "/events" in
  let e := Raise "ConnectionError" in
  (let '(w1, res) :=
     @list_upcoming_events Sample.util Sample.offline_net Sample.config m Sample.fresh in
   res = inr tt
   /\ log w1 = log Sample.fresh ++ [ LogInfo (percent_s (from_username m) +:+ ": " +:+ "/events");
                                     LogException e ]
   /\ outbox w1 = outbox Sample.fresh /\ cache w1 = cache Sample.fresh
   /\ requests w1 = requests Sample.fresh ++ [events_request 5])
  /\ (let '(w1, res) :=
        @packtpub_free_learning Sample.util Sample.bs4 Sample.codecs Sample.offline_net
          Sample.config m None Sample.fresh in
      res = inl e
      /\ log w1 = log Sample.fresh ++ [ LogInfo (percent_s (from_username m) +:+ ": " +:+ "/book") ]
      /\ outbox w1 = outbox Sample.fresh /\ cache w1 = cache Sample.fresh
      /\ requests w1 = requests Sample.fresh ++ [book_request]).
Proof.
  intros m e.
  refine (@handlers_when_fetch_fails Sample.util Sample.bs4 Sample.codecs Sample.offline_net
            Sample.config m None Sample.fresh (3 # 1) (3 # 1) e e _ _ _ _).
  - vm_compute. reflexivity.
  - vm_compute. reflexivity.
  - reflexivity.
  - reflexivity.
Defined.

(** [/book] twice, ten seconds apart, when the page gives the countdown
    in milliseconds. *)
Lemma book_countdown_out_of_range_witness :
  let m := Sample.ask 121 Sample.group_chat "/book" in
  let m' := Sample.ask 122 Sample.private_chat "/book" in
  let '(w1, res1) :=
    @packtpub_free_learning Sample.util Sample.bs4 Sample.codecs Sample.late_net
      Sample.config m None Sample.fresh in
  let '(w2, res2) :=
    @packtpub_free_learning Sample.util Sample.bs4 Sample.codecs Sample.late_net
      Sample.config m' None (advance 10 w1) in
  res1 = inl ValueError /\ res2 = inl ValueError
  /\ @fetch_value Sample.config GetPacktFreeBook w1
     = Some (OTuple "Example Book" 1700000000000)
  /\ outbox w2 = outbox Sample.fresh
  /\ requests w2 = requests Sample.fresh ++ [book_request].
Proof.
  intros m m'.
  refine (@book_countdown_out_of_range Sample.util Sample.bs4 Sample.codecs Sample.late_net
            Sample.config m m' None None Sample.fresh (1 # 2) 10
            (Response (list_byte_of_string Sample.late_page) (Some "utf-8") (inl ValueError))
            [] "Example Book" 1700000000000 ValueError _ _ _ _ _).
  - vm_compute. reflexivity.
  - reflexivity.
  - vm_compute. reflexivity.
  - vm_compute. reflexivity.
  - vm_compute. reflexivity.
Defined.

(** The page of the offer. *)
Lemma extract_with_re_result_witness :
  strip "Example Book" = "Example Book"
  /\ 0 <= 1700000000
  /\ exists m digits,
       Re.search book_re Sample.example_page = Some m
       /\ Re.group m 2 = Some "Example Book"
       /\ Re.group m 1 = Some digits
       /\ all_of isdigit digits = true
       /\ int digits = inr 1700000000.
Proof.
  refine (extract_with_re_result Sample.example_page "Example Book" 1700000000 _).
  vm_compute. reflexivity.
Defined.

(** The wrapped page, which only the fallback reads. *)
Lemma extract_packt_free_book_title_stripped_witness :
  strip "Example Book" = "Example Book"
  /\ exists s,
       page_text (PStr Sample.wrapped_page) (Some "utf-8") = inr s
       /\ (([AttributeError] = [] /\ extract_with_re s = inr ("Example Book", 1700000000)
            /\ 0 <= 1700000000)
           \/ (exists e, [AttributeError] = [e] /\ extract_with_re s = inl e
                         /\ extract_with_parser s = inr ("Example Book", 1700000000))).
Proof.
  refine (extract_packt_free_book_title_stripped (PStr Sample.wrapped_page) (Some "utf-8")
            [AttributeError] "Example Book" 1700000000 _).
  vm_compute. reflexivity.
Defined.

(** A nameless user names Ruby; the [/book] that came with it is
    lost. *)
Lemma ruby_without_username_ends_batch_witness :
  let u := Incoming "text" (Sample.anonymous 131 Sample.group_chat "ruby <3") in
  let rest := [Incoming "text" (Sample.ask 132 Sample.group_chat "/book")] in
  handle_messages (u :: rest) Sample.fresh
  = (set_log (log Sample.fresh ++ [LogInfo "None: ruby"]) Sample.fresh, inl TypeError).
Proof.
  intros u rest.
  refine (ruby_without_username_ends_batch u rest Sample.fresh _ _ _ _).
  - reflexivity.
  - vm_compute. reflexivity.
  - vm_compute. reflexivity.
  - reflexivity.
Defined.

(** The batch without commands. *)
Lemma easter_eggs_only_send_witness :
  only_sent 3 Sample.fresh (handle_messages Sample.chatter Sample.fresh).1.
Proof.
  refine (easter_eggs_only_send Sample.chatter Sample.fresh _).
  repeat (constructor; [vm_compute; reflexivity|]). constructor.
Defined.

(** [--no-dev] on the command line and [DEV=0] in the environment. *)
Lemma dev_mode_from_environment_witness :
  mount_config Sample.command_line Sample.environment !! "dev" = Some (VStr "0")
  /\ exists token key,
       mount_config Sample.command_line Sample.environment !! "telegram_token"
       = Some (VStr token)
       /\ mount_config Sample.command_line Sample.environment !! "meetup_key"
          = Some (VStr key)
       /\ (main Sample.command_line Sample.environment).1
          = [ "Configurando par" +:+ String "226" "metros"; "Iniciando bot";
              "Dev mode activated.";
              "Usando telegram_token=" +:+ token; "Usando meetup_key=" +:+ key ].
Proof.
  refine (dev_mode_from_environment Sample.command_line Sample.environment "0"
            (mount_config Sample.command_line Sample.environment) _ _ _).
  - vm_compute. reflexivity.
  - discriminate.
  - vm_compute. reflexivity.
Defined.

(** The page of the example; the same page when its heading has a
    class, on which the two strategies part; and the wrapped page,
    which only the fallback reads. *)
Lemma extract_example_book_witness :
  markup Sample.example_offer = Sample.example_page
  /\ extract_packt_free_book (PStr Sample.example_page) (Some "utf-8")
     = ([], inr ("Example Book", 1700000000))
  /\ extract_packt_free_book (PStr Sample.attribute_page) (Some "utf-8")
     = ([], inr ("class=" +:+ quoted "title" +:+ ">" +:+ String LF "   Example Book",
                 1700000000))
  /\ extract_with_parser Sample.attribute_page = inr ("Example Book", 1700000000)
  /\ Re.search book_re Sample.wrapped_page = None
  /\ extract_packt_free_book (PBytes (list_byte_of_string Sample.wrapped_page)) (Some "utf-8")
     = ([AttributeError], inr ("Example Book", 1700000000)).
Proof.
  assert (Hcut : well_cut Sample.example_offer)
    by (repeat split; try (vm_compute; reflexivity); discriminate).
  assert (Hcut' : well_cut Sample.attribute_offer)
    by (repeat split; try (vm_compute; reflexivity); discriminate).
  assert (Hre : Re.search book_re Sample.wrapped_page = None) by (vm_compute; reflexivity).
  destruct (select_one (BeautifulSoup Sample.wrapped_page) "#deal-of-the-day")
    as [d|] eqn:Hd; [|vm_compute in Hd; discriminate Hd].
  destruct (select_one d "div div div:nth-of-type(2) div:nth-of-type(2) h2")
    as [h2|] eqn:Hh;
    [|vm_compute in Hd; inversion Hd; subst d; vm_compute in Hh; discriminate Hh].
  destruct (select_one d "span.packt-js-countdown") as [span|] eqn:Hs;
    [|vm_compute in Hd; inversion Hd; subst d; vm_compute in Hs; discriminate Hs].
  assert (Ht : strip (text h2) = "Example Book").
  { vm_compute in Hd. inversion Hd; subst d. vm_compute in Hh. inversion Hh; subst h2.
    vm_compute. reflexivity. }
  assert (Ha : attrs span !! "data-countdown-to" = Some "1700000000").
  { vm_compute in Hd. inversion Hd; subst d. vm_compute in Hs. inversion Hs; subst span.
    vm_compute. reflexivity. }
  assert (Hbytes : page_text (PBytes (list_byte_of_string Sample.wrapped_page)) (Some "utf-8")
                   = inr Sample.wrapped_page) by (vm_compute; reflexivity).
  pose proof (extract_example_book Sample.example_offer 1700000000
                (PStr Sample.example_page) (Some "utf-8")
                (PBytes (list_byte_of_string Sample.wrapped_page)) (Some "utf-8")
                Sample.wrapped_page "1700000000" 1700000000 d h2 span
                Hcut eq_refl eq_refl Hbytes Hre Hd Hh Hs Ha eq_refl)
    as [[_ E1] [_ [_ E2]]].
  pose proof (extract_example_book Sample.attribute_offer 1700000000
                (PStr Sample.attribute_page) (Some "utf-8")
                (PBytes (list_byte_of_string Sample.wrapped_page)) (Some "utf-8")
                Sample.wrapped_page "1700000000" 1700000000 d h2 span
                Hcut' eq_refl eq_refl Hbytes Hre Hd Hh Hs Ha eq_refl)
    as [[_ E3] _].
  rewrite Ht in E2.
  split; [vm_compute; reflexivity|]. split; [exact E1|]. split; [exact E3|].
  split; [vm_compute; reflexivity|]. split; [exact Hre|exact E2].
Defined.
End Samples.
